(** * api-validator: the test-file generator and the queued-test runner

    A shallow embedding of [src/testfile_generator.ts] (reference
    resolution, example extraction, status-code ordering, test-line
    emission) and of [src/test_helpers.ts] (placeholder interpolation, the
    request helper [req], the queue runner [runQueuedTests]), followed by
    the properties of the specification that concern them. *)

From Stdlib Require Import ZArith Ascii String DecimalString DecimalNat Sorted.
From stdpp Require Import base list strings gmap sorting.

Open Scope Z_scope.
Open Scope string_scope.
Open Scope list_scope.

(** ** JavaScript values and the operations the sources use on them *)

Module JS.

(** A thrown exception aborts the computation; only its kind is kept. *)
Inductive error := TypeError | SyntaxError | Error (msg : string).

Inductive M (A : Type) : Type :=
| Ok (a : A)
| Throw (e : error).
Arguments Ok {A} a.
Arguments Throw {A} e.

#[global] Instance M_ret : MRet M := λ A, @Ok A.
#[global] Instance M_bind : MBind M := λ A B (k : A → M B) (m : M A),
  match m with
  | Ok a => k a
  | Throw e => Throw e
  end.

#[local] Set Warnings "-register-all".

(** The built-in prototype objects that the values of a document inherit
    from: [Object.prototype], [Array.prototype], [String.prototype],
    [Number.prototype] and [Boolean.prototype]. *)
Inductive class := CObject | CArray | CString | CNumber | CBoolean.

(** The untyped tree a document is made of.  An object is the list of its
    own enumerable properties in the order [Object.keys] reports them, and
    its prototype is [Object.prototype]; numbers are the integral ones
    (status codes, counters); a string is a sequence of characters with
    codes below 256.  Reading a property that a value inherits leads out of
    the document, to a built-in prototype object ([VProto]) or to one of
    its methods ([VFun c name] is the function [c.prototype[name]], the
    constructor for the name [constructor]). *)
Inductive value :=
| VUndef
| VNull
| VBool (b : bool)
| VNum (n : Z)
| VStr (s : string)
| VArr (xs : list value)
| VObj (kvs : list (string * value))
| VProto (c : class)
| VFun (c : class) (name : string).

Definition truthy (v : value) : bool :=
  match v with
  | VUndef | VNull | VBool false | VNum 0 | VStr "" => false
  | _ => true
  end.

(** [typeof v === 'object'] *)
Definition typeof_object (v : value) : bool :=
  match v with
  | VNull | VArr _ | VObj _ | VProto _ => true
  | _ => false
  end.

(** [Array.isArray(v)]; [Array.prototype] is itself an (empty) array. *)
Definition isArray (v : value) : bool :=
  match v with
  | VArr _ | VProto CArray => true
  | _ => false
  end.

(** [v !== undefined] *)
Definition defined (v : value) : bool :=
  match v with
  | VUndef => false
  | _ => true
  end.

Definition nullish (v : value) : bool :=
  match v with
  | VUndef | VNull => true
  | _ => false
  end.

Fixpoint assoc (k : string) (kvs : list (string * value)) : option value :=
  match kvs with
  | [] => None
  | (k', v) :: rest => if String.eqb k k' then Some v else assoc k rest
  end.

Definition nat_to_string (n : nat) : string :=
  NilZero.string_of_uint (Nat.to_uint n).

(** An array index: the canonical decimal spelling of a natural number. *)
Definition array_index (p : string) : option nat :=
  match NilZero.uint_of_string p with
  | Some u =>
      let i := Nat.of_uint u in
      if String.eqb (nat_to_string i) p then Some i else None
  | None => None
  end.

Fixpoint chars (s : string) : list string :=
  match s with
  | EmptyString => []
  | String c s' => String c EmptyString :: chars s'
  end.

(** *** Properties: own, then inherited *)

(** The string-keyed methods of the built-in prototypes (ECMAScript 2023,
    Annex B included).  The accessor [__proto__] of [Object.prototype] is
    dealt with in [lookup]. *)
Definition methods (c : class) : list string :=
  match c with
  | CObject =>
      ["constructor"; "hasOwnProperty"; "isPrototypeOf";
       "propertyIsEnumerable"; "toLocaleString"; "toString"; "valueOf";
       "__defineGetter__"; "__defineSetter__"; "__lookupGetter__";
       "__lookupSetter__"]
  | CArray =>
      ["constructor"; "at"; "concat"; "copyWithin"; "entries"; "every";
       "fill"; "filter"; "find"; "findIndex"; "findLast"; "findLastIndex";
       "flat"; "flatMap"; "forEach"; "includes"; "indexOf"; "join"; "keys";
       "lastIndexOf"; "map"; "pop"; "push"; "reduce"; "reduceRight";
       "reverse"; "shift"; "slice"; "some"; "sort"; "splice";
       "toLocaleString"; "toReversed"; "toSorted"; "toSpliced"; "toString";
       "unshift"; "values"; "with"]
  | CString =>
      ["constructor"; "anchor"; "at"; "big"; "blink"; "bold"; "charAt";
       "charCodeAt"; "codePointAt"; "concat"; "endsWith"; "fixed";
       "fontcolor"; "fontsize"; "includes"; "indexOf"; "isWellFormed";
       "italics"; "lastIndexOf"; "link"; "localeCompare"; "match";
       "matchAll"; "normalize"; "padEnd"; "padStart"; "repeat"; "replace";
       "replaceAll"; "search"; "slice"; "small"; "split"; "startsWith";
       "strike"; "sub"; "substr"; "substring"; "sup"; "toLocaleLowerCase";
       "toLocaleUpperCase"; "toLowerCase"; "toString"; "toUpperCase";
       "toWellFormed"; "trim"; "trimEnd"; "trimLeft"; "trimRight";
       "trimStart"; "valueOf"]
  | CNumber =>
      ["constructor"; "toExponential"; "toFixed"; "toLocaleString";
       "toPrecision"; "toString"; "valueOf"]
  | CBoolean => ["constructor"; "toString"; "valueOf"]
  end.

Definition hasName (names : list string) (p : string) : bool :=
  existsb (String.eqb p) names.

(** The own property [p] of the prototype object of class [c]:
    a method, or the [length] (zero) of [Array.prototype] and
    [String.prototype]. *)
Definition proto_own (c : class) (p : string) : option value :=
  if hasName (methods c) p then Some (VFun c p)
  else if String.eqb p "length" then
    match c with
    | CArray | CString => Some (VNum 0)
    | _ => None
    end
  else None.

(** The own property [p] of [v], when [v] has one. *)
Definition own_prop (v : value) (p : string) : option value :=
  match v with
  | VObj kvs => assoc p kvs
  | VArr xs =>
      if String.eqb p "length" then Some (VNum (Z.of_nat (List.length xs)))
      else match array_index p with
           | Some i => nth_error xs i
           | None => None
           end
  | VStr s =>
      if String.eqb p "length" then Some (VNum (Z.of_nat (String.length s)))
      else match array_index p with
           | Some i => option_map VStr (nth_error (chars s) i)
           | None => None
           end
  | VProto c => proto_own c p
  | _ => None
  end.

(** The class of the prototype of a value; [Object.prototype] has none.
    The members of a function ([name], [length], [call], ...) are not part
    of the model: no source reads them. *)
Definition proto_of (v : value) : option class :=
  match v with
  | VObj _ => Some CObject
  | VArr _ => Some CArray
  | VStr _ => Some CString
  | VNum _ => Some CNumber
  | VBool _ => Some CBoolean
  | VProto CObject => None
  | VProto _ => Some CObject
  | _ => None
  end.

(** The property [p] found on the prototype chain that starts at the
    prototype object of class [c]. *)
Definition inherited (c : class) (p : string) : option value :=
  match proto_own c p with
  | Some x => Some x
  | None =>
      match c with
      | CObject => None
      | _ => proto_own CObject p
      end
  end.

(** The property [p] of a value that is neither [undefined] nor [null]:
    its own property, else the one it inherits; [__proto__] reads the
    prototype itself.  [None] when there is no such property. *)
Definition lookup (v : value) (p : string) : option value :=
  match own_prop v p with
  | Some x => Some x
  | None =>
      if String.eqb p "__proto__" then
        match v with
        | VUndef | VNull | VFun _ _ => None
        | _ => Some (match proto_of v with
                     | Some c => VProto c
                     | None => VNull
                     end)
        end
      else match proto_of v with
           | Some c => inherited c p
           | None => None
           end
  end.

(** [v[p]]: reading a property of [undefined] or [null] throws. *)
Definition get (v : value) (p : string) : M value :=
  if nullish v then Throw TypeError
  else Ok (match lookup v p with Some x => x | None => VUndef end).

(** [v?.[p]] *)
Definition get_opt (v : value) (p : string) : value :=
  match lookup v p with
  | Some x => x
  | None => VUndef
  end.

(** [p in v], for a [v] that is a non-null object. *)
Definition has_property (v : value) (p : string) : bool :=
  match lookup v p with
  | Some _ => true
  | None => false
  end.

(** [Object.keys(v)] for a [v] that is neither [undefined] nor [null];
    the properties of the built-in objects are not enumerable. *)
Definition keys (v : value) : M (list string) :=
  match v with
  | VUndef | VNull => Throw TypeError
  | VObj kvs => Ok (map fst kvs)
  | VArr xs => Ok (map nat_to_string (seq 0 (List.length xs)))
  | VStr s => Ok (map nat_to_string (seq 0 (String.length s)))
  | _ => Ok []
  end.

(** [Object.entries(v)] *)
Definition entries (v : value) : M (list (string * value)) :=
  match v with
  | VUndef | VNull => Throw TypeError
  | VObj kvs => Ok kvs
  | VArr xs => Ok (combine (map nat_to_string (seq 0 (List.length xs))) xs)
  | VStr s =>
      Ok (combine (map nat_to_string (seq 0 (String.length s)))
                  (map VStr (chars s)))
  | _ => Ok []
  end.

(** [a || b] *)
Definition or_else (a b : value) : value := if truthy a then a else b.

(** [a ?? b] *)
Definition coalesce (a b : value) : value := if nullish a then b else a.

Definition Z_to_string (z : Z) : string :=
  NilZero.string_of_int (Z.to_int z).

Fixpoint join (sep : string) (l : list string) : string :=
  match l with
  | [] => ""
  | [x] => x
  | x :: rest => x +:+ sep +:+ join sep rest
  end.

Definition className (c : class) : string :=
  match c with
  | CObject => "Object"
  | CArray => "Array"
  | CString => "String"
  | CNumber => "Number"
  | CBoolean => "Boolean"
  end.

Definition newline : string := String (ascii_of_nat 10) EmptyString.

(** The source text of a built-in function.  ECMAScript leaves the white
    space to the implementation; this is what JavaScriptCore, the engine
    of Bun, prints. *)
Definition nativeSource (c : class) (name : string) : string :=
  "function "
  +:+ (if String.eqb name "constructor" then className c else name)
  +:+ "() {" +:+ newline +:+ "    [native code]" +:+ newline +:+ "}".

(** [String(v)], the conversion a template literal or a replacement
    callback's result goes through, for the values that [convertible]
    accepts. *)
Fixpoint ToString (v : value) : string :=
  match v with
  | VUndef => "undefined"
  | VNull => "null"
  | VBool true => "true"
  | VBool false => "false"
  | VNum n => Z_to_string n
  | VStr s => s
  | VArr xs =>
      join "," (map (fun x => if nullish x then "" else ToString x) xs)
  | VObj _ => "[object Object]"
  | VProto CObject => "[object Object]"
  | VProto CNumber => "0"
  | VProto CBoolean => "false"
  | VProto _ => ""
  | VFun c name => nativeSource c name
  end.

Definition MAX_SAFE_INTEGER : Z := 9007199254740991.

(** The values whose conversion to a string [ToString] describes: an
    integer is printed digit by digit as long as it is a safe integer
    (beyond [1e21] the engine prints an exponent, and before that only the
    digits that identify the number); an object prints as
    [[object Object]] unless it has a [toString] property of its own, which
    in a document is not a function, so that the conversion throws; the
    text of a function is the engine's. *)
Fixpoint convertible (v : value) : bool :=
  match v with
  | VNum n => (Z.abs n <=? MAX_SAFE_INTEGER)%Z
  | VArr xs =>
      (fix all (l : list value) : bool :=
         match l with
         | [] => true
         | x :: rest => (nullish x || convertible x) && all rest
         end) xs
  | VObj kvs => negb (existsb (fun kv => String.eqb (fst kv) "toString") kvs)
  | VFun _ _ => false
  | _ => true
  end.

(** *** Strings *)

Definition startsWith (s p : string) : bool := String.prefix p s.

(** [s.slice(n)] *)
Fixpoint slice (n : nat) (s : string) : string :=
  match n, s with
  | O, _ => s
  | S n', String _ s' => slice n' s'
  | S _, EmptyString => EmptyString
  end.

(** [s.split(sep)] for a one-character separator. *)
Fixpoint split (sep : ascii) (s : string) : list string :=
  match s with
  | EmptyString => [EmptyString]
  | String c s' =>
      if Ascii.eqb c sep then EmptyString :: split sep s'
      else match split sep s' with
           | piece :: pieces => String c piece :: pieces
           | [] => [String c EmptyString]
           end
  end.

Definition between (lo hi : nat) (c : ascii) : bool :=
  let n := nat_of_ascii c in (lo <=? n)%nat && (n <=? hi)%nat.

Definition isDigit (c : ascii) : bool := between 48 57 c.
Definition isUpper (c : ascii) : bool := between 65 90 c.
Definition isLower (c : ascii) : bool := between 97 122 c.
(** [[a-z]] under the [i] flag *)
Definition isAlpha (c : ascii) : bool := isUpper c || isLower c.
(** [\w] *)
Definition isWord (c : ascii) : bool :=
  isAlpha c || isDigit c || Ascii.eqb c "_"%char.
(** white space skipped by [parseInt] *)
Definition isSpace (c : ascii) : bool :=
  between 9 13 c || Ascii.eqb c " "%char.

Definition lowerChar (c : ascii) : ascii :=
  if isUpper c then ascii_of_nat (nat_of_ascii c + 32) else c.
Definition upperChar (c : ascii) : ascii :=
  if isLower c then ascii_of_nat (nat_of_ascii c - 32) else c.

Fixpoint map_string (f : ascii → ascii) (s : string) : string :=
  match s with
  | EmptyString => EmptyString
  | String c s' => String (f c) (map_string f s')
  end.

Definition toLowerCase : string → string := map_string lowerChar.
Definition toUpperCase : string → string := map_string upperChar.

Fixpoint skip_spaces (s : string) : string :=
  match s with
  | String c s' => if isSpace c then skip_spaces s' else s
  | EmptyString => EmptyString
  end.

(** The value of the longest prefix of decimal digits; [None] when the
    string does not start with a digit. *)
Fixpoint digits_value (acc : option Z) (s : string) : option Z :=
  match s with
  | String c s' =>
      if isDigit c then
        let d := Z.of_nat (nat_of_ascii c - 48) in
        digits_value (Some (match acc with Some a => 10 * a + d | None => d end)) s'
      else acc
  | EmptyString => acc
  end.

(** The number value of a non-negative integer: the integer itself up to
    [2^53], beyond that the nearest integer with 53 significant bits (ties
    to even).  What overflows is [Infinity], which [2^1024] stands for: it
    is above every number, and the difference of two of them counts as
    zero for a comparator, as [NaN] does. *)
Definition to_double (z : Z) : Z :=
  if (z <? 2 ^ 53)%Z then z
  else
    let e := (Z.log2 z - 52)%Z in
    let q := (z / 2 ^ e)%Z in
    let r := (z mod 2 ^ e)%Z in
    let half := (2 ^ (e - 1))%Z in
    let q' := if (half <? r)%Z || ((r =? half)%Z && Z.odd q)
              then (q + 1)%Z else q in
    Z.min (q' * 2 ^ e) (2 ^ 1024).

(** [parseInt(s, 10)]; [None] is [NaN]. *)
Definition parseInt (s : string) : option Z :=
  match skip_spaces s with
  | String "-" r => option_map (fun z => Z.opp (to_double z)) (digits_value None r)
  | String "+" r => option_map to_double (digits_value None r)
  | r => option_map to_double (digits_value None r)
  end.

(** [for (const x of l) ...] with a body that may throw. *)
Fixpoint traverse {A B} (f : A → M B) (l : list A) : M (list B) :=
  match l with
  | [] => Ok []
  | x :: rest => y ← f x; ys ← traverse f rest; Ok (y :: ys)
  end.

(** [obj[k] = v] on an object literal under construction: an existing key
    is overwritten in place; a new array-index key takes its place among
    the index keys, which enumerate first in ascending order; any other new
    key goes last.  Assigning to [__proto__] adds no property: it runs the
    setter of [Object.prototype], which replaces the prototype when the
    value is an object or [null] (the own properties, which are what
    [JSON.stringify] and [Object.keys] show, stay as they are). *)
Definition index_key (k : string) : option nat :=
  match array_index k with
  | Some i => if (Z.of_nat i <? 4294967295)%Z then Some i else None
  | None => None
  end.

Fixpoint insert_index (i : nat) (k : string) (v : value)
    (kvs : list (string * value)) : list (string * value) :=
  match kvs with
  | [] => [(k, v)]
  | (k', v') :: rest =>
      match index_key k' with
      | Some j =>
          if (j <? i)%nat then (k', v') :: insert_index i k v rest
          else (k, v) :: kvs
      | None => (k, v) :: kvs
      end
  end.

Fixpoint overwrite (k : string) (v : value) (kvs : list (string * value))
    : list (string * value) :=
  match kvs with
  | [] => []
  | (k', v') :: rest =>
      if String.eqb k k' then (k', v) :: rest
      else (k', v') :: overwrite k v rest
  end.

Definition obj_set (kvs : list (string * value)) (k : string) (v : value)
    : list (string * value) :=
  if String.eqb k "__proto__" then kvs
  else
    match assoc k kvs with
    | Some _ => overwrite k v kvs
    | None =>
        match index_key k with
        | Some i => insert_index i k v kvs
        | None => kvs ++ [(k, v)]
        end
    end.

(** [Array.prototype.sort(cmp)]: a stable sort; a comparator result of
    [NaN] ([None]) counts as zero.  ECMAScript fixes the outcome only for
    a consistent comparator, for which every stable sort agrees with this
    insertion sort; for any other comparator the order is the engine's.
    An array in which no element ranks after its right neighbour is
    returned as it is by this sort, as it is by a sort that starts from
    the runs or from the adjacent elements of the array. *)
Definition cmp_le (r : option Z) : bool :=
  match r with
  | Some z => (z <=? 0)%Z
  | None => true
  end.

Fixpoint insert_sorted {A} (cmp : A → A → option Z) (x : A) (l : list A) : list A :=
  match l with
  | [] => [x]
  | y :: rest =>
      if cmp_le (cmp x y) then x :: y :: rest
      else y :: insert_sorted cmp x rest
  end.

Fixpoint sort {A} (cmp : A → A → option Z) (l : list A) : list A :=
  match l with
  | [] => []
  | x :: rest => insert_sorted cmp x (sort cmp rest)
  end.

End JS.

(** ** testfile_generator.ts *)

Module Generator.
Import JS.

(** *** resolveRef *)

(** The loop of [resolveRef]: [cur] is indexed by the next segment as long
    as it is a non-null object; otherwise the function returns
    [undefined] at once. *)
Fixpoint walk (cur : value) (path : list string) : M value :=
  match path with
  | [] => Ok cur
  | p :: rest =>
      if truthy cur && typeof_object cur then
        next ← get cur p; walk next rest
      else Ok VUndef
  end.

Definition resolveRef (obj : value) (ref : string) : M value :=
  if negb (startsWith ref "#/") then Ok VUndef
  else walk obj (split "/" (slice 2 ref)).

(** A call [resolveRef(swaggerDoc, x.$ref)] whose argument is read from the
    document: a value that is not a string has no [startsWith] method. *)
Definition resolveRefOf (obj : value) (ref : value) : M value :=
  match ref with
  | VStr s => resolveRef obj s
  | _ => Throw TypeError
  end.

(** *** extractResponseExamples *)

Definition extractResponseExamples (respObj : value) : value :=
  if negb (truthy respObj) || negb (typeof_object respObj) then VUndef
  else
    let media := get_opt (get_opt respObj "content") "application/json" in
    let examples := get_opt media "examples" in
    let fromExamples :=
      if truthy examples then
        match keys examples with
        | Ok (firstKey :: _) =>
            let v := get_opt (get_opt examples firstKey) "value" in
            if truthy (VStr firstKey) && truthy v then Some v else None
        | _ => None
        end
      else None in
    match fromExamples with
    | Some v => v
    | None =>
        if truthy (get_opt media "example") then get_opt media "example"
        else VUndef
    end.

(** *** Status codes *)

Definition isNeg (n : option Z) : bool :=
  match n with
  | Some z => (400 <=? z)%Z && (z <? 600)%Z
  | None => false
  end.

(** The comparator handed to [sort] by [sortStatusCodes]. *)
Definition compareCodes (a b : string) : option Z :=
  let aNum := parseInt a in
  let bNum := parseInt b in
  let aIsNeg := isNeg aNum in
  let bIsNeg := isNeg bNum in
  if aIsNeg && negb bIsNeg then Some (-1)%Z
  else if negb aIsNeg && bIsNeg then Some 1%Z
  else match aNum, bNum with
       | Some x, Some y => Some (x - y)%Z
       | _, _ => None
       end.

Definition sortStatusCodes (statusCodes : list string) : list string :=
  sort compareCodes statusCodes.

(** [sortStatusCodes(statusCodes).filter((code) => code !== "500")] *)
Definition emittedCodes (statusCodes : list string) : list string :=
  filter (λ code, code ≠ "500") (sortStatusCodes statusCodes).

(** *** Emitted statements *)

(** The callback argument of an emitted [t(...)] call. *)
Inductive callback :=
| NoCallback
| ExpectMessage                     (* res => { expect_field(res.body, 'message'); } *)
| ExpectFields (fields : list string). (* res => { expect_field(res.body, [...]); } *)

(** A statement pushed on [test_lines], from the sanity probe up to the
    last test line.  A test line keeps the arguments its template literal
    interpolates: the descriptor, the status code, the body that is
    serialised (when one is passed) and the callback. *)
Inductive line :=
| ProbeLine
| TestLine (descriptor : string) (code : string) (body : option value)
           (cb : callback)
| WarningLine
| BlankLine.

Definition emptyObject : value := VObj [].

(** *** Request-body example (lines 755-784, and the copies of lines
    671-693 and 714-732, which read the first example's [value] without
    optional chaining) *)

Definition firstExampleValue (chained : bool) (examples : value) : M value :=
  ks ← keys examples;
  match ks with
  | firstKey :: _ =>
      if truthy (VStr firstKey) then
        ex ← get examples firstKey;
        if chained then Ok (get_opt ex "value") else get ex "value"
      else Ok VUndef
  | [] => Ok VUndef
  end.

(** The object built from the properties that carry an [example]. *)
Fixpoint exampleObject (acc : list (string * value))
    (props : list (string * value)) : M (list (string * value)) :=
  match props with
  | [] => Ok acc
  | (k, v) :: rest =>
      e ← get v "example";
      exampleObject (if defined e then obj_set acc k e else acc) rest
  end.

Definition schemaExample (doc sch : value) : M value :=
  resolved ← (if truthy (get_opt sch "$ref")
              then resolveRefOf doc (get_opt sch "$ref")
              else Ok sch);
  e ← get resolved "example";
  if defined e then Ok e
  else
    let props := get_opt resolved "properties" in
    if truthy props then
      es ← entries props;
      o ← exampleObject [] es;
      Ok (VObj o)
    else Ok VUndef.

Definition mediaExample (chained : bool) (doc jsonContent : value) : M value :=
  if truthy jsonContent then
    fromExamples ←
      (if truthy (get_opt jsonContent "examples")
       then firstExampleValue chained (get_opt jsonContent "examples")
       else Ok VUndef);
    let exampleBody :=
      if negb (defined fromExamples) && defined (get_opt jsonContent "example")
      then get_opt jsonContent "example"
      else fromExamples in
    let sch := get_opt jsonContent "schema" in
    if negb (defined exampleBody) && truthy sch then schemaExample doc sch
    else Ok exampleBody
  else Ok VUndef.

(** [detail.requestBody?.content?.["application/json"]] and what follows. *)
Definition requestExample (chained : bool) (doc detail : value) : M value :=
  requestBody ← get detail "requestBody";
  mediaExample chained doc
    (get_opt (get_opt requestBody "content") "application/json").

(** *** Response side (lines 786-833) *)

(** [respJson]: the response declared for [code], replaced by the target
    of its [$ref] when that resolves to something truthy. *)
Definition responseNode (doc original : value) : M value :=
  if truthy (get_opt original "$ref") then
    r ← resolveRefOf doc (get_opt original "$ref");
    Ok (or_else r original)
  else Ok original.

Definition hasExample (kv : string * value) : M bool :=
  if typeof_object kv.2 then
    e ← get kv.2 "example"; Ok (defined e)
  else Ok false.

Fixpoint filterM {A} (f : A → M bool) (l : list A) : M (list A) :=
  match l with
  | [] => Ok []
  | x :: rest =>
      b ← f x; ys ← filterM f rest; Ok (if (b : bool) then x :: ys else ys)
  end.

Definition fieldsWithExamples (schema : value) : M (list string) :=
  if truthy (get_opt schema "properties") then
    es ← entries (get_opt schema "properties");
    kept ← filterM hasExample es;
    Ok (map fst kept)
  else Ok [].

Definition responseExample (doc original contentJson schema : value) : M value :=
  (* 1. direct example, else the first of the examples *)
  let direct :=
    if truthy (get_opt contentJson "example") then Ok (get_opt contentJson "example")
    else if truthy (get_opt contentJson "examples") then
      ks ← keys (get_opt contentJson "examples");
      let key := match ks with k :: _ => k | [] => ToString VUndef end in
      let respEx := get_opt (get_opt contentJson "examples") key in
      Ok (get_opt respEx "value")
    else Ok VUndef in
  r1 ← direct;
  (* 2. the example of a referenced schema *)
  r2 ← (if negb (defined r1) && truthy (get_opt schema "$ref") then
          refSchema ← resolveRefOf doc (get_opt schema "$ref");
          Ok (if truthy (get_opt refSchema "example")
              then get_opt refSchema "example" else r1)
        else Ok r1);
  (* 3. the examples of a referenced response component *)
  if negb (defined r2) && truthy (get_opt original "$ref") then
    refResp ← resolveRefOf doc (get_opt original "$ref");
    Ok (if truthy refResp && truthy (extractResponseExamples refResp)
        then extractResponseExamples refResp else r2)
  else Ok r2.

(** *** The test line of one status code of an operation other than
    GET/DELETE (lines 754-855) *)

Definition isErrorCode (code : string) : bool := isNeg (parseInt code).

Definition emitBodyCase (doc : value) (method route : string)
    (detail : value) (code : string) : M line :=
  let descriptor := toUpperCase method +:+ " " +:+ route in
  exampleBody ← requestExample true doc detail;
  responses ← get detail "responses";
  let original := get_opt responses code in
  respJson ← responseNode doc original;
  let contentJson := get_opt (get_opt respJson "content") "application/json" in
  let schema := get_opt contentJson "schema" in
  fields ← fieldsWithExamples schema;
  respExample ← responseExample doc original contentJson schema;
  if negb (Nat.eqb (List.length fields) 0) then
    Ok (TestLine descriptor code (Some emptyObject) (ExpectFields fields))
  else if truthy respExample && typeof_object respExample then
    fns ← keys respExample;
    if negb (Nat.eqb (List.length fns) 0) then
      Ok (TestLine descriptor code (Some (coalesce exampleBody emptyObject))
                   (ExpectFields fns))
    else
      Ok (TestLine descriptor code (Some (coalesce exampleBody emptyObject))
                   NoCallback)
  else if defined exampleBody then
    Ok (TestLine descriptor code (Some exampleBody) NoCallback)
  else if isErrorCode code then
    Ok (TestLine descriptor code (Some emptyObject) ExpectMessage)
  else
    Ok (TestLine descriptor code (Some emptyObject) NoCallback).

Definition emitCase (doc : value) (method route : string)
    (detail : value) (code : string) : M line :=
  if bool_decide (toLowerCase method ∈ ["get"; "delete"]) then
    Ok (TestLine (toUpperCase method +:+ " " +:+ route) code None NoCallback)
  else emitBodyCase doc method route detail code.

(** *** The three passes (lines 663-858) *)

Definition statusCodesOf (detail : value) : M (list string) :=
  responses ← get detail "responses";
  keys (or_else responses emptyObject).

Definition callbackOf (detail : value) : callback :=
  if truthy (get_opt detail "callback") then ExpectMessage else NoCallback.

(** [pathList.find(item => item.route === route)] *)
Fixpoint find_route (route : string) (pathList : list (string * value))
    : option (string * value) :=
  match pathList with
  | [] => None
  | item :: rest =>
      if String.eqb item.1 route then Some item else find_route route rest
  end.

(** Pass 1, one iteration: the POST of a prioritized route, then the
    warning when no emitted code is ["409"]. *)
Definition emitPrioritized (doc : value) (pathList : list (string * value))
    (prioritizedRoute : string) : M (list line) :=
  match find_route prioritizedRoute pathList with
  | Some item =>
      detail ← get item.2 "post";
      if truthy detail then
        exampleBody ← requestExample false doc detail;
        statusCodes ← statusCodesOf detail;
        let codes := emittedCodes statusCodes in
        let post409Present := existsb (fun code => String.eqb code "409") codes in
        let tests :=
          map (fun code =>
                 TestLine ("POST " +:+ prioritizedRoute) code
                          (Some (coalesce exampleBody emptyObject))
                          (callbackOf detail)) codes in
        Ok (tests ++ (if post409Present then [] else [WarningLine]))
      else Ok []
  | None => Ok []
  end.

(** Pass 2: the POST of [/sessions]. *)
Definition emitSessions (doc : value) (pathList : list (string * value))
    : M (list line) :=
  match find_route "/sessions" pathList with
  | Some item =>
      detail ← get item.2 "post";
      if truthy detail then
        sessBody ← requestExample false doc detail;
        statusCodes2 ← statusCodesOf detail;
        Ok (map (fun code =>
                   TestLine "POST /sessions" code
                            (Some (coalesce sessBody emptyObject))
                            (callbackOf detail))
                (emittedCodes statusCodes2))
      else Ok []
  | None => Ok []
  end.

Definition prioritizedRoutes : list string := ["/users"; "/trainees"].

(** Pass 3, one (route, method) group. *)
Definition emitOperation (doc : value) (route : string)
    (entry : string * value) : M (list line) :=
  let method := entry.1 in
  let detail := entry.2 in
  if (bool_decide (route ∈ prioritizedRoutes) || String.eqb route "/sessions")
     && String.eqb (toLowerCase method) "post"
  then Ok []
  else
    statusCodes ← statusCodesOf detail;
    traverse (emitCase doc method route detail) (emittedCodes statusCodes).

Definition emitRoute (doc : value) (item : string * value) : M (list line) :=
  ops ← entries item.2;
  groups ← traverse (emitOperation doc item.1) ops;
  Ok (concat groups).

(** The comparator of [pathList.sort]. *)
Definition priorityFor (item : string * value) : M Z :=
  methods ← keys item.2;
  let hasPost := bool_decide ("post" ∈ methods) in
  if (String.eqb item.1 "/users" || String.eqb item.1 "/trainees") && hasPost
  then Ok 1%Z
  else if String.eqb item.1 "/sessions" && hasPost then Ok 2%Z
  else Ok 3%Z.

Definition priorityOr3 (item : string * value) : Z :=
  match priorityFor item with
  | Ok p => p
  | Throw _ => 3%Z
  end.

(** [pathList.sort(...)]: the comparator runs (and may throw) only when
    there are two routes or more. *)
Definition sortedPathList (paths : value) : M (list (string * value)) :=
  pathList ← entries paths;
  _ ← (if (2 <=? List.length pathList)%nat
       then traverse priorityFor pathList else Ok []);
  Ok (sort (fun a b => Some (priorityOr3 a - priorityOr3 b)%Z) pathList).

(** The statements of the plan, from the sanity probe to the last test
    line. *)
Definition planLines (doc : value) : M (list line) :=
  paths0 ← get doc "paths";
  pathList ← sortedPathList (or_else paths0 emptyObject);
  pass1 ← traverse (emitPrioritized doc pathList) prioritizedRoutes;
  pass2 ← emitSessions doc pathList;
  pass3 ← traverse (emitRoute doc) pathList;
  Ok ([ProbeLine; BlankLine] ++ concat pass1 ++ pass2 ++ concat pass3).

End Generator.

(** ** test_helpers.ts *)

Module Helpers.
Import JS.

(** [ctx[k]] on the shared context, a plain object: the map holds its
    own properties, and a name it does not hold is looked up on
    [Object.prototype]. *)
Definition ctx_get (ctx : gmap string value) (k : string) : value :=
  match ctx !! k with
  | Some v => v
  | None => get_opt (VObj []) k
  end.

(** *** Placeholder interpolation

    [s.replace(re, (_, k) => f(k))], where [re] is the pattern of
    [runQueuedTests] (a dollar sign, one character of [[a-z]], then a
    greedy run of [\w], under the flags [g] and [i]): every leftmost match
    is replaced by the callback's result for the name after the dollar
    sign.  The scan is written as one
    pass over the string; [tok] holds the name matched so far while the
    scan is inside a match. *)
Fixpoint replaceTokens (f : string → string) (tok : option string)
    (s : string) : string :=
  match s with
  | EmptyString =>
      match tok with
      | Some name => f name
      | None => EmptyString
      end
  | String c s' =>
      match tok with
      | Some name =>
          if isWord c then replaceTokens f (Some (name +:+ String c "")) s'
          else
            f name +:+
            (if Ascii.eqb c "$" then
               match s' with
               | String d s'' =>
                   if isAlpha d then replaceTokens f (Some (String d "")) s''
                   else String c (replaceTokens f None s')
               | EmptyString => String c (replaceTokens f None s')
               end
             else String c (replaceTokens f None s'))
      | None =>
          if Ascii.eqb c "$" then
            match s' with
            | String d s'' =>
                if isAlpha d then replaceTokens f (Some (String d "")) s''
                else String c (replaceTokens f None s')
            | EmptyString => String c (replaceTokens f None s')
            end
          else String c (replaceTokens f None s')
      end
  end.

(** [url.replace(re, (_, k) => ctx[k])] *)
Definition interpolate (ctx : gmap string value) (url : string) : string :=
  replaceTokens (fun k => ToString (ctx_get ctx k)) None url.

(** *** The request helper *)

Record Request := {
  r_method : string;
  r_url : string;
  r_params : list (string * string);
  r_headers : list (string * string);
  r_payload : option string
}.

(** What [fetch] resolves to: the status, whether the content type
    includes [application/json], and what [res.json()] and [res.text()]
    give ([res.json()] rejects with a message on a malformed body). *)
Record Response := {
  res_status : Z;
  res_isJson : bool;
  res_json : value + string;
  res_text : string
}.

Inductive fetchResult :=
| Rejected (message : string)
| Resolved (res : Response).

Record ReqResponse := { status : Z; body : value }.

Record Options := {
  o_body : value;
  o_headers : list (string * string);
  o_params : list (string * string)
}.

(** [methodPath.split(" ", 2)] with the defaults of the destructuring. *)
Definition methodOf (methodPath : string) : string :=
  match take 2 (split " " methodPath) with
  | m :: _ => m
  | [] => ""
  end.

Definition pathOf (methodPath : string) : string :=
  match take 2 (split " " methodPath) with
  | _ :: p :: _ => p
  | _ => ""
  end.

Definition hasHeader (name : string) (h : list (string * string)) : bool :=
  existsb (fun kv => String.eqb (toLowerCase kv.1) (toLowerCase name)) h.

Definition dquote : string := String (ascii_of_nat 34) EmptyString.

Definition baseUrlMissing : error :=
  Error ("BASE_URL is not defined. Please define `const BASE_URL = "
         +:+ dquote +:+ "..." +:+ dquote
         +:+ ";` at the top of your test file.").

Section Engine.

(** The environment of a run: the state of the network and of the servers
    behind it, the global [BASE_URL], the [URL] constructor (which throws
    on a string it cannot parse), the [Headers] constructor (which throws
    on a name or a value that cannot be a header; [validHeaders] tells
    whether it accepts the entries) and [JSON.stringify]. *)
Variable World : Type.
Variable fetch : World → Request → fetchResult * World.
Variable BASE_URL : option string.
Variable URL : string → string → option string.
Variable validHeaders : list (string * string) → bool.
Variable JSON_stringify : value → string.

(** The result of a call of [req]: what it returns or throws, the world
    after it, and the requests it dispatched. *)
Definition req (w : World) (methodPath : string) (opts : Options)
    : M ReqResponse * World * list Request :=
  let method := methodOf methodPath in
  let path := pathOf methodPath in
  if String.eqb method "" || String.eqb path "" then
    (Ok {| status := 0; body := VStr ("Invalid methodPath: " +:+ methodPath) |},
     w, [])
  else
    match BASE_URL with
    | None => (Throw baseUrlMissing, w, [])
    | Some baseUrl =>
        match URL path baseUrl with
        | None => (Throw TypeError, w, [])
        | Some url =>
            if negb (validHeaders (o_headers opts)) then (Throw TypeError, w, [])
            else
            let b := o_body opts in
            let sends :=
              truthy b && (typeof_object b || match b with VStr _ => true | _ => false end) in
            let payload :=
              if sends then
                Some (match b with VStr s => s | _ => JSON_stringify b end)
              else None in
            let h :=
              if sends && negb (hasHeader "content-type" (o_headers opts))
              then o_headers opts ++ [("content-type", "application/json")]
              else o_headers opts in
            let request :=
              {| r_method := method; r_url := url; r_params := o_params opts;
                 r_headers := h; r_payload := payload |} in
            match fetch w request with
            | (Rejected message, w') =>
                (Ok {| status := 0; body := VStr message |}, w', [request])
            | (Resolved res, w') =>
                if res_isJson res then
                  match res_json res with
                  | inl v => (Ok {| status := res_status res; body := v |}, w', [request])
                  | inr message =>
                      (Ok {| status := 0; body := VStr message |}, w', [request])
                  end
                else
                  (Ok {| status := res_status res; body := VStr (res_text res) |},
                   w', [request])
            end
        end
    end.

(** *** The queue runner *)

Record QueuedTest := {
  url : string;
  auth : bool;
  expStatus : Z;
  qbody : value;
  save : option (ReqResponse → gmap string value → M (gmap string value))
}.

(** [t(url, auth, expStatus, body = null, save)] *)
Definition t (queuedTests : list QueuedTest) (c : QueuedTest) : list QueuedTest :=
  queuedTests ++ [c].

(** [auth && ctx.token ? { Authorization: `Bearer ${ctx.token}` } : {}] *)
Definition authHeaders (auth : bool) (ctx : gmap string value)
    : list (string * string) :=
  if auth && truthy (ctx_get ctx "token")
  then [("Authorization", "Bearer " +:+ ToString (ctx_get ctx "token"))]
  else [].

(** [{ body, headers }], the options [runQueuedTests] hands to [req]. *)
Definition caseOptions (c : QueuedTest) (ctx : gmap string value) : Options :=
  {| o_body := qbody c; o_headers := authHeaders (auth c) ctx; o_params := [] |}.

Inductive event :=
| Testing (c : QueuedTest)            (* the title line of a case *)
| Dispatched (r : Request)            (* a request handed to fetch *)
| Pass (c : QueuedTest)               (* the PASS line *)
| Fail (c : QueuedTest) (got : Z).    (* the FAIL line *)

Inductive outcome :=
| Exit0                               (* process.exit(0) after the loop *)
| Exit1                               (* process.exit(1), or the thrown Error *)
| Uncaught (e : error).               (* req or a callback threw *)

Record run := {
  result : outcome;
  world : World;
  context : gmap string value;
  log : list event
}.

Definition logged (evs : list event) (r : run) : run :=
  {| result := result r; world := world r; context := context r;
     log := evs ++ log r |}.

Fixpoint runQueuedTests (w : World) (ctx : gmap string value)
    (queuedTests : list QueuedTest) : run :=
  match queuedTests with
  | [] => {| result := Exit0; world := w; context := ctx; log := [] |}
  | c :: rest =>
      let path := interpolate ctx (url c) in
      match req w path (caseOptions c ctx) with
      | (Throw e, w', sent) =>
          {| result := Uncaught e; world := w'; context := ctx;
             log := Testing c :: map Dispatched sent |}
      | (Ok res, w', sent) =>
          if (status res =? expStatus c)%Z then
            match save c with
            | Some callback =>
                match callback res ctx with
                | Ok ctx' =>
                    logged (Testing c :: map Dispatched sent ++ [Pass c])
                           (runQueuedTests w' ctx' rest)
                | Throw e =>
                    {| result := Uncaught e; world := w'; context := ctx;
                       log := Testing c :: map Dispatched sent ++ [Pass c] |}
                end
            | None =>
                logged (Testing c :: map Dispatched sent ++ [Pass c])
                       (runQueuedTests w' ctx rest)
            end
          else
            {| result := Exit1; world := w'; context := ctx;
               log := Testing c :: map Dispatched sent ++ [Fail c (status res)] |}
      end
  end.

(** The cases a run started, in the order it started them, and the
    requests it dispatched. *)
Definition executed (r : run) : list QueuedTest :=
  omap (fun e => match e with Testing c => Some c | _ => None end) (log r).

Definition dispatched (r : run) : list Request :=
  omap (fun e => match e with Dispatched q => Some q | _ => None end) (log r).

End Engine.

End Helpers.

(** ** The specification's notions, stated independently of the code *)

Module Spec.
Import JS.

(** The document as a tree: [x] is the member named [p] of [v] when [v]
    is an object that holds [x] under the key [p], or an array that holds
    [x] at the index written [p]. *)
Inductive child : value → string → value → Prop :=
| child_field kvs before after p x :
    kvs = before ++ (p, x) :: after → p ∉ before.*1 →
    child (VObj kvs) p x
| child_element xs i x :
    xs !! i = Some x → child (VArr xs) (nat_to_string i) x.

(** [v] is reached from [doc] by indexing successively with the
    segments, every one of which exists. *)
Inductive reaches : value → list string → value → Prop :=
| reaches_nil v : reaches v [] v
| reaches_cons v p x rest y :
    child v p x → reaches x rest y → reaches v (p :: rest) y.

(** The names under which an object or an array has a property that is
    no member of the document: what it inherits from the built-in
    prototypes, and the [length] of an array.  A built-in prototype
    object is left aside. *)
Definition builtinName (v : value) (p : string) : Prop :=
  match v with
  | VObj _ => p = "__proto__" ∨ p ∈ methods CObject
  | VArr _ =>
      p = "length" ∨ p = "__proto__" ∨ p ∈ methods CArray ∨ p ∈ methods CObject
  | VProto _ => True
  | _ => False
  end.

(** A segment holds no slash. *)
Fixpoint noSlash (s : string) : bool :=
  match s with
  | EmptyString => true
  | String c s' => negb (Ascii.eqb c "/") && noSlash s'
  end.

(** A name as the placeholder pattern matches it: a letter followed by
    word characters. *)
Fixpoint allWord (s : string) : bool :=
  match s with
  | EmptyString => true
  | String c s' => isWord c && allWord s'
  end.

Definition isName (s : string) : bool :=
  match s with
  | String c s' => isAlpha c && allWord s'
  | EmptyString => false
  end.

(** The status-code ordering rule: a code is numeric when [parseInt]
    reads a number off it, which is then its value; a numeric code of the
    400-599 range goes before any other code, and inside each of the two
    groups the numeric codes ascend (a code without a value is bound by
    no order inside its group). *)
Definition numeric (code : string) : Prop := is_Some (parseInt code).

Definition codeValue (code : string) : Z := default 0%Z (parseInt code).

Definition inErrorRange (code : string) : bool :=
  bool_decide (numeric code)
  && (400 <=? codeValue code)%Z && (codeValue code <? 600)%Z.

Definition precedes (a b : string) : Prop :=
  (inErrorRange a = true ∧ inErrorRange b = false)
  ∨ (inErrorRange a = inErrorRange b
     ∧ (numeric a → numeric b → (codeValue a ≤ codeValue b)%Z)).

(** The groups on which the comparator of [sortStatusCodes] is
    consistent, so that the outcome of the sort is determined: every code
    is numeric, or else the numeric codes outside the 400-599 range all
    have the same value (a code without a value compares as equal to each
    of them). *)
Definition orderable (codes : list string) : Prop :=
  Forall numeric codes
  ∨ ∀ a b, a ∈ codes → b ∈ codes → numeric a → numeric b →
           inErrorRange a = false → inErrorRange b = false →
           codeValue a = codeValue b.

(** The choice of body and assertion for an operation other than
    GET/DELETE, in the words of section 4.6: the body is the request
    example, or an empty object when none was found; the callback asserts
    (a) all the fields-with-examples when the response schema exposes
    several, (b) else the first field of a response example object that
    has one, (c) else a [message] field for a code of the 4xx/5xx class,
    (d) else nothing. *)
Definition claimedBody (exampleBody : value) : value :=
  if defined exampleBody then exampleBody else Generator.emptyObject.

Definition claimedCallback (fields : list string) (respExample : value)
    (code : string) : Generator.callback :=
  if (2 <=? List.length fields)%nat then Generator.ExpectFields fields
  else match respExample with
       | VObj ((field, _) :: _) => Generator.ExpectFields [field]
       | _ => if inErrorRange code then Generator.ExpectMessage
              else Generator.NoCallback
       end.

(** The test line section 4.6 describes, over the examples the code
    extracts. *)
Definition claimedCase (doc : value) (method route : string)
    (detail : value) (code : string) : M Generator.line :=
  exampleBody ← Generator.requestExample true doc detail;
  responses ← get detail "responses";
  let original := get_opt responses code in
  respJson ← Generator.responseNode doc original;
  let contentJson := get_opt (get_opt respJson "content") "application/json" in
  let schema := get_opt contentJson "schema" in
  fields ← Generator.fieldsWithExamples schema;
  respExample ← Generator.responseExample doc original contentJson schema;
  Ok (Generator.TestLine (toUpperCase method +:+ " " +:+ route) code
        (Some (claimedBody exampleBody))
        (claimedCallback fields respExample code)).



(** The number of warning markers among emitted statements. *)
Definition isWarning (l : Generator.line) : bool :=
  match l with
  | Generator.WarningLine => true
  | _ => false
  end.

Definition warnings (lines : list Generator.line) : nat :=
  List.length (List.filter isWarning lines).

(** The status code of an emitted test line. *)
Definition lineCode (l : Generator.line) : option string :=
  match l with
  | Generator.TestLine _ code _ _ => Some code
  | _ => None
  end.

(** *** The plan, route by route *)

(** The POST operation a document declares for a route,
    [paths[route].post], and the status codes an operation declares. *)
Definition declaredPost (doc : value) (route : string) : value :=
  get_opt (get_opt (or_else (get_opt doc "paths") Generator.emptyObject) route)
          "post".

Definition declaredCodes (detail : value) : list string :=
  match keys (or_else (get_opt detail "responses") Generator.emptyObject) with
  | Ok codes => codes
  | Throw _ => []
  end.

(** The routes of a document are listed once each, as the keys of an
    object are. *)
Definition uniqueRoutes (doc : value) : Prop :=
  ∀ kvs, or_else (get_opt doc "paths") Generator.emptyObject = VObj kvs →
         NoDup kvs.*1.

(** Whether the first pass owes a route the missing-duplicate-check
    warning: the route declares a POST operation and ["409"] is not among
    its status codes. *)
Definition lacksDuplicateCheck (doc : value) (route : string) : bool :=
  truthy (declaredPost doc route)
  && negb (bool_decide ("409" ∈ declaredCodes (declaredPost doc route))).

(** The statements of the first pass for a route: nothing when the route
    declares no POST operation; otherwise one [POST] test line per
    emitted status code, followed by the warning marker when it is
    owed. *)
Definition routeBlock (doc : value) (route : string)
    (block : list Generator.line) : Prop :=
  if truthy (declaredPost doc route) then
    ∃ tests,
      block = tests ++ (if lacksDuplicateCheck doc route
                        then [Generator.WarningLine] else [])
      ∧ warnings tests = 0%nat
      ∧ omap lineCode tests
        = Generator.emittedCodes (declaredCodes (declaredPost doc route))
      ∧ Forall (λ l, ∃ code body cb,
                  l = Generator.TestLine ("POST " +:+ route) code body cb) tests
  else block = [].

(** *** The rule by which a test line is chosen *)

(** First and second pass (the POST of [/users], [/trainees] and
    [/sessions]): the body is the request example, or an empty object
    when there is none; the callback asserts [message] exactly when the
    operation has a truthy [callback] member. *)
Definition priorityRule (doc : value) (route : string) (detail : value)
    (code : string) (l : Generator.line) : Prop :=
  ∃ exampleBody,
    Generator.requestExample false doc detail = Ok exampleBody
    ∧ l = Generator.TestLine ("POST " +:+ route) code
            (Some (coalesce exampleBody Generator.emptyObject))
            (if truthy (get_opt detail "callback")
             then Generator.ExpectMessage else Generator.NoCallback).

(** Third pass, a method other than GET/DELETE: (a) the response schema
    exposes at least one field with an example: an empty-object body and
    an assertion on all those fields; (b) else the response example is an
    object: the request example (or an empty object) as body, with an
    assertion on all the fields of the response example when it has any
    and none otherwise; (c) else a request example was found: that body
    and no assertion; (d) else an empty-object body, with an assertion on
    [message] for a code of the 400-599 range and none otherwise. *)
Definition bodyRule (doc : value) (method route : string) (detail : value)
    (code : string) (l : Generator.line) : Prop :=
  ∃ exampleBody responses respJson fields respExample body cb,
    Generator.requestExample true doc detail = Ok exampleBody
    ∧ get detail "responses" = Ok responses
    ∧ Generator.responseNode doc (get_opt responses code) = Ok respJson
    ∧ Generator.fieldsWithExamples
        (get_opt (get_opt (get_opt respJson "content") "application/json")
                 "schema")
      = Ok fields
    ∧ Generator.responseExample doc (get_opt responses code)
        (get_opt (get_opt respJson "content") "application/json")
        (get_opt (get_opt (get_opt respJson "content") "application/json")
                 "schema")
      = Ok respExample
    ∧ l = Generator.TestLine (toUpperCase method +:+ " " +:+ route) code
            (Some body) cb
    ∧ (fields ≠ [] →
       body = Generator.emptyObject ∧ cb = Generator.ExpectFields fields)
    ∧ (fields = [] → truthy respExample && typeof_object respExample = true →
       ∃ fns, keys respExample = Ok fns
              ∧ body = coalesce exampleBody Generator.emptyObject
              ∧ cb = (if decide (fns = []) then Generator.NoCallback
                      else Generator.ExpectFields fns))
    ∧ (fields = [] → truthy respExample && typeof_object respExample = false →
       defined exampleBody = true →
       body = exampleBody ∧ cb = Generator.NoCallback)
    ∧ (fields = [] → truthy respExample && typeof_object respExample = false →
       defined exampleBody = false →
       body = Generator.emptyObject
       ∧ cb = (if inErrorRange code then Generator.ExpectMessage
               else Generator.NoCallback)).

(** The line of a status code of an operation of the third pass. *)
Definition caseRule (doc : value) (method route : string) (detail : value)
    (code : string) (l : Generator.line) : Prop :=
  if bool_decide (toLowerCase method ∈ ["get"; "delete"]) then
    l = Generator.TestLine (toUpperCase method +:+ " " +:+ route) code None
          Generator.NoCallback
  else bodyRule doc method route detail code l.

(** The lines of an operation of the third pass: none for the POST of a
    route of the first two passes, otherwise one per emitted code. *)
Definition operationLines (doc : value) (route : string)
    (entry : string * value) (group : list Generator.line) : Prop :=
  if (bool_decide (route ∈ Generator.prioritizedRoutes)
      || String.eqb route "/sessions")
     && String.eqb (toLowerCase entry.1) "post"
  then group = []
  else ∃ statusCodes,
         Generator.statusCodesOf entry.2 = Ok statusCodes
         ∧ Forall2 (caseRule doc entry.1 route entry.2)
                   (Generator.emittedCodes statusCodes) group.

Definition routeLines (doc : value) (item : string * value)
    (block : list Generator.line) : Prop :=
  ∃ ops groups,
    entries item.2 = Ok ops
    ∧ Forall2 (operationLines doc item.1) ops groups
    ∧ block = concat groups.

(** The lines of the POST of a route of the first two passes, the warning
    marker of the first pass left aside. *)
Definition priorityLines (doc : value) (pathList : list (string * value))
    (route : string) (tests : list Generator.line) : Prop :=
  match Generator.find_route route pathList with
  | Some item =>
      ∃ detail,
        get item.2 "post" = Ok detail
        ∧ if truthy detail then
            ∃ statusCodes,
              Generator.statusCodesOf detail = Ok statusCodes
              ∧ Forall2 (priorityRule doc route detail)
                        (Generator.emittedCodes statusCodes) tests
          else tests = []
  | None => tests = []
  end.

(** The same queued case, declared without authentication. *)
Definition unauthenticated (c : Helpers.QueuedTest) : Helpers.QueuedTest :=
  {| Helpers.url := Helpers.url c; Helpers.auth := false;
     Helpers.expStatus := Helpers.expStatus c;
     Helpers.qbody := Helpers.qbody c; Helpers.save := Helpers.save c |}.

Definition startsWord (s : string) : bool :=
  match s with
  | String c _ => isWord c
  | EmptyString => false
  end.

(** The names of the placeholders of a descriptor, in the order in which
    the pattern matches them; [tok] is the name being read. *)
Fixpoint placeholders (tok : option string) (s : string) : list string :=
  match s with
  | EmptyString =>
      match tok with
      | Some name => [name]
      | None => []
      end
  | String c s' =>
      let after :=
        if Ascii.eqb c "$" then
          match s' with
          | String d s'' =>
              if isAlpha d then placeholders (Some (String d "")) s''
              else placeholders None s'
          | EmptyString => placeholders None s'
          end
        else placeholders None s' in
      match tok with
      | Some name =>
          if isWord c then placeholders (Some (name +:+ String c "")) s'
          else name :: after
      | None => after
      end
  end.

(** The context gives every placeholder of the descriptor a value whose
    string form the model describes. *)
Definition rendered (ctx : gmap string value) (url : string) : Prop :=
  Forall (λ name, convertible (Helpers.ctx_get ctx name) = true)
         (placeholders None url).

(** A route such as [/users]: no array index, and no name of a built-in
    property. *)
Definition plainRoute (route : string) : Prop :=
  array_index route = None
  ∧ String.eqb route "length" = false
  ∧ String.eqb route "__proto__" = false
  ∧ ∀ c, hasName (methods c) route = false.

End Spec.

(** ** testfile_generator.ts: recovering the document from the script *)

Module Acquirer.
Import JS.

#[local] Set Warnings "-register-all".

(** The key of a property of an object literal: an identifier, a literal,
    or any other (computed) expression, which has neither a [name] that is
    read nor a [value]. *)
Inductive key :=
| KIdentifier (name : string)
| KLiteral (v : value)
| KComputed.

(** The syntax tree of an expression, as far as [astToObject] looks at it.
    A member of [properties] is a property (key and value) or a spread
    element ([None]), which has no [key]; a member of [elements] is an
    expression or a hole ([None]). *)
Inductive node :=
| ObjectExpression (properties : list (option (key * node)))
| ArrayExpression (elements : list (option node))
| Literal (v : value)
| Identifier (name : string)
| OtherNode.

(** [prop.key.type === "Identifier" ? prop.key.name : prop.key.value],
    converted to a property name. *)
Definition keyName (k : key) : string :=
  match k with
  | KIdentifier name => name
  | KLiteral v => ToString v
  | KComputed => ToString VUndef
  end.

Fixpoint astToObject (n : node) : M value :=
  match n with
  | ObjectExpression properties =>
      (fix props (obj : list (string * value))
           (ps : list (option (key * node))) : M value :=
         match ps with
         | [] => Ok (VObj obj)
         | None :: _ => Throw TypeError
         | Some (k, v) :: rest =>
             x ← astToObject v; props (obj_set obj (keyName k) x) rest
         end) [] properties
  | ArrayExpression elements =>
      xs ← (fix elems (es : list (option node)) : M (list value) :=
              match es with
              | [] => Ok []
              | e :: rest =>
                  x ← match e with
                      | Some n' => astToObject n'
                      | None => Ok VUndef
                      end;
                  xs ← elems rest; Ok (x :: xs)
              end) elements;
      Ok (VArr xs)
  | Literal v => Ok v
  | Identifier name => Ok (VStr name)
  | OtherNode => Ok VUndef
  end.

Definition evalSwaggerDoc (n : node) : value :=
  match astToObject n with
  | Ok v => v
  | Throw _ => VObj []
  end.

End Acquirer.

(** ** testfile_generator.ts: the base URL baked into the test file
    (lines 566-612) *)

Module BaseUrl.
Import JS.

Inductive derived :=
| Baked (bakedBaseUrl : string)     (* generation goes on with this base URL *)
| Aborted (message : string)        (* console.error(message); return *)
| Raised (e : error).               (* an exception leaves generateTestFile *)

Definition cannotParse : string :=
  "Could not parse swaggerUiLink to extract base URL".
Definition baseUrlRequired : string :=
  "API base URL is required to generate test script".

(** [s.replace(/\/$/, "")]: one trailing slash is removed. *)
Fixpoint stripSlash (s : string) : string :=
  match s with
  | EmptyString => EmptyString
  | String c EmptyString => if Ascii.eqb c "/" then EmptyString else s
  | String c s' => String c (stripSlash s')
  end.

Section Derive.

(** [new URL(link)], reduced to the [protocol//host] it is read for;
    [None] when the constructor throws.  [prompted] is what the operator
    answers to the base-URL question. *)
Variable origin : string → option string.
Variable prompted : value.

(** The [try] blocks around [new URL(swaggerUiLink!)]; an absent link is
    converted to the text [undefined] by the constructor. *)
Definition fromLink (swaggerUiLink : option string) : derived :=
  match origin (match swaggerUiLink with
                | Some link => link
                | None => ToString VUndef
                end) with
  | Some o => Baked o
  | None => Aborted cannotParse
  end.

Definition bakedBaseUrl (swaggerDoc : value) (swaggerUiLink : option string)
    (interactive : bool) : derived :=
  let servers := get_opt swaggerDoc "servers" in
  if truthy servers && isArray servers
     && match servers with VArr (_ :: _) => true | _ => false end
  then
    match get (get_opt servers "0") "url" with
    | Throw e => Raised e
    | Ok firstServerUrl =>
        match firstServerUrl with
        | VStr u => if startsWith u "http" then Baked (stripSlash u)
                    else fromLink swaggerUiLink
        | _ => fromLink swaggerUiLink
        end
    end
  else if match swaggerUiLink with
          | Some link => truthy (VStr link)
          | None => false
          end
  then fromLink swaggerUiLink
  else if interactive then
    if truthy prompted then Baked (ToString prompted)
    else Aborted baseUrlRequired
  else Baked "".

End Derive.

End BaseUrl.

(** ** test_helpers.ts: assertions and the minimal test runner *)

Module Assertions.
Import JS.

#[local] Set Warnings "-register-all".

(** A [Structure]: one of the five type constants, or an object whose
    values are structures. *)
Inductive Structure :=
| TString
| TNumber
| TBoolean
| TArray
| TObject
| Shape (fields : list (string * Structure)).

(** [typeof data === "object" && data !== null && !Array.isArray(data)] *)
Definition plainObject (data : value) : bool :=
  typeof_object data
  && negb (match data with VNull => true | _ => false end)
  && negb (isArray data).

Fixpoint has_structure (data : value) (shape : Structure) : bool :=
  match shape with
  | TString => match data with VStr _ => true | _ => false end
  | TNumber => match data with VNum _ => true | _ => false end
  | TBoolean => match data with VBool _ => true | _ => false end
  | TArray => isArray data
  | TObject => plainObject data
  | Shape fields =>
      plainObject data
      && (fix every (fs : list (string * Structure)) : bool :=
            match fs with
            | [] => true
            | (k, v) :: rest =>
                has_structure (get_opt data k) v && every rest
            end) fields
  end.

(** [expect(cond, msg)] *)
Definition expect (cond : bool) (msg : string) : M unit :=
  if cond then Ok tt else Throw (Error ("FAIL: " +:+ msg)).

(** [obj && typeof obj === 'object' && f in obj] *)
Definition fieldIn (obj : value) (f : string) : bool :=
  truthy obj && typeof_object obj && has_property obj f.

Section Messages.

Variable JSON_stringify : value → string.

Definition fieldMessage (obj : value) (f : string) : string :=
  "Expected field '" +:+ f +:+ "' in object, got: " +:+ JSON_stringify obj.

(** [expect_field(obj, field)], for a single name ([inl]) or an array of
    names ([inr]). *)
Definition expect_field (obj : value) (field : string + list string) : M unit :=
  match field with
  | inr fields =>
      _ ← traverse (λ f, expect (fieldIn obj f) (fieldMessage obj f)) fields;
      Ok tt
  | inl f => expect (fieldIn obj f) (fieldMessage obj f)
  end.

End Messages.

(** [expect_status(res, expected)] *)
Definition expect_status (status expected : Z) : M unit :=
  expect (status =? expected)%Z
         ("Expected status " +:+ Z_to_string expected +:+ ", got "
          +:+ Z_to_string status).

(** *** test, runSingle, runTests *)

(** What a registered test function does when it is awaited: it returns,
    or throws a [SkipTest] or anything else; the world is what it acts
    on. *)
Inductive thrown :=
| SkipTest (message : string)
| Failure (message : string).

Record Counters := { passed : nat; failed : nat; skipped : nat }.

Inductive verdict := VPass | VSkip | VFail.

Section Tests.

Variable World : Type.

Record Test := { desc : string; fn : World → option thrown * World }.

(** [test(desc, fn)] *)
Definition test (tests : list Test) (desc : string)
    (fn : World → option thrown * World) : list Test :=
  tests ++ [{| desc := desc; fn := fn |}].

Definition runSingle (results : Counters) (w : World) (t : Test)
    : verdict * Counters * World :=
  match fn t w with
  | (None, w') =>
      (VPass, {| passed := S (passed results); failed := failed results;
                 skipped := skipped results |}, w')
  | (Some (SkipTest _), w') =>
      (VSkip, {| passed := passed results; failed := failed results;
                 skipped := S (skipped results) |}, w')
  | (Some (Failure _), w') =>
      (VFail, {| passed := passed results; failed := S (failed results);
                 skipped := skipped results |}, w')
  end.

(** The loop of [runTests]: the counters and the world after it, and the
    tests it ran. *)
Fixpoint runTests (results : Counters) (w : World) (tests : list Test)
    : Counters * World * list Test :=
  match tests with
  | [] => (results, w, [])
  | t :: rest =>
      match runSingle results w t with
      | (VFail, results', w') => (results', w', [t])
      | (_, results', w') =>
          match runTests results' w' rest with
          | (results'', w'', ran) => (results'', w'', t :: ran)
          end
      end
  end.

(** The total that [printSummary] prints. *)
Definition total (results : Counters) : nat :=
  (passed results + failed results + skipped results)%nat.

End Tests.

End Assertions.

(** ** Further notions used to state properties of the code *)

Module SpecExtra.
Import JS.

(** A string in which no dollar sign is followed by a letter: it holds no
    placeholder. *)
Fixpoint noToken (s : string) : bool :=
  match s with
  | EmptyString => true
  | String c s' =>
      negb (Ascii.eqb c "$"
            && match s' with String d _ => isAlpha d | EmptyString => false end)
      && noToken s'
  end.

(** The body of a request is serialised when it is a non-empty string or
    a non-null object. *)
Definition sendsBody (b : value) : bool :=
  match b with
  | VStr s => negb (String.eqb s "")
  | VArr _ | VObj _ | VProto _ => true
  | _ => false
  end.

(** The priority class of a route: 1 for [/users] and [/trainees] with
    a [post] key, 2 for [/sessions] with a [post] key, 3 otherwise. *)
Definition routeClass (item : string * value) : Z :=
  let hasPost :=
    match keys item.2 with
    | Ok methods => bool_decide ("post" ∈ methods)
    | Throw _ => false
    end in
  if (String.eqb item.1 "/users" || String.eqb item.1 "/trainees") && hasPost
  then 1%Z
  else if String.eqb item.1 "/sessions" && hasPost then 2%Z
  else 3%Z.

Definition inClass (p : Z) (pathList : list (string * value))
    : list (string * value) :=
  filter (λ item, routeClass item = p) pathList.

(** A string that ends with a slash. *)
Fixpoint endsWithSlash (s : string) : bool :=
  match s with
  | EmptyString => false
  | String c EmptyString => Ascii.eqb c "/"
  | String _ s' => endsWithSlash s'
  end.

(** A syntax tree in which some object literal, reached through object
    properties and array elements, has a spread element. *)
Fixpoint hasSpread (n : Acquirer.node) : bool :=
  match n with
  | Acquirer.ObjectExpression properties =>
      (fix props (ps : list (option (Acquirer.key * Acquirer.node))) : bool :=
         match ps with
         | [] => false
         | None :: _ => true
         | Some (_, v) :: rest => hasSpread v || props rest
         end) properties
  | Acquirer.ArrayExpression elements =>
      (fix elems (es : list (option Acquirer.node)) : bool :=
         match es with
         | [] => false
         | Some n' :: rest => hasSpread n' || elems rest
         | None :: rest => elems rest
         end) elements
  | _ => false
  end.

(** The syntax tree of the literal that writes a value down: objects with
    quoted keys, arrays, and literals.  [undefined] is written as the
    identifier of that name; a negative number is written with a minus
    sign, which makes a unary expression and no literal; a built-in
    object has no literal. *)
Fixpoint quote (v : value) : Acquirer.node :=
  match v with
  | VUndef => Acquirer.Identifier "undefined"
  | VNum n => if (n <? 0)%Z then Acquirer.OtherNode else Acquirer.Literal v
  | VArr xs => Acquirer.ArrayExpression (map (λ x, Some (quote x)) xs)
  | VObj kvs =>
      Acquirer.ObjectExpression
        (map (λ kv, match kv with
                    | (k, x) => Some (Acquirer.KLiteral (VStr k), quote x)
                    end) kvs)
  | VProto _ | VFun _ _ => Acquirer.OtherNode
  | _ => Acquirer.Literal v
  end.

(** Assigning the properties of an object one after the other to an
    empty object. *)
Definition replay (kvs : list (string * value)) : list (string * value) :=
  fold_left (λ obj kv, obj_set obj kv.1 kv.2) kvs [].

(** A document value as JSON gives it: no [undefined] and no built-in
    object anywhere, numbers that are natural and safe integers, and every
    object lists its properties in the order in which an object built by
    assigning them enumerates them (unique keys, none of them
    [__proto__], array-index keys first and ascending). *)
Fixpoint canonical (v : value) : Prop :=
  match v with
  | VUndef | VProto _ | VFun _ _ => False
  | VNum n => (0 ≤ n ≤ MAX_SAFE_INTEGER)%Z
  | VArr xs =>
      (fix all (l : list value) : Prop :=
         match l with
         | [] => True
         | x :: rest => canonical x ∧ all rest
         end) xs
  | VObj kvs =>
      replay kvs = kvs
      ∧ (fix all (l : list (string * value)) : Prop :=
           match l with
           | [] => True
           | (_, x) :: rest => canonical x ∧ all rest
           end) kvs
  | _ => True
  end.

(** The two loops of [astToObject], named. *)
Fixpoint evalProps (obj : list (string * value))
    (ps : list (option (Acquirer.key * Acquirer.node))) : M value :=
  match ps with
  | [] => Ok (VObj obj)
  | None :: _ => Throw TypeError
  | Some (k, v) :: rest =>
      x ← Acquirer.astToObject v;
      evalProps (obj_set obj (Acquirer.keyName k) x) rest
  end.

Fixpoint evalElems (es : list (option Acquirer.node)) : M (list value) :=
  match es with
  | [] => Ok []
  | e :: rest =>
      x ← match e with
          | Some n' => Acquirer.astToObject n'
          | None => Ok VUndef
          end;
      xs ← evalElems rest; Ok (x :: xs)
  end.

End SpecExtra.

(** ** Further inputs used to exercise the theorems *)

Module Fixtures.
Import JS Generator Helpers Assertions.

Definition createSession : Options :=
  {| o_body := VObj [("username", VStr "u")]; o_headers := [];
     o_params := [] |}.

Definition createSessionRequest : Request :=
  {| r_method := "POST"; r_url := "http://localhost:3000/sessions";
     r_params := [];
     r_headers := [("content-type", "application/json")];
     r_payload := Some "[object Object]" |}.

(** Three routes in document order: one ordinary, the session route and
    the user route. *)
Definition threeRoutes : value :=
  VObj [("/items", VObj [("get", VObj [])]);
        ("/sessions", VObj [("post", VObj [])]);
        ("/users", VObj [("post", VObj [])])].

Definition listItems : value :=
  VObj [("requestBody", VNull);
        ("responses", VObj [("200", VObj []); ("404", VObj []); ("500", VObj [])])].

Definition smallDocument : value :=
  VObj [("openapi", VStr "3.0.0");
        ("paths",
         VObj [("/items",
                VObj [("get",
                       VObj [("responses",
                              VObj [("200", VObj [("description", VStr "ok")])])])])]);
        ("servers", VArr [VObj [("url", VStr "http://localhost:3000/")]])].

End Fixtures.

(** ** Concrete environments and inputs used to exercise the theorems *)

Module Examples.
Import JS Generator Helpers.

(** A network on which every connection is refused. *)
Definition unreachable (w : nat) (r : Request) : fetchResult * nat :=
  (Rejected "connect ECONNREFUSED", S w).

(** A server that answers 400 to every POST and 200 to anything else; the
    world counts the requests served. *)
Definition server (w : nat) (r : Request) : fetchResult * nat :=
  (Resolved {| res_status := if String.eqb (r_method r) "POST" then 400 else 200;
               res_isJson := false;
               res_json := inr "Unexpected token";
               res_text := "ok" |},
   S w).

Definition baseUrl : option string := Some "http://localhost:3000".
Definition resolveUrl (path base : string) : option string := Some (base +:+ path).

(** A [Headers] constructor that rejects an empty name and a line break
    inside a value. *)
Fixpoint lineFree (s : string) : bool :=
  match s with
  | EmptyString => true
  | String c s' =>
      negb (Ascii.eqb c (ascii_of_nat 10) || Ascii.eqb c (ascii_of_nat 13))
      && lineFree s'
  end.

Definition acceptHeaders (h : list (string * string)) : bool :=
  forallb (λ kv, negb (String.eqb kv.1 "") && lineFree kv.2) h.
Definition stringify (v : value) : string := ToString v.

(** A document whose [/users] POST declares no conflict response, and one
    whose POST does (the scenario of section 8). *)
Definition usersPost (codes : list string) : value :=
  VObj [("responses", VObj (map (λ code, (code, VObj [])) codes))].

Definition usersPaths (codes : list string) : list (string * value) :=
  [("/users", VObj [("post", usersPost codes)])].

Definition usersDoc (codes : list string) : value :=
  VObj [("paths", VObj (usersPaths codes))].

(** An operation with a request example and a bare 400 response. *)
Definition createItem : value :=
  VObj [("requestBody",
         VObj [("content",
                VObj [("application/json",
                       VObj [("example", VObj [("name", VStr "x")])])])]);
        ("responses", VObj [("400", VObj [])])].

(** A document whose only route is [/items], with that POST operation. *)
Definition itemsDoc : value :=
  VObj [("paths", VObj [("/items", VObj [("post", createItem)])])].

(** An operation whose 200 response carries an example with two fields. *)
Definition readBoth : value :=
  VObj [("responses",
         VObj [("200",
                VObj [("content",
                       VObj [("application/json",
                              VObj [("example",
                                     VObj [("id", VNum 1); ("name", VStr "x")])])])])])].


(** A response whose inline schema has a property with an example. *)
Definition inlineSchema : value :=
  VObj [("schema",
         VObj [("example", VObj [("id", VNum 7)]);
               ("properties", VObj [("id", VObj [("example", VNum 7)])])])].

Definition postSessions : QueuedTest :=
  {| url := "POST /sessions"; auth := false; expStatus := 400;
     qbody := VNull; save := None |}.

Definition getProfile : QueuedTest :=
  {| url := "GET /profile"; auth := true; expStatus := 200;
     qbody := VNull; save := None |}.

Definition getProfile401 : QueuedTest :=
  {| url := "GET /profile"; auth := true; expStatus := 401;
     qbody := VNull; save := None |}.

End Examples.

(** ** Properties of the reference resolver *)

Section ResolveRef.
Import JS Generator Spec.

Lemma append_nil (t : string) : "" +:+ t = t.
Proof. reflexivity. Qed.

Lemma append_cons (c : ascii) (s t : string) :
  String c s +:+ t = String c (s +:+ t).
Proof. reflexivity. Qed.

Lemma append_empty_r (s : string) : s +:+ "" = s.
Proof. induction s as [|c s IH]; [done|]. by rewrite append_cons, IH. Qed.

Lemma append_assoc (a b c : string) : (a +:+ b) +:+ c = a +:+ (b +:+ c).
Proof.
  induction a as [|x a IH]; [done|]. by rewrite !append_cons, IH.
Qed.

Lemma walk_undefined (path : list string) : walk VUndef path = Ok VUndef.
Proof. by destruct path. Qed.

Lemma hasName_elem_of (names : list string) (p : string) :
  hasName names p = true ↔ p ∈ names.
Proof.
  unfold hasName. rewrite existsb_exists. split.
  - intros (q & Hq%list_elem_of_In & ->%String.eqb_eq). done.
  - intros Hp. exists p. split; [by apply list_elem_of_In|apply String.eqb_refl].
Qed.

Lemma hasName_false (names : list string) (p : string) :
  p ∉ names → hasName names p = false.
Proof.
  intros Hp. destruct (hasName names p) eqn:H; [|done].
  by apply hasName_elem_of in H.
Qed.

(** *** Members and own properties *)

Lemma assoc_middle (before after : list (string * value)) (p : string) (x : value) :
  p ∉ before.*1 → assoc p (before ++ (p, x) :: after) = Some x.
Proof.
  induction before as [|[k v] before IH]; cbn.
  - by rewrite String.eqb_refl.
  - intros [Hk Hp]%not_elem_of_cons.
    destruct (String.eqb_spec p k) as [->|_]; [done|]. by apply IH.
Qed.

Lemma child_field_assoc (kvs : list (string * value)) (p : string) (x : value) :
  child (VObj kvs) p x ↔ assoc p kvs = Some x.
Proof.
  split.
  - inversion 1 as [kvs' before after p' x' -> Hp|]; subst.
    by apply assoc_middle.
  - induction kvs as [|[k v] kvs IH]; cbn; [done|].
    destruct (String.eqb_spec p k) as [->|Hk].
    + intros [= ->]. apply (child_field _ [] kvs); [done|]. cbn. apply not_elem_of_nil.
    + intros H. specialize (IH H).
      inversion IH as [kvs' before after p' x' -> Hp|]; subst.
      apply (child_field _ ((k, v) :: before) after); [done|].
      cbn. by apply not_elem_of_cons.
Qed.

Lemma array_index_nat_to_string (i : nat) : array_index (nat_to_string i) = Some i.
Proof.
  unfold array_index, nat_to_string.
  rewrite NilZero.usu.
  - rewrite DecimalNat.Unsigned.of_to. by rewrite String.eqb_refl.
  - intros H. pose proof (DecimalNat.Unsigned.of_to i) as Hi.
    rewrite H in Hi. cbn in Hi. subst i. done.
Qed.

Lemma array_index_spec (p : string) (i : nat) :
  array_index p = Some i → p = nat_to_string i.
Proof.
  unfold array_index. destruct (NilZero.uint_of_string p) as [u|]; [|done].
  destruct (String.eqb_spec (nat_to_string (Nat.of_uint u)) p) as [<-|]; [|done].
  by intros [= <-].
Qed.

Lemma nth_error_lookup {A} (l : list A) (i : nat) : nth_error l i = l !! i.
Proof. revert i. induction l; intros [|i]; cbn; try done. Qed.

Lemma child_element_index (xs : list value) (p : string) (x : value) :
  child (VArr xs) p x ↔ ∃ i, array_index p = Some i ∧ nth_error xs i = Some x.
Proof.
  split.
  - inversion 1 as [|xs' i x' Hx]; subst. exists i.
    split; [apply array_index_nat_to_string|]. by rewrite nth_error_lookup.
  - intros (i & Hi%array_index_spec & Hx). subst p.
    apply child_element. by rewrite <- nth_error_lookup.
Qed.

Lemma length_not_index : array_index "length" = None.
Proof. reflexivity. Qed.

Lemma child_own (v : value) (p : string) (x : value) :
  child v p x → own_prop v p = Some x.
Proof.
  intros H. destruct v as [| | | | |xs|kvs| |]; try by inversion H.
  - apply child_element_index in H as (i & Hi & Hx). cbn.
    destruct (String.eqb_spec p "length") as [->|_]; [done|]. by rewrite Hi.
  - by apply child_field_assoc.
Qed.

Lemma child_get (v : value) (p : string) (x : value) :
  child v p x → truthy v && typeof_object v = true ∧ get v p = Ok x.
Proof.
  intros H. pose proof (child_own _ _ _ H) as Hown.
  split; [by destruct H|].
  unfold get, lookup. rewrite Hown. by destruct H.
Qed.

Lemma proto_own_none (c : class) (p : string) :
  p ∉ methods c → p ≠ "length" → proto_own c p = None.
Proof.
  intros Hm Hl. unfold proto_own. rewrite (hasName_false _ _ Hm).
  by destruct (String.eqb_spec p "length").
Qed.

Lemma proto_own_method (c : class) (p : string) :
  p ∈ methods c → proto_own c p = Some (VFun c p).
Proof.
  intros Hm. unfold proto_own. by apply hasName_elem_of in Hm as ->.
Qed.

Lemma length_no_method : "length" ∉ methods CObject.
Proof. intros H%hasName_elem_of. done. Qed.

Lemma proto_no_method (c : class) : "__proto__" ∉ methods c.
Proof. intros H%hasName_elem_of. by destruct c. Qed.

(** A name that is neither a member nor built in reads as [undefined]. *)
Lemma missing_get (v : value) (p : string) :
  truthy v && typeof_object v = true →
  (∀ x, ¬ child v p x) → ¬ builtinName v p → get v p = Ok VUndef.
Proof.
  intros [Ht Hobj]%andb_true_iff Hchild Hbuiltin.
  destruct v as [| | | | |xs|kvs|c|]; try done; cbn in Hbuiltin.
  - assert (own_prop (VArr xs) p = None) as Hown.
    { cbn. destruct (String.eqb_spec p "length") as [->|_]; [tauto|].
      destruct (array_index p) as [i|] eqn:Hi; [|done].
      destruct (nth_error xs i) as [x|] eqn:Hx; [|done].
      destruct (Hchild x). apply child_element_index. eauto. }
    unfold get, lookup. rewrite Hown. cbn [nullish proto_of].
    destruct (String.eqb_spec p "__proto__") as [->|_]; [tauto|].
    unfold inherited.
    rewrite (proto_own_none CArray), (proto_own_none CObject); tauto.
  - assert (own_prop (VObj kvs) p = None) as Hown.
    { cbn. destruct (assoc p kvs) as [x|] eqn:Hx; [|done].
      destruct (Hchild x). by apply child_field_assoc. }
    unfold get, lookup. rewrite Hown. cbn [nullish proto_of].
    destruct (String.eqb_spec p "__proto__") as [->|_]; [tauto|].
    unfold inherited, proto_own. rewrite hasName_false by tauto.
    by destruct (String.eqb p "length").
Qed.

(** *** Splitting and joining *)

Lemma split_nonempty (sep : ascii) (s : string) : split sep s ≠ [].
Proof.
  induction s as [|c s IH]; [done|]. cbn.
  destruct (Ascii.eqb c sep); [done|]. by destruct (split sep s).
Qed.

Lemma split_app (sep : ascii) (a b : string) :
  split sep (a +:+ String sep b) = split sep a ++ split sep b.
Proof.
  induction a as [|c a IH].
  - rewrite append_nil. cbn. by rewrite Ascii.eqb_refl.
  - rewrite append_cons. cbn [split]. rewrite IH.
    destruct (Ascii.eqb c sep); [done|].
    pose proof (split_nonempty sep a). by destruct (split sep a).
Qed.

Lemma split_segment (s : string) : noSlash s = true → split "/" s = [s].
Proof.
  induction s as [|c s IH]; [done|]. cbn [noSlash split].
  intros [Hc Hs]%andb_true_iff. apply negb_true_iff in Hc. rewrite Hc.
  by rewrite (IH Hs).
Qed.

Lemma split_join (segments : list string) :
  segments ≠ [] → Forall (λ s, noSlash s = true) segments →
  split "/" (join "/" segments) = segments.
Proof.
  induction segments as [|s segments IH]; [done|]. intros _ Hall.
  apply Forall_cons in Hall as [Hs Hall].
  destruct segments as [|s' segments]; [by apply split_segment|].
  change (join "/" (s :: s' :: segments))
    with (s +:+ String "/" (join "/" (s' :: segments))).
  rewrite split_app, (split_segment _ Hs), IH; done.
Qed.

Lemma resolveRef_hash (doc : value) (x : string) :
  resolveRef doc ("#/" +:+ x) = walk doc (split "/" x).
Proof.
  unfold resolveRef, startsWith.
  assert (String.prefix "#/" ("#/" +:+ x) = true) as ->; [|done].
  apply String.prefix_correct. by destruct x.
Qed.

Lemma not_local (ref : string) :
  (∀ rest, ref ≠ "#/" +:+ rest) → startsWith ref "#/" = false.
Proof.
  intros H. unfold startsWith.
  destruct (String.prefix "#/" ref) eqn:E; [|done].
  apply String.prefix_correct in E.
  destruct ref as [|c1 [|c2 rest]]; [done|done|].
  cbn in E. injection E as -> ->. by destruct (H rest).
Qed.

(** *** The walk *)

Lemma walk_app (p1 p2 : list string) :
  ∀ cur, walk cur (p1 ++ p2) = walk cur p1 ≫= λ mid, walk mid p2.
Proof.
  induction p1 as [|p p1 IH]; intros cur; [done|].
  cbn [app walk]. destruct (truthy cur && typeof_object cur).
  - destruct (get cur p) as [next|e]; [|done]. cbn [mbind M_bind]. apply IH.
  - cbn [mbind M_bind]. by rewrite walk_undefined.
Qed.

Lemma walk_total (path : list string) : ∀ cur, ∃ v, walk cur path = Ok v.
Proof.
  induction path as [|p path IH]; intros cur; [by exists cur|].
  cbn [walk]. destruct (truthy cur && typeof_object cur) eqn:Hobj.
  - unfold get. assert (nullish cur = false) as -> by (by destruct cur).
    cbn [mbind M_bind]. apply IH.
  - by exists VUndef.
Qed.

Lemma walk_reaches (path : list string) (cur v : value) :
  reaches cur path v → walk cur path = Ok v.
Proof.
  induction 1 as [|cur p x rest y Hchild _ IH]; [done|].
  cbn [walk]. destruct (child_get _ _ _ Hchild) as [-> ->]. exact IH.
Qed.

Lemma walk_missing (cur : value) (p : string) (rest : list string) :
  (∀ x, ¬ child cur p x) → ¬ builtinName cur p →
  walk cur (p :: rest) = Ok VUndef.
Proof.
  intros Hchild Hbuiltin. cbn [walk].
  destruct (truthy cur && typeof_object cur) eqn:Hobj; [|done].
  rewrite (missing_get _ _ Hobj Hchild Hbuiltin). cbn [mbind M_bind].
  apply walk_undefined.
Qed.

Lemma get_inherited (kvs : list (string * value)) (p : string) :
  (∀ x, ¬ child (VObj kvs) p x) → p ∈ methods CObject →
  get (VObj kvs) p = Ok (VFun CObject p).
Proof.
  intros Hchild Hp. unfold get, lookup. cbn [nullish own_prop proto_of].
  destruct (assoc p kvs) as [x|] eqn:Hx.
  { destruct (Hchild x). by apply child_field_assoc. }
  destruct (String.eqb_spec p "__proto__") as [->|_].
  { by destruct (proto_no_method CObject). }
  unfold inherited. by rewrite (proto_own_method _ _ Hp).
Qed.

(** C6 (as amended).  [resolveRef] never throws.  A reference that does
    not start with [#/] resolves to [undefined].  For one that does, the
    rest is split on [/] and the document is indexed successively: when
    every segment exists the result is the subtree reached; when a segment
    names neither a member of the value at hand nor a built-in property of
    it, or when that value is not an object or array, the result is
    [undefined], whatever the segments after it.  A segment that is
    missing from an object of the document but names a method that every
    object inherits resolves to that built-in function, not to
    [undefined]. *)
Theorem resolveRef_subtree (doc : value) :
  (∀ ref, ∃ v, resolveRef doc ref = Ok v)
  ∧ (∀ ref, (∀ rest, ref ≠ "#/" +:+ rest) → resolveRef doc ref = Ok VUndef)
  ∧ (∀ segments v,
       segments ≠ [] → Forall (λ s, noSlash s = true) segments →
       reaches doc segments v →
       resolveRef doc ("#/" +:+ join "/" segments) = Ok v)
  ∧ (∀ before p after v,
       Forall (λ s, noSlash s = true) (before ++ p :: after) →
       reaches doc before v →
       (∀ x, ¬ child v p x) → ¬ builtinName v p →
       resolveRef doc ("#/" +:+ join "/" (before ++ p :: after)) = Ok VUndef)
  ∧ (∀ before p kvs,
       Forall (λ s, noSlash s = true) (before ++ [p]) →
       reaches doc before (VObj kvs) →
       (∀ x, ¬ child (VObj kvs) p x) → p ∈ methods CObject →
       resolveRef doc ("#/" +:+ join "/" (before ++ [p]))
       = Ok (VFun CObject p)).
Proof.
  split_and!.
  - intros ref. unfold resolveRef.
    destruct (negb (startsWith ref "#/")); [by exists VUndef|].
    apply walk_total.
  - intros ref Href. unfold resolveRef. by rewrite (not_local _ Href).
  - intros segments v Hne Hall Hreach.
    rewrite resolveRef_hash, split_join by done. by apply walk_reaches.
  - intros before p after v Hall Hreach Hchild Hbuiltin.
    rewrite resolveRef_hash, split_join; [|by destruct before|done].
    rewrite walk_app, (walk_reaches _ _ _ Hreach). cbn [mbind M_bind].
    by apply walk_missing.
  - intros before p kvs Hall Hreach Hchild Hp.
    rewrite resolveRef_hash, split_join; [|by destruct before|done].
    rewrite walk_app, (walk_reaches _ _ _ Hreach). cbn [mbind M_bind walk].
    cbn [truthy typeof_object andb].
    by rewrite (get_inherited _ _ Hchild Hp).
Qed.

(** C6 (as stated) fails: the segment [constructor] is missing from the
    document, and the reference resolves to the built-in function, not to
    [undefined]. *)
Lemma resolveRef_inherited_segment :
  let doc := VObj [("components", VObj [("schemas", VObj [])])] in
  (∀ x, ¬ child (VObj [("schemas", VObj [])]) "constructor" x)
  ∧ resolveRef doc "#/components/constructor" = Ok (VFun CObject "constructor")
  ∧ resolveRef doc "#/components/constructor" ≠ Ok VUndef
  ∧ resolveRef doc "#/components/missing" = Ok VUndef.
Proof.
  cbv zeta. split_and!; [|reflexivity|discriminate|reflexivity].
  intros x H%child_field_assoc. discriminate.
Qed.

(** A member of a string is not reached: a string is a leaf of the
    document, although it has a [length]. *)
Example resolveRef_string_leaf :
  resolveRef (VObj [("info", VObj [("title", VStr "API")])]) "#/info/title/length"
  = Ok VUndef
  ∧ resolveRef (VObj [("tags", VArr [VStr "a"; VStr "b"])]) "#/tags/1"
    = Ok (VStr "b")
  ∧ resolveRef (VObj [("tags", VArr [VStr "a"; VStr "b"])]) "#/tags/length"
    = Ok (VNum 2).
Proof. split_and!; reflexivity. Qed.

End ResolveRef.

(** ** Properties of placeholder interpolation *)

Section Interpolation.
Import JS Helpers Spec SpecExtra.

(** A prefix without placeholder is copied, when what follows it cannot
    turn its last dollar sign into one. *)
Lemma replace_plain (f : string → string) (pre rest : string) :
  noToken pre = true →
  match rest with String d _ => isAlpha d = false | EmptyString => True end →
  replaceTokens f None (pre +:+ rest) = pre +:+ replaceTokens f None rest.
Proof.
  intros Hpre Hrest. induction pre as [|c pre IH]; [done|].
  cbn [noToken] in Hpre. apply andb_true_iff in Hpre as [Hc Hpre].
  apply negb_true_iff in Hc.
  rewrite !append_cons. cbn [replaceTokens]. rewrite (IH Hpre).
  destruct (Ascii.eqb c "$"); [|done]. cbn [andb] in Hc.
  destruct pre as [|d pre].
  - rewrite append_nil. destruct rest as [|d rest]; [done|]. by rewrite Hrest.
  - rewrite append_cons. by rewrite Hc.
Qed.

Lemma replace_name (f : string → string) (w : string) :
  ∀ name post,
    allWord w = true → startsWord post = false →
    replaceTokens f (Some name) (w +:+ post)
    = f (name +:+ w) +:+ replaceTokens f None post.
Proof.
  induction w as [|c w IH]; intros name post Hw Hpost.
  - rewrite append_nil, append_empty_r.
    destruct post as [|c post]; cbn [replaceTokens].
    + by rewrite append_empty_r.
    + cbn in Hpost. by rewrite Hpost.
  - cbn [allWord] in Hw. apply andb_true_iff in Hw as [Hc Hw].
    rewrite append_cons. cbn [replaceTokens]. rewrite Hc.
    rewrite (IH _ _ Hw Hpost). by rewrite append_assoc.
Qed.

Lemma replace_token (f : string → string) (name post : string) :
  isName name = true → startsWord post = false →
  replaceTokens f None ("$" +:+ name +:+ post)
  = f name +:+ replaceTokens f None post.
Proof.
  destruct name as [|d w]; [done|]. cbn [isName].
  intros [Hd Hw]%andb_true_iff Hpost.
  rewrite !append_cons, append_nil. cbn [replaceTokens].
  replace (Ascii.eqb "$" "$") with true by reflexivity. rewrite Hd.
  by rewrite (replace_name f w _ _ Hw Hpost).
Qed.

Lemma interpolate_at (ctx : gmap string value) (pre name post : string) :
  noToken pre = true → isName name = true → startsWord post = false →
  interpolate ctx (pre +:+ "$" +:+ name +:+ post)
  = pre +:+ ToString (ctx_get ctx name) +:+ interpolate ctx post.
Proof.
  intros Hpre Hname Hpost. unfold interpolate.
  rewrite (replace_plain _ _ _ Hpre); [|done].
  by rewrite (replace_token _ _ _ Hname Hpost).
Qed.

Lemma prefix_append (p x : string) : String.prefix p (p +:+ x) = true.
Proof.
  induction p as [|c p IH]; [by destruct x|].
  rewrite append_cons. cbn [String.prefix].
  by destruct (ascii_dec c c).
Qed.

(** A name is not [__proto__], which starts with an underscore. *)
Lemma isName_not_proto (name : string) :
  isName name = true → String.eqb name "__proto__" = false.
Proof.
  intros H. destruct (String.eqb_spec name "__proto__") as [->|]; done.
Qed.

Lemma ctx_get_absent (ctx : gmap string value) (name : string) :
  isName name = true → ctx !! name = None →
  ctx_get ctx name
  = if hasName (methods CObject) name then VFun CObject name else VUndef.
Proof.
  intros Hname Hnone. unfold ctx_get, get_opt, lookup. rewrite Hnone.
  cbn [own_prop assoc proto_of]. rewrite (isName_not_proto _ Hname).
  unfold inherited, proto_own.
  destruct (hasName (methods CObject) name); [done|].
  by destruct (String.eqb name "length").
Qed.

(** C1 (as amended). A [$name] token is replaced by the string form of
    [ctx[name]].  When the context holds the name, that is the string
    form of the value it holds (for the values whose conversion the model
    describes: strings, booleans, [null], safe integers, and the arrays
    and plain objects made of them).  When the context does not hold the
    name and the name is none that every object inherits, the replacement
    is the text [undefined], and no error is raised.  When the name is
    one of the inherited methods ([constructor], [toString], ...), the
    replacement is the source text of that built-in function.  Here the
    token is the first of the descriptor (what precedes it holds no
    placeholder) and its name is followed by the end of the string or by
    a character that cannot continue it; the tokens after it are replaced
    in what follows. *)
Theorem interpolate_token (ctx : gmap string value) (pre name post : string) :
  noToken pre = true → isName name = true → startsWord post = false →
  (∀ v, ctx !! name = Some v → convertible v = true →
     interpolate ctx (pre +:+ "$" +:+ name +:+ post)
     = pre +:+ ToString v +:+ interpolate ctx post)
  ∧ (ctx !! name = None → name ∉ methods CObject →
     interpolate ctx (pre +:+ "$" +:+ name +:+ post)
     = pre +:+ "undefined" +:+ interpolate ctx post)
  ∧ (ctx !! name = None → name ∈ methods CObject →
     ∃ text,
       interpolate ctx (pre +:+ "$" +:+ name +:+ post)
       = pre +:+ text +:+ interpolate ctx post
       ∧ String.prefix "function " text = true).
Proof.
  intros Hpre Hname Hpost. rewrite (interpolate_at _ _ _ _ Hpre Hname Hpost).
  split_and!.
  - intros v Hv _. unfold ctx_get. by rewrite Hv.
  - intros Hnone Hm. rewrite (ctx_get_absent _ _ Hname Hnone).
    by rewrite (hasName_false _ _ Hm).
  - intros Hnone Hm. rewrite (ctx_get_absent _ _ Hname Hnone).
    apply hasName_elem_of in Hm as ->. eexists. split; [reflexivity|].
    cbn [ToString]. unfold nativeSource. apply prefix_append.
Qed.

Lemma interpolate_token_witness :
  noToken "GET /users/" = true
  ∧ isName "id" = true
  ∧ startsWord "/posts" = false
  ∧ interpolate {["id" := VStr "42"]} ("GET /users/" +:+ "$" +:+ "id" +:+ "/posts")
    = "GET /users/" +:+ "42" +:+ interpolate {["id" := VStr "42"]} "/posts".
Proof.
  split; [reflexivity|]. split; [reflexivity|]. split; [reflexivity|].
  exact (proj1 (interpolate_token {["id" := VStr "42"]} "GET /users/" "id" "/posts"
                  eq_refl eq_refl eq_refl) (VStr "42") eq_refl eq_refl).
Defined.

(** C1 (as stated) fails: with no [id] in the context the path
    [GET /users/$id] does not stay as it is. *)
Lemma interpolate_unresolved_not_literal :
  interpolate ∅ "GET /users/$id" = "GET /users/undefined"
  ∧ interpolate ∅ "GET /users/$id" ≠ "GET /users/$id".
Proof. split; [reflexivity | discriminate]. Qed.

Example interpolate_resolved :
  interpolate {["id" := VStr "42"]} "GET /users/$id" = "GET /users/42".
Proof. reflexivity. Qed.

(** A name that the context does not hold but every object inherits is
    not replaced by [undefined] either. *)
Example interpolate_inherited :
  interpolate ∅ "GET /users/$constructor"
  = "GET /users/" +:+ nativeSource CObject "constructor".
Proof. reflexivity. Qed.

(** The placeholders of a descriptor are the names the replacement
    callback is called with: the result depends on the callback through
    them only. *)
Lemma replace_ext (f g : string → string) (s : string) :
  ∀ tok,
    (∀ k, k ∈ placeholders tok s → f k = g k) →
    replaceTokens f tok s = replaceTokens g tok s.
Proof.
  assert (∀ n s tok, (String.length s ≤ n)%nat →
            (∀ k, k ∈ placeholders tok s → f k = g k) →
            replaceTokens f tok s = replaceTokens g tok s) as H.
  { clear s. induction n as [|n IH]; intros s tok Hlen Hk.
    - destruct s as [|c s]; [|cbn in Hlen; lia].
      destruct tok as [name|]; [|done]. cbn. apply Hk. cbn. by left.
    - destruct s as [|c s].
      { destruct tok as [name|]; [|done]. cbn. apply Hk. cbn. by left. }
      cbn in Hlen.
      assert (∀ tok', (∀ k, k ∈ placeholders tok' s → f k = g k) →
                replaceTokens f tok' s = replaceTokens g tok' s) as IHs.
      { intros tok'. apply IH. lia. }
      assert ((∀ k, k ∈ (if Ascii.eqb c "$" then
                           match s with
                           | String d s'' =>
                               if isAlpha d
                               then placeholders (Some (String d "")) s''
                               else placeholders None s
                           | EmptyString => placeholders None s
                           end
                         else placeholders None s) → f k = g k) →
              (if Ascii.eqb c "$" then
                 match s with
                 | String d s'' =>
                     if isAlpha d then replaceTokens f (Some (String d "")) s''
                     else String c (replaceTokens f None s)
                 | EmptyString => String c (replaceTokens f None s)
                 end
               else String c (replaceTokens f None s))
              = (if Ascii.eqb c "$" then
                   match s with
                   | String d s'' =>
                       if isAlpha d then replaceTokens g (Some (String d "")) s''
                       else String c (replaceTokens g None s)
                   | EmptyString => String c (replaceTokens g None s)
                   end
                 else String c (replaceTokens g None s))) as Hafter.
      { intros Ha. destruct (Ascii.eqb c "$"); [|by rewrite IHs].
        destruct s as [|d s'']; [by rewrite IHs|].
        destruct (isAlpha d); [|by rewrite IHs].
        apply IH; [cbn in Hlen; lia|done]. }
      destruct tok as [name|]; cbn [replaceTokens placeholders] in Hk |- *.
      + destruct (isWord c); [by apply IHs|].
        rewrite (Hk name) by (by left). f_equal.
        apply Hafter. intros k Hin. apply Hk. by right.
      + by apply Hafter. }
  intros tok. by apply (H (String.length s)).
Qed.

End Interpolation.

(** ** Properties of the request helper and of the queue runner *)

Section EngineProperties.
Import JS Helpers Spec.

Context {World : Type}.
Context (fetch : World → Request → fetchResult * World).
Context (BASE_URL : option string).
Context (URL : string → string → option string).
Context (validHeaders : list (string * string) → bool).
Context (JSON_stringify : value → string).

Abbreviation req := (Helpers.req World fetch BASE_URL URL validHeaders JSON_stringify).
Abbreviation runQueuedTests :=
  (Helpers.runQueuedTests World fetch BASE_URL URL validHeaders JSON_stringify).

(** C10. A descriptor whose method or path part is empty is answered
    with status 0 and the body [Invalid methodPath: ...]; nothing is
    thrown, nothing is dispatched and the world is left as it was. *)
Theorem req_invalid_descriptor (w : World) (methodPath : string) (opts : Options) :
  methodOf methodPath = "" ∨ pathOf methodPath = "" →
  req w methodPath opts
  = (Ok {| status := 0; body := VStr ("Invalid methodPath: " +:+ methodPath) |},
     w, []).
Proof.
  intros H. unfold Helpers.req.
  destruct H as [-> | ->]; [done|]. by rewrite orb_true_r.
Qed.

Lemma split_no_separator (sep : ascii) (s : string) :
  (∀ c, c ∈ list_ascii_of_string s → c ≠ sep) → split sep s = [s].
Proof.
  induction s as [|c s IH]; intros H; [done|]. cbn [split].
  destruct (Ascii.eqb_spec c sep) as [->|_].
  - exfalso. apply (H sep); [|done]. cbn. by left.
  - rewrite IH; [done|]. intros x Hx. apply H. cbn. by right.
Qed.

(** A descriptor without a space has no path part. *)
Lemma pathOf_no_space (methodPath : string) :
  (∀ c, c ∈ list_ascii_of_string methodPath → c ≠ " "%char) →
  pathOf methodPath = "".
Proof. intros H. unfold pathOf. by rewrite (split_no_separator _ _ H). Qed.

Lemma req_sent (w : World) (methodPath : string) (opts : Options) (r : Request) :
  r ∈ (req w methodPath opts).2 → (req w methodPath opts).2 = [r].
Proof.
  unfold Helpers.req.
  destruct (_ || _); [by intros ?%elem_of_nil|].
  destruct BASE_URL; [|by intros ?%elem_of_nil].
  destruct (URL _ _); [|by intros ?%elem_of_nil].
  destruct (validHeaders _); cbn [negb]; [|by intros ?%elem_of_nil].
  match goal with |- context [fetch w ?q] => set (request := q) end.
  destruct (fetch w request) as [[msg|res] w'];
    [|destruct (res_isJson res); [destruct (res_json res)|]];
    cbn; by intros ->%list_elem_of_singleton.
Qed.

Lemma req_rejected (w : World) (methodPath : string) (opts : Options)
    (r : Request) (message : string) :
  r ∈ (req w methodPath opts).2 →
  (fetch w r).1 = Rejected message →
  (req w methodPath opts).1.1 = Ok {| status := 0; body := VStr message |}.
Proof.
  unfold Helpers.req.
  destruct (_ || _); [by intros ?%elem_of_nil|].
  destruct BASE_URL; [|by intros ?%elem_of_nil].
  destruct (URL _ _); [|by intros ?%elem_of_nil].
  destruct (validHeaders _); cbn [negb]; [|by intros ?%elem_of_nil].
  match goal with |- context [fetch w ?q] => set (request := q) end.
  destruct (fetch w request) as [[msg|res] w'] eqn:Hf;
    [|destruct (res_isJson res); [destruct (res_json res)|]];
    cbn; intros ->%list_elem_of_singleton; rewrite Hf; cbn; congruence.
Qed.

(** *** One iteration of the loop of [runQueuedTests] *)

Lemma run_throw (w w' : World) ctx c rest e sent :
  req w (interpolate ctx (url c)) (caseOptions c ctx) = (Throw e, w', sent) →
  runQueuedTests w ctx (c :: rest)
  = {| result := Uncaught e; world := w'; context := ctx;
       log := Testing c :: map Dispatched sent |}.
Proof. intros H. cbn [Helpers.runQueuedTests]. by rewrite H. Qed.

Lemma run_mismatch (w w' : World) ctx c rest res sent :
  req w (interpolate ctx (url c)) (caseOptions c ctx) = (Ok res, w', sent) →
  status res ≠ expStatus c →
  runQueuedTests w ctx (c :: rest)
  = {| result := Exit1; world := w'; context := ctx;
       log := Testing c :: map Dispatched sent ++ [Fail c (status res)] |}.
Proof.
  intros H Hne. cbn [Helpers.runQueuedTests]. rewrite H.
  by apply Z.eqb_neq in Hne as ->.
Qed.

Lemma run_match (w w' : World) ctx c rest res sent :
  req w (interpolate ctx (url c)) (caseOptions c ctx) = (Ok res, w', sent) →
  status res = expStatus c →
  runQueuedTests w ctx (c :: rest)
  = match save c with
    | Some callback =>
        match callback res ctx with
        | Ok ctx' =>
            logged World (Testing c :: map Dispatched sent ++ [Pass c])
                   (runQueuedTests w' ctx' rest)
        | Throw e =>
            {| result := Uncaught e; world := w'; context := ctx;
               log := Testing c :: map Dispatched sent ++ [Pass c] |}
        end
    | None =>
        logged World (Testing c :: map Dispatched sent ++ [Pass c])
               (runQueuedTests w' ctx rest)
    end.
Proof.
  intros H He. cbn [Helpers.runQueuedTests]. rewrite H.
  by apply Z.eqb_eq in He as ->.
Qed.

Lemma executed_events (c : QueuedTest) (sent : list Request) (tail : list event) :
  omap (λ e, match e with Testing c => Some c | _ => None end)
       (Testing c :: map Dispatched sent ++ tail)
  = c :: omap (λ e, match e with Testing c => Some c | _ => None end) tail.
Proof.
  cbn. f_equal. induction sent as [|q sent IH]; cbn; [done|apply IH].
Qed.

Lemma executed_logged (c : QueuedTest) (sent : list Request) (r : run World) :
  executed World (logged World (Testing c :: map Dispatched sent ++ [Pass c]) r)
  = c :: executed World r.
Proof.
  unfold executed, logged. cbn [log].
  change ((Testing c :: map Dispatched sent ++ [Pass c]) ++ log World r)
    with (Testing c :: (map Dispatched sent ++ [Pass c]) ++ log World r).
  rewrite <- app_assoc. by rewrite executed_events.
Qed.

Lemma dispatched_events (c : QueuedTest) (sent : list Request) (tail : list event) :
  omap (λ e, match e with Dispatched q => Some q | _ => None end)
       (Testing c :: map Dispatched sent ++ tail)
  = sent ++ omap (λ e, match e with Dispatched q => Some q | _ => None end) tail.
Proof.
  cbn. induction sent as [|q sent IH]; cbn; [done|by rewrite IH].
Qed.

Lemma pass_logged (c c' : QueuedTest) (sent : list Request) (r : run World) :
  c' = c ∨ Pass c' ∈ log World r →
  Pass c' ∈ log World (logged World (Testing c :: map Dispatched sent ++ [Pass c]) r).
Proof.
  unfold logged. cbn [log]. intros [->|H].
  - apply elem_of_app. left. right. apply elem_of_app. right. by left.
  - apply elem_of_app. by right.
Qed.

(** The queue holds the cases in the order in which [t] registered them. *)
Lemma enqueue_order (cases : list QueuedTest) :
  fold_left t cases [] = cases.
Proof.
  assert (∀ queued, fold_left t cases queued = queued ++ cases) as H.
  { induction cases as [|c cases IH]; intros queued; cbn.
    - by rewrite app_nil_r.
    - unfold t at 2. by rewrite IH, <- app_assoc. }
  apply H.
Qed.

(** C7. The cases run in enqueue order: the cases started are a prefix of
    the queue.  When the loop finishes every case was started and passed;
    when it halts on a mismatch the cases before the failing one passed,
    the failing case is the last one started, its FAIL line closes the
    log, and nothing after it ran.  On a match the callback (when there is
    one) is applied to the context and the run goes on with the rest of
    the queue in the context it returned. *)
Theorem run_fifo_fail_fast (w : World) (ctx : gmap string value)
    (queue : list QueuedTest) :
  let r := runQueuedTests w ctx queue in
  executed World r `prefix_of` queue
  ∧ (result World r = Exit0 →
       executed World r = queue ∧ ∀ c, c ∈ queue → Pass c ∈ log World r)
  ∧ (result World r = Exit1 →
       ∃ passed c rest got,
         queue = passed ++ c :: rest
         ∧ executed World r = passed ++ [c]
         ∧ last (log World r) = Some (Fail c got)
         ∧ got ≠ expStatus c
         ∧ ∀ c', c' ∈ passed → Pass c' ∈ log World r)
  ∧ (∀ c rest res w' sent,
       queue = c :: rest →
       req w (interpolate ctx (url c)) (caseOptions c ctx) = (Ok res, w', sent) →
       (status res = expStatus c →
        ∀ callback ctx', save c = Some callback → callback res ctx = Ok ctx' →
          r = logged World (Testing c :: map Dispatched sent ++ [Pass c])
                     (runQueuedTests w' ctx' rest))
       ∧ (status res = expStatus c → save c = None →
          r = logged World (Testing c :: map Dispatched sent ++ [Pass c])
                     (runQueuedTests w' ctx rest))
       ∧ (status res ≠ expStatus c →
          r = {| result := Exit1; world := w'; context := ctx;
                 log := Testing c :: map Dispatched sent
                        ++ [Fail c (status res)] |})).
Proof.
  cbv zeta. split_and!.
  - revert w ctx. induction queue as [|c rest IH]; intros w ctx; [done|].
    destruct (req w (interpolate ctx (url c)) (caseOptions c ctx))
      as [[[res|e] w'] sent] eqn:Hreq.
    + destruct (decide (status res = expStatus c)) as [He|Hne].
      * rewrite (run_match _ _ _ _ _ _ _ Hreq He).
        destruct (save c) as [f|]; [destruct (f res ctx) as [ctx'|e]|].
        -- rewrite executed_logged. apply prefix_cons, IH.
        -- unfold executed. cbn [log]. rewrite executed_events. cbn.
           apply prefix_cons, prefix_nil.
        -- rewrite executed_logged. apply prefix_cons, IH.
      * rewrite (run_mismatch _ _ _ _ _ _ _ Hreq Hne).
        unfold executed. cbn [log]. rewrite executed_events. cbn.
        apply prefix_cons, prefix_nil.
    + rewrite (run_throw _ _ _ _ _ _ _ Hreq).
      unfold executed. cbn [log].
      rewrite <- (app_nil_r (map Dispatched sent)), executed_events. cbn.
      apply prefix_cons, prefix_nil.
  - revert w ctx. induction queue as [|c rest IH]; intros w ctx.
    { intros _. split; [done|]. by intros c ?%elem_of_nil. }
    destruct (req w (interpolate ctx (url c)) (caseOptions c ctx))
      as [[[res|e] w'] sent] eqn:Hreq.
    + destruct (decide (status res = expStatus c)) as [He|Hne].
      * rewrite (run_match _ _ _ _ _ _ _ Hreq He).
        destruct (save c) as [f|]; [destruct (f res ctx) as [ctx'|e]|];
          [|done|]; intros Hr.
        -- destruct (IH w' ctx' Hr) as [Hex Hpass]. split.
           ++ by rewrite executed_logged, Hex.
           ++ intros c' [->|Hc']%elem_of_cons; apply pass_logged; auto.
        -- destruct (IH w' ctx Hr) as [Hex Hpass]. split.
           ++ by rewrite executed_logged, Hex.
           ++ intros c' [->|Hc']%elem_of_cons; apply pass_logged; auto.
      * by rewrite (run_mismatch _ _ _ _ _ _ _ Hreq Hne).
    + by rewrite (run_throw _ _ _ _ _ _ _ Hreq).
  - revert w ctx. induction queue as [|c rest IH]; intros w ctx; [done|].
    destruct (req w (interpolate ctx (url c)) (caseOptions c ctx))
      as [[[res|e] w'] sent] eqn:Hreq.
    + destruct (decide (status res = expStatus c)) as [He|Hne].
      * rewrite (run_match _ _ _ _ _ _ _ Hreq He).
        assert (∀ ctx', result World (runQueuedTests w' ctx' rest) = Exit1 →
          ∃ passed c0 rest0 got,
            c :: rest = passed ++ c0 :: rest0
            ∧ executed World
                (logged World (Testing c :: map Dispatched sent ++ [Pass c])
                        (runQueuedTests w' ctx' rest)) = passed ++ [c0]
            ∧ last (log World
                (logged World (Testing c :: map Dispatched sent ++ [Pass c])
                        (runQueuedTests w' ctx' rest))) = Some (Fail c0 got)
            ∧ got ≠ expStatus c0
            ∧ ∀ c', c' ∈ passed →
                Pass c' ∈ log World
                  (logged World (Testing c :: map Dispatched sent ++ [Pass c])
                          (runQueuedTests w' ctx' rest))) as Hstep.
        { intros ctx' Hr.
          destruct (IH w' ctx' Hr) as (passed & c0 & rest0 & got & Hq & Hex & Hlast & Hgot & Hpass).
          exists (c :: passed), c0, rest0, got. split_and!.
          - by rewrite Hq.
          - by rewrite executed_logged, Hex.
          - unfold logged. cbn [log]. by apply last_app_Some; left.
          - done.
          - intros c' [->|Hc']%elem_of_cons; apply pass_logged; auto. }
        destruct (save c) as [f|]; [destruct (f res ctx) as [ctx'|e]|];
          [|done|]; intros Hr; by apply Hstep.
      * rewrite (run_mismatch _ _ _ _ _ _ _ Hreq Hne). intros _.
        exists [], c, rest, (status res). split_and!; [done| |  |done|].
        -- unfold executed. cbn [log]. by rewrite executed_events.
        -- cbn [log]. rewrite app_comm_cons. apply last_snoc.
        -- by intros c' ?%elem_of_nil.
    + by rewrite (run_throw _ _ _ _ _ _ _ Hreq).
  - intros c rest res w' sent -> Hreq. split_and!.
    + intros He f ctx' Hsave Hf.
      rewrite (run_match _ _ _ _ _ _ _ Hreq He), Hsave. by rewrite Hf.
    + intros He Hsave.
      by rewrite (run_match _ _ _ _ _ _ _ Hreq He), Hsave.
    + intros Hne. by rewrite (run_mismatch _ _ _ _ _ _ _ Hreq Hne).
Qed.

(** C8. When the request that [req] dispatches is rejected by the network,
    [req] does not throw: it returns status 0 with the error message as
    body.  In the runner such a case is then judged by the status
    comparison alone: it fails when the expected status is not 0 and
    passes when it is. *)
Theorem transport_failure_is_status_0 (w : World) (methodPath : string)
    (opts : Options) (r : Request) (message : string) :
  r ∈ (req w methodPath opts).2 →
  (fetch w r).1 = Rejected message →
  (req w methodPath opts).1.1 = Ok {| status := 0; body := VStr message |}
  ∧ ∀ ctx c rest,
      methodPath = interpolate ctx (url c) → opts = caseOptions c ctx →
      (expStatus c ≠ 0 →
         result World (runQueuedTests w ctx (c :: rest)) = Exit1
         ∧ last (log World (runQueuedTests w ctx (c :: rest))) = Some (Fail c 0))
      ∧ (expStatus c = 0 →
         Pass c ∈ log World (runQueuedTests w ctx (c :: rest))).
Proof.
  intros Hr Hfetch. pose proof (req_rejected _ _ _ _ _ Hr Hfetch) as Hres.
  split; [done|]. intros ctx c rest -> ->.
  destruct (req w (interpolate ctx (url c)) (caseOptions c ctx))
    as [[res0 w'] sent] eqn:Hreq.
  cbn in Hres. subst res0. split.
  - intros Hne.
    rewrite (run_mismatch _ _ _ _ _ _ _ Hreq); [|by cbn].
    split; [done|]. cbn [log status]. rewrite app_comm_cons. apply last_snoc.
  - intros He.
    rewrite (run_match _ _ _ _ _ _ _ Hreq); [|by cbn].
    destruct (save c) as [f|]; [destruct (f _ ctx) as [ctx'|e]|].
    + apply pass_logged. by left.
    + cbn [log]. right. apply elem_of_app. right. by left.
    + apply pass_logged. by left.
Qed.

Lemma req_headers (w : World) (methodPath : string) (opts : Options) (r : Request) :
  r ∈ (req w methodPath opts).2 →
  r_headers r = o_headers opts
  ∨ r_headers r = o_headers opts ++ [("content-type", "application/json")].
Proof.
  unfold Helpers.req.
  destruct (_ || _); [by intros ?%elem_of_nil|].
  destruct BASE_URL; [|by intros ?%elem_of_nil].
  destruct (URL _ _); [|by intros ?%elem_of_nil].
  destruct (validHeaders _); cbn [negb]; [|by intros ?%elem_of_nil].
  match goal with |- context [fetch w ?q] => set (request := q) end.
  assert (r_headers request = o_headers opts
          ∨ r_headers request = o_headers opts ++ [("content-type", "application/json")])
    as Hh.
  { subst request. cbn [r_headers]. destruct (_ && negb _); auto. }
  destruct (fetch w request) as [[msg|res] w'];
    [|destruct (res_isJson res); [destruct (res_json res)|]];
    cbn; by intros ->%list_elem_of_singleton.
Qed.

Lemma dispatched_single (w : World) (ctx : gmap string value) (c : QueuedTest) :
  dispatched World (runQueuedTests w ctx [c])
  = (req w (interpolate ctx (url c)) (caseOptions c ctx)).2.
Proof.
  destruct (req w (interpolate ctx (url c)) (caseOptions c ctx))
    as [[[res|e] w'] sent] eqn:Hreq; cbn [snd].
  - destruct (decide (status res = expStatus c)) as [He|Hne].
    + rewrite (run_match _ _ _ _ _ _ _ Hreq He).
      destruct (save c) as [f|]; [destruct (f res ctx) as [ctx'|e]|];
        unfold dispatched, logged; cbn [log Helpers.runQueuedTests];
        rewrite ?app_nil_r, dispatched_events; cbn; by rewrite app_nil_r.
    + rewrite (run_mismatch _ _ _ _ _ _ _ Hreq Hne).
      unfold dispatched. cbn [log]. rewrite dispatched_events. cbn.
      by rewrite app_nil_r.
  - rewrite (run_throw _ _ _ _ _ _ _ Hreq).
    unfold dispatched. cbn [log].
    rewrite <- (app_nil_r (map Dispatched sent)), dispatched_events. cbn.
    by rewrite app_nil_r.
Qed.

Lemma dispatched_logged (c c' : QueuedTest) (sent : list Request) (r : run World) :
  dispatched World (logged World (Testing c :: map Dispatched sent ++ [Pass c']) r)
  = sent ++ dispatched World r.
Proof.
  unfold dispatched, logged. cbn [log].
  change ((Testing c :: map Dispatched sent ++ [Pass c']) ++ log World r)
    with (Testing c :: (map Dispatched sent ++ [Pass c']) ++ log World r).
  rewrite <- app_assoc. by rewrite dispatched_events.
Qed.

Lemma authHeaders_no_token (b : bool) (ctx : gmap string value) :
  truthy (ctx_get ctx "token") = false → authHeaders b ctx = [].
Proof. intros H. unfold authHeaders. by rewrite H, andb_false_r. Qed.

Lemma hasHeader_app (name : string) (h1 h2 : list (string * string)) :
  hasHeader name (h1 ++ h2) = hasHeader name h1 || hasHeader name h2.
Proof. apply existsb_app. Qed.

Lemma run_single (w : World) (ctx : gmap string value) (c : QueuedTest) :
  dispatched World (runQueuedTests w ctx [c])
  = (req w (interpolate ctx (url c)) (caseOptions c ctx)).2.
Proof. apply dispatched_single. Qed.

Lemma req_dispatches (w : World) (methodPath : string) (opts : Options)
    (baseUrl u : string) :
  methodOf methodPath ≠ "" → pathOf methodPath ≠ "" →
  BASE_URL = Some baseUrl → URL (pathOf methodPath) baseUrl = Some u →
  validHeaders (o_headers opts) = true →
  ∃ r, (req w methodPath opts).2 = [r]
       ∧ r_method r = methodOf methodPath ∧ r_url r = u.
Proof.
  intros Hm Hp Hbase Hurl Hvalid. unfold Helpers.req.
  apply String.eqb_neq in Hm as ->. apply String.eqb_neq in Hp as ->.
  cbn [orb]. rewrite Hbase, Hurl, Hvalid. cbn [negb].
  match goal with |- context [fetch w ?q] => set (request := q) end.
  exists request.
  destruct (fetch w request) as [[msg|res] w'];
    [|destruct (res_isJson res); [destruct (res_json res)|]]; done.
Qed.

Lemma req_rejects_headers (w : World) (methodPath : string) (opts : Options)
    (baseUrl u : string) :
  methodOf methodPath ≠ "" → pathOf methodPath ≠ "" →
  BASE_URL = Some baseUrl → URL (pathOf methodPath) baseUrl = Some u →
  validHeaders (o_headers opts) = false →
  req w methodPath opts = (Throw TypeError, w, []).
Proof.
  intros Hm Hp Hbase Hurl Hvalid. unfold Helpers.req.
  apply String.eqb_neq in Hm as ->. apply String.eqb_neq in Hp as ->.
  cbn [orb]. by rewrite Hbase, Hurl, Hvalid.
Qed.

(** C5 (as amended). A case that asks for authentication hands [req] the
    header [Authorization: Bearer] followed by the token exactly when
    [ctx.token] is truthy (a token that is absent, or that is set to an
    empty string, to zero, to [null] or to [false], is not sent), and no
    other header.  The requests of the case are those of that call: they
    carry the header in the first case and no [Authorization] header in
    the second, and a request is indeed sent as soon as the descriptor
    has a method and a path, [BASE_URL] is defined, the URL can be built
    and the [Headers] constructor accepts the header (when it rejects the
    token, [req] throws and nothing is sent).  Without a token the case
    is judged as the same case declared without authentication: same
    requests, same verdict.  The values that the context gives to the
    token and to the placeholders of the descriptor are those whose
    string form the model describes. *)
Theorem auth_header_iff_token (w : World) (ctx : gmap string value)
    (c : QueuedTest) :
  auth c = true →
  convertible (ctx_get ctx "token") = true →
  rendered ctx (url c) →
  let token := ctx_get ctx "token" in
  let bearer := ("Authorization", "Bearer " +:+ ToString token) in
  let path := interpolate ctx (url c) in
  caseOptions c ctx
  = {| o_body := qbody c;
       o_headers := if truthy token then [bearer] else [];
       o_params := [] |}
  ∧ dispatched World (runQueuedTests w ctx [c])
    = (req w path (caseOptions c ctx)).2
  ∧ (∀ r, r ∈ dispatched World (runQueuedTests w ctx [c]) →
       hasHeader "Authorization" (r_headers r) = truthy token
       ∧ (truthy token = true → bearer ∈ r_headers r)
       ∧ (∀ x, x ∈ r_headers r →
            (truthy token = true ∧ x = bearer)
            ∨ x = ("content-type", "application/json")))
  ∧ (∀ baseUrl u,
       methodOf path ≠ "" → pathOf path ≠ "" →
       BASE_URL = Some baseUrl → URL (pathOf path) baseUrl = Some u →
       (validHeaders (o_headers (caseOptions c ctx)) = true →
        ∃ r, dispatched World (runQueuedTests w ctx [c]) = [r]
             ∧ r_method r = methodOf path ∧ r_url r = u)
       ∧ (validHeaders (o_headers (caseOptions c ctx)) = false →
          ∀ rest,
            runQueuedTests w ctx (c :: rest)
            = {| result := Uncaught TypeError; world := w; context := ctx;
                 log := [Testing c] |}))
  ∧ (truthy token = false →
     ∀ rest,
       result World (runQueuedTests w ctx (c :: rest))
       = result World (runQueuedTests w ctx (unauthenticated c :: rest))
       ∧ world World (runQueuedTests w ctx (c :: rest))
         = world World (runQueuedTests w ctx (unauthenticated c :: rest))
       ∧ context World (runQueuedTests w ctx (c :: rest))
         = context World (runQueuedTests w ctx (unauthenticated c :: rest))
       ∧ dispatched World (runQueuedTests w ctx (c :: rest))
         = dispatched World (runQueuedTests w ctx (unauthenticated c :: rest))).
Proof.
  intros Hauth _ _. cbv zeta.
  assert (caseOptions c ctx
          = {| o_body := qbody c;
               o_headers := if truthy (ctx_get ctx "token")
                            then [("Authorization",
                                   "Bearer " +:+ ToString (ctx_get ctx "token"))]
                            else [];
               o_params := [] |}) as Hopts.
  { unfold caseOptions, authHeaders. by rewrite Hauth. }
  split; [exact Hopts|]. split; [apply run_single|]. split_and!.
  - intros r. rewrite run_single. intros Hr.
    pose proof (req_headers _ _ _ _ Hr) as Hh. rewrite Hopts in Hh.
    cbn [o_headers] in Hh.
    destruct (truthy (ctx_get ctx "token")).
    + destruct Hh as [-> | ->].
      * split_and!; [done|by left|].
        intros x ->%list_elem_of_singleton. by left.
      * split_and!; [done|by left|].
        intros x [->|Hx]%elem_of_cons; [by left|].
        apply list_elem_of_singleton in Hx as ->. by right.
    + destruct Hh as [-> | ->].
      * split_and!; [done|done|]. by intros x ?%elem_of_nil.
      * split_and!; [done|done|].
        intros x ->%list_elem_of_singleton. by right.
  - intros baseUrl u Hm Hp Hbase Hurl. split.
    + intros Hvalid. rewrite run_single.
      by apply (req_dispatches _ _ _ baseUrl u).
    + intros Hvalid rest.
      by rewrite (run_throw _ _ _ _ _ _ _
                    (req_rejects_headers _ _ _ baseUrl u Hm Hp Hbase Hurl Hvalid)).
  - intros Htok rest.
    assert (caseOptions (unauthenticated c) ctx = caseOptions c ctx) as Hsame.
    { unfold caseOptions. cbn. by rewrite authHeaders_no_token. }
    cbn [Helpers.runQueuedTests]. rewrite Hsame.
    cbn [unauthenticated url expStatus save].
    destruct (req w (interpolate ctx (url c)) (caseOptions c ctx))
      as [[[res|e] w'] sent].
    + destruct (status res =? expStatus c)%Z.
      * destruct (save c) as [f|]; [destruct (f res ctx) as [ctx'|e]|].
        -- by rewrite !dispatched_logged.
        -- unfold dispatched. cbn [result world context log].
           by rewrite !dispatched_events.
        -- by rewrite !dispatched_logged.
      * unfold dispatched. cbn [result world context log].
        by rewrite !dispatched_events.
    + unfold dispatched. cbn [result world context log]. by split_and!.
Qed.

End EngineProperties.


(** ** Properties of the status-code ordering *)

Section StatusCodes.
Import JS Generator Spec.

Lemma insert_sorted_perm {A} (cmp : A → A → option Z) (x : A) (l : list A) :
  insert_sorted cmp x l ≡ₚ x :: l.
Proof.
  induction l as [|y l IH]; cbn; [done|].
  destruct (cmp_le (cmp x y)); [done|].
  rewrite IH. apply Permutation_swap.
Qed.

Lemma sort_perm {A} (cmp : A → A → option Z) (l : list A) : sort cmp l ≡ₚ l.
Proof.
  induction l as [|x l IH]; cbn; [done|].
  by rewrite insert_sorted_perm, IH.
Qed.

Lemma isNeg_inErrorRange (code : string) :
  isNeg (parseInt code) = inErrorRange code.
Proof.
  unfold inErrorRange, numeric, codeValue.
  destruct (parseInt code) as [n|].
  - rewrite bool_decide_eq_true_2; [done|by eexists].
  - rewrite bool_decide_eq_false_2; [done|by intros [? ?]].
Qed.

Lemma inErrorRange_numeric (code : string) :
  inErrorRange code = true → numeric code.
Proof.
  unfold inErrorRange. intros [[H _]%andb_true_iff _]%andb_true_iff.
  by apply bool_decide_eq_true in H.
Qed.

(** The comparator agrees with the rule, whatever the codes. *)
Lemma compareCodes_le (a b : string) :
  cmp_le (compareCodes a b) = true → precedes a b.
Proof.
  unfold compareCodes, precedes, numeric.
  rewrite !isNeg_inErrorRange. unfold codeValue.
  destruct (inErrorRange a), (inErrorRange b); cbn; try done; auto.
  - destruct (parseInt a) as [x|], (parseInt b) as [y|]; cbn.
    + intros H%Z.leb_le. right. split; [done|]. intros _ _. lia.
    + intros _. right. split; [done|]. by intros _ [? ?].
    + intros _. right. split; [done|]. by intros [? ?].
    + intros _. right. split; [done|]. by intros [? ?].
  - destruct (parseInt a) as [x|], (parseInt b) as [y|]; cbn.
    + intros H%Z.leb_le. right. split; [done|]. intros _ _. lia.
    + intros _. right. split; [done|]. by intros _ [? ?].
    + intros _. right. split; [done|]. by intros [? ?].
    + intros _. right. split; [done|]. by intros [? ?].
Qed.

Lemma compareCodes_gt (a b : string) :
  cmp_le (compareCodes a b) = false → precedes b a.
Proof.
  unfold compareCodes, precedes, numeric.
  rewrite !isNeg_inErrorRange. unfold codeValue.
  destruct (inErrorRange a), (inErrorRange b); cbn; try done; auto.
  - destruct (parseInt a) as [x|], (parseInt b) as [y|]; cbn; try done.
    intros H%Z.leb_gt. right. split; [done|]. intros _ _. lia.
  - destruct (parseInt a) as [x|], (parseInt b) as [y|]; cbn; try done.
    intros H%Z.leb_gt. right. split; [done|]. intros _ _. lia.
Qed.

(** On the codes of an orderable group the rule is transitive. *)
Lemma precedes_trans (codes : list string) (a b c : string) :
  orderable codes → a ∈ codes → b ∈ codes → c ∈ codes →
  precedes a b → precedes b c → precedes a c.
Proof.
  intros Hord Ha Hb Hc Hab Hbc. unfold precedes in *.
  destruct (inErrorRange a) eqn:Ea, (inErrorRange b) eqn:Eb,
           (inErrorRange c) eqn:Ec;
    destruct Hab as [[? ?]|[? Hab]], Hbc as [[? ?]|[? Hbc]];
    try done; auto.
  - right. split; [done|]. intros Hna Hnc.
    pose proof (inErrorRange_numeric _ Eb) as Hnb.
    specialize (Hab Hna Hnb). specialize (Hbc Hnb Hnc). lia.
  - right. split; [done|]. intros Hna Hnc.
    destruct Hord as [Hall|Hsame].
    + assert (numeric b) as Hnb by (by eapply Forall_forall in Hall).
      specialize (Hab Hna Hnb). specialize (Hbc Hnb Hnc). lia.
    + by rewrite (Hsame a c).
Qed.

Lemma insert_sorted_strongly (codes : list string) (x : string) (l : list string) :
  orderable codes → x ∈ codes → Forall (λ y, y ∈ codes) l →
  StronglySorted precedes l →
  StronglySorted precedes (insert_sorted compareCodes x l).
Proof.
  intros Hord Hx Hl Hs. induction l as [|y l IH]; cbn.
  - by repeat constructor.
  - apply Forall_cons in Hl as [Hy Hl].
    apply StronglySorted_cons in Hs as [Hyl Hs].
    destruct (cmp_le (compareCodes x y)) eqn:Hc.
    + pose proof (compareCodes_le _ _ Hc) as Hxy.
      apply StronglySorted_cons. split.
      * constructor; [done|].
        apply Forall_forall. intros z Hz.
        apply (precedes_trans codes x y z); try done.
        -- by eapply Forall_forall in Hl.
        -- by eapply Forall_forall in Hyl.
      * by apply StronglySorted_cons.
    + pose proof (compareCodes_gt _ _ Hc) as Hyx.
      apply StronglySorted_cons. split; [|by apply IH].
      rewrite insert_sorted_perm. by constructor.
Qed.

Lemma sort_strongly (codes l : list string) :
  orderable codes → Forall (λ y, y ∈ codes) l →
  StronglySorted precedes (sort compareCodes l).
Proof.
  intros Hord. induction l as [|x l IH]; intros H; cbn; [constructor|].
  apply Forall_cons in H as [Hx Hl].
  apply (insert_sorted_strongly codes); [done|done| |by apply IH].
  by rewrite sort_perm.
Qed.

Lemma sortStatusCodes_sorted (statusCodes : list string) :
  orderable statusCodes →
  StronglySorted precedes (sortStatusCodes statusCodes).
Proof.
  intros Hord. apply (sort_strongly statusCodes); [done|].
  by apply Forall_forall.
Qed.

Lemma filter_strongly_sorted {A} (R : A → A → Prop) (P : A → Prop)
    `{!∀ x, Decision (P x)} (l : list A) :
  StronglySorted R l → StronglySorted R (filter P l).
Proof.
  induction l as [|x l IH]; [done|].
  intros [Hx Hs]%StronglySorted_cons.
  rewrite filter_cons. destruct (decide (P x)); [|by apply IH].
  apply StronglySorted_cons. split; [|by apply IH].
  apply Forall_forall. intros y [_ Hy]%list_elem_of_filter.
  by eapply Forall_forall in Hx.
Qed.

(** C4 (as amended). Whatever the status codes of a group, ["500"] is
    never among the codes emitted for it, and the emitted codes are the
    other codes of the group.  When the comparator is consistent on the
    group (every code numeric, or the numeric codes outside the 400-599
    range all of one value), every numeric code of the 400-599 range
    comes before every other code and the numeric codes of each of the
    two groups ascend. *)
Theorem emitted_codes_order (statusCodes : list string) :
  ("500" ∉ emittedCodes statusCodes)
  ∧ emittedCodes statusCodes ≡ₚ filter (λ code, code ≠ "500") statusCodes
  ∧ (orderable statusCodes →
     StronglySorted precedes (emittedCodes statusCodes)).
Proof.
  unfold emittedCodes. split_and!.
  - by intros [? _]%list_elem_of_filter.
  - unfold sortStatusCodes. by rewrite sort_perm.
  - intros Hord. by apply filter_strongly_sorted, sortStatusCodes_sorted.
Qed.

Lemma numeric_codes (codes : list string) :
  forallb (λ code, match parseInt code with Some _ => true | None => false end) codes
  = true →
  Forall numeric codes.
Proof.
  intros H. apply Forall_forall. intros code Hin%list_elem_of_In.
  rewrite forallb_forall in H. specialize (H _ Hin).
  unfold numeric. by destruct (parseInt code).
Qed.

Lemma emitted_codes_order_witness :
  orderable ["201"; "409"; "500"; "400"]
  ∧ emittedCodes ["201"; "409"; "500"; "400"] = ["400"; "409"; "201"]
  ∧ StronglySorted precedes (emittedCodes ["201"; "409"; "500"; "400"]).
Proof.
  assert (orderable ["201"; "409"; "500"; "400"]) as H.
  { left. by apply numeric_codes. }
  split; [exact H|]. split; [reflexivity|].
  exact (proj2 (proj2 (emitted_codes_order ["201"; "409"; "500"; "400"])) H).
Defined.

(** A group with a key that is no number, next to codes of the 400-599
    range and to one other numeric code, is ordered as well. *)
Example emitted_codes_default :
  orderable ["200"; "404"; "default"; "400"]
  ∧ emittedCodes ["200"; "404"; "default"; "400"]
    = ["400"; "404"; "200"; "default"].
Proof.
  split; [|reflexivity]. right.
  intros a b Ha Hb [x Hx] [y Hy] Ea Eb.
  assert (∀ c, c ∈ ["200"; "404"; "default"; "400"] → numeric c →
               inErrorRange c = false → c = "200") as Hc.
  { intros c Hin Hn Hr. repeat (apply elem_of_cons in Hin as [->|Hin]);
      try done. by destruct Hn. by apply elem_of_nil in Hin. }
  rewrite (Hc a), (Hc b); try done; by eexists.
Qed.

(** An array that is one ascending run (no element ranks after its
    right neighbour) is left as it is, whatever the comparator. *)
Lemma sort_run {A} (cmp : A → A → option Z) (l : list A) :
  (∀ i a b, l !! i = Some a → l !! S i = Some b → cmp_le (cmp a b) = true) →
  sort cmp l = l.
Proof.
  induction l as [|x l IH]; [done|]. intros Hrun. cbn [sort].
  rewrite IH by (intros i a b Ha Hb; by apply (Hrun (S i))).
  destruct l as [|y l]; [done|]. cbn [insert_sorted].
  by rewrite (Hrun 0%nat x y).
Qed.

(** C4 (as stated) fails.  In the group [201], [default], [x], [0200]
    (the order in which [Object.keys] lists these keys) every code ranks
    as equal to its neighbour, in both directions, so that the array is
    one ascending run and the sort leaves it as it is: [201] stays before
    [0200], whose value is 200.  The comparator is not consistent on this
    group; a sort that works from adjacent elements, as those of V8 and
    JavaScriptCore do on an array this short, never compares [201] with
    [0200]. *)
Lemma emitted_codes_unordered :
  emittedCodes ["201"; "default"; "x"; "0200"] = ["201"; "default"; "x"; "0200"]
  ∧ parseInt "201" = Some 201%Z ∧ parseInt "0200" = Some 200%Z
  ∧ inErrorRange "201" = false ∧ inErrorRange "0200" = false
  ∧ compareCodes "201" "default" = None ∧ compareCodes "default" "201" = None
  ∧ compareCodes "default" "x" = None ∧ compareCodes "x" "default" = None
  ∧ compareCodes "x" "0200" = None ∧ compareCodes "0200" "x" = None
  ∧ ¬ precedes "201" "0200"
  ∧ ¬ StronglySorted precedes (emittedCodes ["201"; "default"; "x"; "0200"]).
Proof.
  assert (¬ precedes "201" "0200") as Hno.
  { intros [[? ?]|[_ H]]; [done|].
    assert (codeValue "201" ≤ codeValue "0200")%Z as Hle
      by (apply H; by eexists).
    vm_compute in Hle. by apply Hle. }
  split_and!; try reflexivity; [exact Hno|].
  change (emittedCodes ["201"; "default"; "x"; "0200"])
    with ["201"; "default"; "x"; "0200"].
  intros [Hall _]%StronglySorted_cons. apply Hno.
  eapply Forall_forall in Hall; [exact Hall|]. set_solver.
Qed.

(** ["500"] is dropped whether or not the codes are numeric. *)
Lemma emitted_codes_without_500 (statusCodes : list string) :
  ("500" ∉ emittedCodes statusCodes)
  ∧ ∀ code, code ∈ emittedCodes statusCodes ↔ code ∈ statusCodes ∧ code ≠ "500".
Proof.
  unfold emittedCodes, sortStatusCodes. split.
  - by intros [? _]%list_elem_of_filter.
  - intros code. rewrite list_elem_of_filter, sort_perm. tauto.
Qed.

End StatusCodes.

(** ** Properties of example extraction *)

Section Extraction.
Import JS Generator Spec.

Lemma bind_Ok {A B} (m : M A) (k : A → M B) (b : B) :
  (m ≫= k) = Ok b → ∃ a, m = Ok a ∧ k a = Ok b.
Proof. destruct m as [a|e]; [|done]. intros H. by exists a. Qed.

Lemma traverse_Ok {A B} (f : A → M B) (l : list A) (ys : list B) :
  traverse f l = Ok ys → Forall2 (λ x y, f x = Ok y) l ys.
Proof.
  revert ys. induction l as [|x l IH]; intros ys; cbn.
  - intros [= <-]. constructor.
  - intros (y & Hy & (ys' & Hys & [= <-])%bind_Ok)%bind_Ok.
    constructor; [done|by apply IH].
Qed.



Lemma assoc_snoc (k k' : string) (v : value) (kvs : list (string * value)) :
  assoc k kvs = None →
  assoc k' (kvs ++ [(k, v)])
  = if String.eqb k' k then Some v else assoc k' kvs.
Proof.
  induction kvs as [|[k1 v1] rest IH]; cbn; [done|].
  destruct (String.eqb_spec k k1) as [->|Hk]; [done|]. intros Hnone.
  rewrite (IH Hnone).
  destruct (String.eqb_spec k' k1) as [->|Hk']; [|done].
  by destruct (String.eqb_spec k1 k) as [->|_].
Qed.




Lemma get_present (v : value) (p : string) :
  nullish v = false → get v p = Ok (get_opt v p).
Proof. intros H. unfold get. by rewrite H. Qed.









(** Nor is the inline schema of a response consulted for an example. *)
Example response_inline_schema_ignored :
  responseExample (VObj []) (VObj []) Examples.inlineSchema
    (get_opt Examples.inlineSchema "schema") = Ok VUndef
  ∧ mediaExample true (VObj []) Examples.inlineSchema = Ok (VObj [("id", VNum 7)]).
Proof. split; reflexivity. Qed.

(** On the request side a schema [$ref] that does not resolve makes the
    extraction throw: [resolved.example] is read off [undefined]. *)
Example request_schema_unresolved :
  mediaExample true (VObj [])
    (VObj [("schema", VObj [("$ref", VStr "#/components/schemas/Missing")])])
  = Throw TypeError.
Proof. reflexivity. Qed.

(** So does a property that is [null], even next to one that carries an
    example. *)
Example request_property_null :
  mediaExample true (VObj [])
    (VObj [("schema",
            VObj [("properties",
                   VObj [("a", VNull); ("b", VObj [("example", VNum 1)])])])])
  = Throw TypeError.
Proof. reflexivity. Qed.

End Extraction.

(** ** Properties of the plan *)

Section Planner.
Import JS Generator Spec.

Ltac bind_inv H :=
  let x := fresh "x" in
  let Hx := fresh "Hx" in
  apply bind_Ok in H; destruct H as (x & Hx & H).

Lemma warnings_app (l1 l2 : list line) :
  warnings (l1 ++ l2) = (warnings l1 + warnings l2)%nat.
Proof. unfold warnings. by rewrite List.filter_app, length_app. Qed.

Lemma warnings_tests {A} (f : A → line) (l : list A) :
  (∀ x, isWarning (f x) = false) → warnings (map f l) = 0%nat.
Proof.
  intros Hf. unfold warnings.
  induction l as [|x l IH]; cbn; [done|]. by rewrite Hf.
Qed.

Lemma codes_tests {A} (f : A → line) (g : A → string) (l : list A) :
  (∀ x, lineCode (f x) = Some (g x)) → omap lineCode (map f l) = map g l.
Proof.
  intros Hf. induction l as [|x l IH]; cbn; [done|]. by rewrite Hf, IH.
Qed.

Lemma has409 (statusCodes : list string) :
  existsb (λ code, String.eqb code "409") (emittedCodes statusCodes)
  = bool_decide ("409" ∈ statusCodes).
Proof.
  destruct (existsb _ _) eqn:He.
  - apply existsb_exists in He as (code & Hin & ->%String.eqb_eq).
    apply list_elem_of_In, emitted_codes_without_500 in Hin as [Hin _].
    by rewrite bool_decide_eq_true_2.
  - case_bool_decide as Hin; [|done].
    assert (existsb (λ code, String.eqb code "409") (emittedCodes statusCodes) = true)
      as Ht; [|congruence].
    apply existsb_exists. exists "409". split; [|done].
    apply list_elem_of_In, emitted_codes_without_500. by split.
Qed.

Lemma get_Ok (v : value) (p : string) (x : value) :
  get v p = Ok x → nullish v = false ∧ x = get_opt v p.
Proof.
  unfold get, get_opt. destruct (nullish v); [done|]. by intros [= <-].
Qed.

Lemma statusCodesOf_declared (detail : value) (statusCodes : list string) :
  statusCodesOf detail = Ok statusCodes → statusCodes = declaredCodes detail.
Proof.
  unfold statusCodesOf, declaredCodes. intros H. bind_inv H.
  apply get_Ok in Hx as [_ ->]. by rewrite H.
Qed.

(** *** The lines of the third pass *)

Lemma emitBodyCase_rule (doc : value) (method route : string) (detail : value)
    (code : string) (l : line) :
  emitBodyCase doc method route detail code = Ok l →
  bodyRule doc method route detail code l.
Proof.
  unfold emitBodyCase. intros H.
  apply bind_Ok in H as (exampleBody & Hbody & H).
  apply bind_Ok in H as (responses & Hresp & H).
  apply bind_Ok in H as (respJson & Hnode & H).
  apply bind_Ok in H as (fields & Hfields & H).
  apply bind_Ok in H as (respExample & Hex & H).
  unfold bodyRule.
  exists exampleBody, responses, respJson, fields, respExample.
  destruct fields as [|f fs]; cbn in H.
  - destruct (truthy respExample && typeof_object respExample) eqn:Hobj.
    + apply bind_Ok in H as (fns & Hk & H).
      destruct fns as [|fn fns]; cbn in H; injection H as <-.
      * eexists _, _. split_and!; try done. intros _ _. by exists [].
      * eexists _, _. split_and!; try done. intros _ _. by exists (fn :: fns).
    + destruct (defined exampleBody) eqn:Hd.
      * injection H as <-. eexists _, _. by split_and!.
      * unfold isErrorCode in H. rewrite isNeg_inErrorRange in H.
        destruct (inErrorRange code); injection H as <-;
          eexists _, _; by split_and!.
  - injection H as <-. eexists _, _. by split_and!.
Qed.

Lemma emitCase_rule (doc : value) (method route : string) (detail : value)
    (code : string) (l : line) :
  emitCase doc method route detail code = Ok l →
  caseRule doc method route detail code l.
Proof.
  unfold emitCase, caseRule. case_bool_decide.
  - by intros [= <-].
  - apply emitBodyCase_rule.
Qed.

Lemma emitOperation_rule (doc : value) (route : string) (entry : string * value)
    (group : list line) :
  emitOperation doc route entry = Ok group →
  operationLines doc route entry group.
Proof.
  unfold emitOperation, operationLines.
  destruct ((_ || _) && _); [by intros [= <-]|].
  intros H. bind_inv H. exists x. split; [done|].
  apply traverse_Ok in H. eapply Forall2_impl; [exact H|].
  intros code l. apply emitCase_rule.
Qed.

Lemma emitRoute_rule (doc : value) (item : string * value) (block : list line) :
  emitRoute doc item = Ok block → routeLines doc item block.
Proof.
  unfold emitRoute, routeLines. intros H.
  apply bind_Ok in H as (ops & Hops & H).
  apply bind_Ok in H as (groups & Hgroups & [= <-]).
  exists ops, groups. split_and!; [done| |done].
  apply traverse_Ok in Hgroups. eapply Forall2_impl; [exact Hgroups|].
  intros entry group. apply emitOperation_rule.
Qed.

(** *** The lines of the first two passes *)

Lemma priority_tests (doc : value) (route : string) (detail exampleBody : value)
    (codes : list string) :
  requestExample false doc detail = Ok exampleBody →
  Forall2 (priorityRule doc route detail) codes
    (map (λ code, TestLine ("POST " +:+ route) code
                    (Some (coalesce exampleBody emptyObject))
                    (callbackOf detail)) codes).
Proof.
  intros Hbody. induction codes as [|code codes IH]; constructor; [|done].
  exists exampleBody. split; [done|]. unfold callbackOf. done.
Qed.

Lemma emitPrioritized_rule (doc : value) (pathList : list (string * value))
    (route : string) (block : list line) :
  emitPrioritized doc pathList route = Ok block →
  ∃ tests,
    priorityLines doc pathList route tests
    ∧ (block = tests ∨ block = tests ++ [WarningLine]).
Proof.
  unfold emitPrioritized, priorityLines.
  destruct (find_route route pathList) as [item|];
    [|intros [= <-]; exists []; split; [done|by left]].
  intros H. apply bind_Ok in H as (detail & Hdetail & H).
  destruct (truthy detail) eqn:Ht.
  - apply bind_Ok in H as (exampleBody & Hbody & H).
    apply bind_Ok in H as (statusCodes & Hcodes & [= <-]).
    eexists. split.
    + exists detail. split; [done|]. rewrite Ht. exists statusCodes.
      split; [done|]. by apply priority_tests.
    + destruct (existsb _ _); [left; by rewrite app_nil_r|by right].
  - injection H as <-. exists []. split; [|by left].
    exists detail. split; [done|]. by rewrite Ht.
Qed.

Lemma emitSessions_rule (doc : value) (pathList : list (string * value))
    (tests : list line) :
  emitSessions doc pathList = Ok tests →
  priorityLines doc pathList "/sessions" tests.
Proof.
  unfold emitSessions, priorityLines.
  destruct (find_route "/sessions" pathList) as [item|]; [|by intros [= <-]].
  intros H. apply bind_Ok in H as (detail & Hdetail & H).
  exists detail. split; [done|].
  destruct (truthy detail) eqn:Ht; [|by injection H as <-].
  apply bind_Ok in H as (sessBody & Hbody & H).
  apply bind_Ok in H as (statusCodes & Hcodes & [= <-]).
  exists statusCodes. split; [done|]. by apply priority_tests.
Qed.

(** *** The plan, pass by pass *)

Lemma planLines_passes (doc : value) (lines : list line) :
  planLines doc = Ok lines →
  ∃ pathList users trainees sessions others,
    nullish doc = false
    ∧ sortedPathList (or_else (get_opt doc "paths") emptyObject) = Ok pathList
    ∧ emitPrioritized doc pathList "/users" = Ok users
    ∧ emitPrioritized doc pathList "/trainees" = Ok trainees
    ∧ emitSessions doc pathList = Ok sessions
    ∧ traverse (emitRoute doc) pathList = Ok others
    ∧ lines = [ProbeLine; BlankLine] ++ users ++ trainees ++ sessions
              ++ concat others.
Proof.
  unfold planLines. intros H.
  apply bind_Ok in H as (paths0 & Hpaths & H).
  apply get_Ok in Hpaths as [Hdoc ->].
  apply bind_Ok in H as (pathList & Hsorted & H).
  apply bind_Ok in H as (pass1 & Hpass1 & H).
  apply bind_Ok in H as (sessions & Hsessions & H).
  apply bind_Ok in H as (others & Hothers & [= <-]).
  cbn in Hpass1.
  apply bind_Ok in Hpass1 as (users & Husers & Hpass1).
  apply bind_Ok in Hpass1 as (rest1 & Hrest1 & [= <-]).
  apply bind_Ok in Hrest1 as (trainees & Htrainees & [= <-]).
  exists pathList, users, trainees, sessions, others.
  split_and!; try done. cbn [concat]. by rewrite app_nil_r, <- !app_assoc.
Qed.

(** C2 (as amended). Every test line of a generated plan is chosen by
    one of two rules.  The POST of [/users] and [/trainees] (first pass)
    and of [/sessions] (second pass) gets one line per emitted status
    code, whose body is the request example (an empty object when there
    is none) and whose callback asserts [message] exactly when the
    operation has a truthy [callback] member.  Every other operation
    (third pass) gets one line per emitted status code; for GET/DELETE it
    has neither body nor callback, and for any other method it is chosen
    in this order: (a) the response schema exposes at least one field
    with an example: an empty-object body and an assertion on all those
    fields; (b) else the response example is an object: the request
    example (or an empty object) as body, with an assertion on all the
    fields of the response example when it has any and none otherwise;
    (c) else a request example was found: that body and no assertion;
    (d) else an empty-object body, with an assertion on [message] for a
    code of the 400-599 range and none otherwise. *)
Theorem emitted_assertion_precedence (doc : value) (lines : list line) :
  planLines doc = Ok lines →
  ∃ pathList users trainees sessions others,
    sortedPathList (or_else (get_opt doc "paths") emptyObject) = Ok pathList
    ∧ lines = [ProbeLine; BlankLine] ++ users ++ trainees ++ sessions
              ++ concat others
    ∧ (∃ tests, priorityLines doc pathList "/users" tests
                ∧ (users = tests ∨ users = tests ++ [WarningLine]))
    ∧ (∃ tests, priorityLines doc pathList "/trainees" tests
                ∧ (trainees = tests ∨ trainees = tests ++ [WarningLine]))
    ∧ priorityLines doc pathList "/sessions" sessions
    ∧ Forall2 (routeLines doc) pathList others.
Proof.
  intros H.
  apply planLines_passes in H
    as (pathList & users & trainees & sessions & others
        & _ & Hsorted & Husers & Htrainees & Hsessions & Hothers & ->).
  exists pathList, users, trainees, sessions, others.
  split_and!; [done|done| | | |].
  - by apply emitPrioritized_rule.
  - by apply emitPrioritized_rule.
  - by apply emitSessions_rule.
  - apply traverse_Ok in Hothers. eapply Forall2_impl; [exact Hothers|].
    intros item block. apply emitRoute_rule.
Qed.

(** C2 (as stated) fails: with a request example, no response example
    and the code 400, section 4.6 asks for a [message] assertion, and the
    emitted line has none. *)
Lemma emitted_assertion_not_as_claimed :
  emitBodyCase (VObj []) "post" "/items" Examples.createItem "400"
  = Ok (TestLine "POST /items" "400" (Some (VObj [("name", VStr "x")])) NoCallback)
  ∧ claimedCase (VObj []) "post" "/items" Examples.createItem "400"
    = Ok (TestLine "POST /items" "400" (Some (VObj [("name", VStr "x")]))
            ExpectMessage).
Proof. split; reflexivity. Qed.

(** All the fields of a response example are asserted, not the first
    alone. *)
Example emitted_assertion_all_fields :
  emitBodyCase (VObj []) "put" "/items" Examples.readBoth "200"
  = Ok (TestLine "PUT /items" "200" (Some (VObj [])) (ExpectFields ["id"; "name"]))
  ∧ claimedCase (VObj []) "put" "/items" Examples.readBoth "200"
    = Ok (TestLine "PUT /items" "200" (Some (VObj [])) (ExpectFields ["id"])).
Proof. split; reflexivity. Qed.

(** In the first pass the callback does not depend on the status code:
    the 400 of [POST /users] gets no [message] assertion. *)
Example prioritized_without_message :
  planLines (Examples.usersDoc ["201"; "400"; "409"])
  = Ok [ProbeLine; BlankLine;
        TestLine "POST /users" "400" (Some emptyObject) NoCallback;
        TestLine "POST /users" "409" (Some emptyObject) NoCallback;
        TestLine "POST /users" "201" (Some emptyObject) NoCallback].
Proof. reflexivity. Qed.

End Planner.

(** ** The warning marker of the first pass *)

Section Warnings.
Import JS Generator Spec.

Ltac bind_inv H :=
  let x := fresh "x" in
  let Hx := fresh "Hx" in
  apply bind_Ok in H; destruct H as (x & Hx & H).

Lemma emitBodyCase_line (doc : value) (method route : string) (detail : value)
    (code : string) (l : line) :
  emitBodyCase doc method route detail code = Ok l →
  lineCode l = Some code ∧ isWarning l = false.
Proof.
  unfold emitBodyCase. intros H. do 5 bind_inv H.
  repeat case_match; try bind_inv H; repeat case_match;
    by injection H as <-.
Qed.

Lemma emitCase_line (doc : value) (method route : string) (detail : value)
    (code : string) (l : line) :
  emitCase doc method route detail code = Ok l →
  lineCode l = Some code ∧ isWarning l = false.
Proof.
  unfold emitCase. case_bool_decide.
  - by intros [= <-].
  - apply emitBodyCase_line.
Qed.

Lemma emitted_lines (f : string → M line) (codes : list string) (lines : list line) :
  (∀ code l, f code = Ok l → lineCode l = Some code ∧ isWarning l = false) →
  traverse f codes = Ok lines →
  omap lineCode lines = codes ∧ warnings lines = 0%nat.
Proof.
  intros Hf H%traverse_Ok. unfold warnings.
  induction H as [|code l codes lines Hl _ [IH1 IH2]]; [done|].
  destruct (Hf _ _ Hl) as [Hc Hw]. cbn. rewrite Hc, Hw. cbn. by rewrite IH1.
Qed.

(** The codes of the test lines of a (route, method) group of the third
    pass are the emitted codes of the operation, in that order. *)
Lemma emitOperation_codes (doc : value) (route method : string) (detail : value)
    (lines : list line) :
  emitOperation doc route (method, detail) = Ok lines →
  warnings lines = 0%nat
  ∧ (lines = []
     ∨ ∃ statusCodes, statusCodesOf detail = Ok statusCodes
                      ∧ omap lineCode lines = emittedCodes statusCodes).
Proof.
  unfold emitOperation. cbn [fst snd]. case_match.
  - intros [= <-]. by split; [|left].
  - intros Hl. bind_inv Hl.
    destruct (emitted_lines _ _ _ (emitCase_line doc method route detail) Hl)
      as [Hcodes Hw].
    split; [done|]. right. by exists x.
Qed.

Lemma emitSessions_codes (doc : value) (pathList : list (string * value))
    (lines : list line) :
  emitSessions doc pathList = Ok lines → warnings lines = 0%nat.
Proof.
  unfold emitSessions. destruct (find_route _ _) as [item|]; [|by intros [= <-]].
  intros H. bind_inv H. destruct (truthy x); [|by injection H as <-].
  do 2 bind_inv H. injection H as <-. by apply warnings_tests.
Qed.

Lemma warnings_concat (groups : list (list line)) :
  Forall (λ g, warnings g = 0%nat) groups → warnings (concat groups) = 0%nat.
Proof.
  induction 1 as [|g groups Hg _ IH]; [done|].
  cbn [concat]. by rewrite warnings_app, Hg, IH.
Qed.

Lemma emitRoute_warnings (doc : value) (item : string * value) (lines : list line) :
  emitRoute doc item = Ok lines → warnings lines = 0%nat.
Proof.
  unfold emitRoute. intros H. do 2 bind_inv H. injection H as <-.
  apply warnings_concat. apply traverse_Ok in Hx0.
  clear Hx.
  induction Hx0 as [|[method detail] g ops groups Hg _ IH]; constructor; [|done].
  by apply emitOperation_codes in Hg as [? _].
Qed.

(** *** Finding a route in the sorted path list *)

Lemma find_route_Some (route : string) (l : list (string * value))
    (item : string * value) :
  find_route route l = Some item → item ∈ l ∧ item.1 = route.
Proof.
  induction l as [|x l IH]; cbn; [done|].
  destruct (String.eqb_spec x.1 route) as [Hx|_].
  - intros [= <-]. split; [by left|done].
  - intros H. destruct (IH H). split; [by right|done].
Qed.

Lemma find_route_None (route : string) (l : list (string * value)) :
  find_route route l = None → ∀ item, item ∈ l → item.1 ≠ route.
Proof.
  induction l as [|x l IH]; cbn; [by intros _ item ?%elem_of_nil|].
  destruct (String.eqb_spec x.1 route) as [|Hx]; [done|].
  intros H item [->|Hin]%elem_of_cons; [done|by apply IH].
Qed.

Lemma assoc_NoDup (kvs : list (string * value)) (k : string) (v : value) :
  NoDup kvs.*1 → (k, v) ∈ kvs → assoc k kvs = Some v.
Proof.
  induction kvs as [|[k1 v1] kvs IH]; [by intros _ ?%elem_of_nil|].
  cbn. intros [Hk1 Hnd]%NoDup_cons [[= -> ->]|Hin]%elem_of_cons.
  - by rewrite String.eqb_refl.
  - destruct (String.eqb_spec k k1) as [->|_]; [|by apply IH].
    destruct Hk1. apply list_elem_of_fmap. by exists (k1, v).
Qed.

Lemma assoc_absent (kvs : list (string * value)) (k : string) :
  (∀ item, item ∈ kvs → item.1 ≠ k) → assoc k kvs = None.
Proof.
  induction kvs as [|[k1 v1] kvs IH]; [done|]. cbn. intros H.
  destruct (String.eqb_spec k k1) as [->|_].
  - by destruct (H (k1, v1)); [left|].
  - apply IH. intros item Hin. apply H. by right.
Qed.

Lemma prioritized_plain (route : string) :
  route ∈ prioritizedRoutes → plainRoute route.
Proof.
  intros [->|[->|[]%elem_of_nil]%elem_of_cons]%elem_of_cons;
    split_and!; try reflexivity; by intros [].
Qed.

Lemma lookup_route (v : value) (route : string) :
  plainRoute route →
  lookup v route = match v with
                   | VObj kvs => assoc route kvs
                   | _ => None
                   end.
Proof.
  intros (Hindex & Hlength & Hproto & Hmethods).
  assert (∀ c, inherited c route = None) as Hinh.
  { intros c. unfold inherited, proto_own. rewrite !Hmethods, Hlength.
    by destruct c. }
  unfold lookup.
  destruct v as [| |b|n|s|xs|kvs|c|c name]; cbn [own_prop proto_of];
    rewrite ?Hlength, ?Hindex, ?Hproto, ?Hinh; try done.
  - by destruct (assoc route kvs).
  - unfold proto_own. rewrite Hmethods, Hlength.
    assert ((match c with CArray | CString => Some (VNum 0) | _ => None end)
            = None ∨ True) as _ by auto.
    by destruct c.
Qed.

Lemma get_opt_route (v : value) (route : string) :
  plainRoute route →
  get_opt v route = match v with
                    | VObj kvs => default VUndef (assoc route kvs)
                    | _ => VUndef
                    end.
Proof.
  intros H. unfold get_opt. rewrite (lookup_route _ _ H). by destruct v.
Qed.

Lemma entries_index_keys (v : value) (l : list (string * value)) :
  entries v = Ok l →
  (∃ kvs, v = VObj kvs ∧ l = kvs)
  ∨ ((∀ kvs, v ≠ VObj kvs) ∧ ∀ item, item ∈ l → array_index item.1 ≠ None).
Proof.
  assert (∀ (n : nat) (xs : list value) (item : string * value),
            item ∈ combine (map nat_to_string (seq 0 n)) xs →
            array_index item.1 ≠ None) as Hcombine.
  { intros n xs [k x] Hin%list_elem_of_In%in_combine_l.
    apply in_map_iff in Hin as (i & <- & _). cbn.
    by rewrite array_index_nat_to_string. }
  destruct v as [| |b|n|s|xs|kvs|c|c name]; cbn; try done;
    intros [= <-]; try (right; split; [done|by intros item ?%elem_of_nil]).
  - right. split; [done|apply Hcombine].
  - right. split; [done|apply Hcombine].
  - left. by exists kvs.
Qed.

Lemma sortedPathList_perm (paths : value) (pathList : list (string * value)) :
  sortedPathList paths = Ok pathList →
  ∃ l, entries paths = Ok l ∧ pathList ≡ₚ l.
Proof.
  unfold sortedPathList. intros H.
  apply bind_Ok in H as (l & Hl & H).
  apply bind_Ok in H as (_ & _ & [= <-]).
  exists l. split; [done|apply sort_perm].
Qed.

(** The entry that the first pass finds for a route is the property of
    that name of [paths]. *)
Lemma find_route_declared (paths : value) (pathList : list (string * value))
    (route : string) :
  sortedPathList paths = Ok pathList →
  (∀ kvs, paths = VObj kvs → NoDup kvs.*1) →
  plainRoute route →
  get_opt paths route
  = match find_route route pathList with
    | Some item => item.2
    | None => VUndef
    end.
Proof.
  intros (l & Hentries & Hperm)%sortedPathList_perm Hnd Hroute.
  rewrite (get_opt_route _ _ Hroute).
  destruct (entries_index_keys _ _ Hentries) as [(kvs & -> & ->)|[Hobj Hkeys]].
  - specialize (Hnd kvs eq_refl).
    destruct (find_route route pathList) as [[k v]|] eqn:Hfind.
    + apply find_route_Some in Hfind as [Hin Hk]. cbn in Hk. subst k.
      rewrite Hperm in Hin. by rewrite (assoc_NoDup _ _ _ Hnd Hin).
    + rewrite assoc_absent; [done|].
      intros item Hin. rewrite <- Hperm in Hin.
      by apply (find_route_None _ _ Hfind).
  - destruct (find_route route pathList) as [item|] eqn:Hfind.
    + apply find_route_Some in Hfind as [Hin Hk].
      rewrite Hperm in Hin. destruct (Hkeys _ Hin).
      rewrite Hk. apply Hroute.
    + destruct paths; try done. by destruct (Hobj kvs).
Qed.

Lemma emitPrioritized_block (doc : value) (pathList : list (string * value))
    (route : string) (block : list line) :
  sortedPathList (or_else (get_opt doc "paths") emptyObject) = Ok pathList →
  uniqueRoutes doc → plainRoute route →
  emitPrioritized doc pathList route = Ok block →
  routeBlock doc route block.
Proof.
  intros Hsorted Hnd Hroute.
  pose proof (find_route_declared _ _ _ Hsorted Hnd Hroute) as Hfind.
  unfold emitPrioritized, routeBlock, lacksDuplicateCheck, declaredPost.
  rewrite Hfind.
  destruct (find_route route pathList) as [item|]; [|by intros [= <-]].
  intros H. apply bind_Ok in H as (detail & Hdetail & H).
  apply get_Ok in Hdetail as [_ ->].
  destruct (truthy (get_opt item.2 "post")) eqn:Ht; [|by injection H as <-].
  apply bind_Ok in H as (exampleBody & Hbody & H).
  apply bind_Ok in H as (statusCodes & Hcodes & [= <-]).
  apply statusCodesOf_declared in Hcodes as ->.
  rewrite has409. cbn [andb]. eexists. split_and!.
  - f_equal. by case_bool_decide.
  - by apply warnings_tests.
  - by rewrite (codes_tests _ id), map_id.
  - apply Forall_forall. intros l (code & -> & _)%list_elem_of_fmap. eauto.
Qed.

Lemma routeBlock_warnings (doc : value) (route : string) (block : list line) :
  routeBlock doc route block →
  warnings block = (if lacksDuplicateCheck doc route then 1 else 0)%nat
  ∧ (lacksDuplicateCheck doc route = true → last block = Some WarningLine).
Proof.
  unfold routeBlock, lacksDuplicateCheck.
  destruct (truthy (declaredPost doc route)); cbn [andb].
  - intros (tests & -> & Hw & _). rewrite warnings_app, Hw.
    destruct (negb _); [|done]. split; [done|]. intros _. apply last_snoc.
  - by intros ->.
Qed.

(** C9. In a generated plan the statements of the first pass come right
    after the sanity probe: those of [/users], then those of [/trainees].
    A route that declares a POST operation gets one [POST] test line per
    emitted status code, followed by exactly one warning marker when
    ["409"] is not among the status codes of the operation and by none
    when it is; a route without POST operation gets nothing.  No other
    statement of the plan is a warning marker, so that the plan holds one
    marker for each of the two routes that lacks the duplicate check.
    The routes of the document are taken to be distinct, as the keys of
    an object are. *)
Theorem duplicate_check_warning (doc : value) (lines : list line) :
  planLines doc = Ok lines → uniqueRoutes doc →
  ∃ users trainees rest,
    lines = [ProbeLine; BlankLine] ++ users ++ trainees ++ rest
    ∧ routeBlock doc "/users" users
    ∧ routeBlock doc "/trainees" trainees
    ∧ warnings rest = 0%nat
    ∧ warnings users = (if lacksDuplicateCheck doc "/users" then 1 else 0)%nat
    ∧ warnings trainees
      = (if lacksDuplicateCheck doc "/trainees" then 1 else 0)%nat
    ∧ warnings lines
      = ((if lacksDuplicateCheck doc "/users" then 1 else 0)
         + (if lacksDuplicateCheck doc "/trainees" then 1 else 0))%nat.
Proof.
  intros H Hnd.
  apply planLines_passes in H
    as (pathList & users & trainees & sessions & others
        & _ & Hsorted & Husers & Htrainees & Hsessions & Hothers & ->).
  assert (routeBlock doc "/users" users) as Hu.
  { eapply emitPrioritized_block; try done. apply prioritized_plain. by left. }
  assert (routeBlock doc "/trainees" trainees) as Ht.
  { eapply emitPrioritized_block; try done.
    apply prioritized_plain. right. by left. }
  assert (warnings (sessions ++ concat others) = 0%nat) as Hrest.
  { rewrite warnings_app, (emitSessions_codes _ _ _ Hsessions).
    apply warnings_concat. apply traverse_Ok in Hothers. clear -Hothers.
    induction Hothers as [|item g items groups Hg _ IH]; constructor; [|done].
    by apply emitRoute_warnings in Hg. }
  destruct (routeBlock_warnings _ _ _ Hu) as [Hwu _].
  destruct (routeBlock_warnings _ _ _ Ht) as [Hwt _].
  exists users, trainees, (sessions ++ concat others).
  split_and!; try done.
  change (warnings ([ProbeLine; BlankLine] ++ ?l)) with (warnings l).
  rewrite !warnings_app, Hwu, Hwt.
  rewrite warnings_app in Hrest. lia.
Qed.

End Warnings.

(** ** The theorems at concrete inputs *)

Section Instances.
Import JS Generator Helpers Spec Examples.

Lemma req_invalid_descriptor_witness :
  (methodOf "GET" = "" ∨ pathOf "GET" = "")
  ∧ req nat server baseUrl resolveUrl acceptHeaders stringify 0%nat "GET"
        (caseOptions getProfile ∅)
    = (Ok {| status := 0; body := VStr ("Invalid methodPath: " +:+ "GET") |},
       0%nat, []).
Proof.
  split; [by right|].
  exact (req_invalid_descriptor server baseUrl resolveUrl acceptHeaders stringify 0%nat "GET"
           (caseOptions getProfile ∅) (or_intror eq_refl)).
Defined.

Example req_empty_descriptor :
  req nat server baseUrl resolveUrl acceptHeaders stringify 0%nat "" (caseOptions getProfile ∅)
  = (Ok {| status := 0; body := VStr "Invalid methodPath: " |}, 0%nat, []).
Proof. reflexivity. Qed.

Lemma transport_failure_witness :
  let r := {| r_method := "GET"; r_url := "http://localhost:3000/profile";
              r_params := []; r_headers := []; r_payload := None |} in
  r ∈ (req nat unreachable baseUrl resolveUrl acceptHeaders stringify 0%nat "GET /profile"
           (caseOptions getProfile ∅)).2
  ∧ (unreachable 0%nat r).1 = Rejected "connect ECONNREFUSED"
  ∧ (req nat unreachable baseUrl resolveUrl acceptHeaders stringify 0%nat "GET /profile"
         (caseOptions getProfile ∅)).1.1
    = Ok {| status := 0; body := VStr "connect ECONNREFUSED" |}.
Proof.
  intros r.
  assert (r ∈ (req nat unreachable baseUrl resolveUrl acceptHeaders stringify 0%nat
                   "GET /profile" (caseOptions getProfile ∅)).2) as Hr.
  { apply list_elem_of_singleton. reflexivity. }
  split; [exact Hr|]. split; [reflexivity|].
  exact (proj1 (transport_failure_is_status_0 unreachable baseUrl resolveUrl
                  acceptHeaders stringify 0%nat "GET /profile"
                  (caseOptions getProfile ∅) r
                  "connect ECONNREFUSED" Hr eq_refl)).
Defined.

(** A case that asks for authentication while the context holds the token
    [abc]: one request, which carries the bearer header. *)
Lemma auth_header_iff_token_witness :
  let ctx : gmap string value := {["token" := VStr "abc"]} in
  auth getProfile = true
  ∧ convertible (ctx_get ctx "token") = true
  ∧ rendered ctx (url getProfile)
  ∧ caseOptions getProfile ctx
    = {| o_body := VNull; o_headers := [("Authorization", "Bearer abc")];
         o_params := [] |}
  ∧ dispatched nat (runQueuedTests nat server baseUrl resolveUrl acceptHeaders
                      stringify 0%nat ctx [getProfile])
    = [ {| r_method := "GET"; r_url := "http://localhost:3000/profile";
           r_params := []; r_headers := [("Authorization", "Bearer abc")];
           r_payload := None |} ].
Proof.
  intros ctx.
  assert (rendered ctx (url getProfile)) as Hrendered by apply Forall_nil_2.
  do 2 (split; [reflexivity|]). split; [exact Hrendered|].
  pose proof (auth_header_iff_token server baseUrl resolveUrl acceptHeaders
                stringify 0%nat ctx getProfile eq_refl eq_refl Hrendered) as H.
  cbv zeta in H. destruct H as (Hopts & Hsent & _).
  split; [exact Hopts|]. rewrite Hsent. reflexivity.
Defined.

(** The token is set, to the empty string: the case is sent without an
    [Authorization] header, and passes. *)
Lemma auth_header_token_set_not_sent :
  let ctx : gmap string value := {["token" := VStr ""]} in
  auth getProfile = true
  ∧ ctx !! "token" = Some (VStr "")
  ∧ dispatched nat (runQueuedTests nat server baseUrl resolveUrl acceptHeaders
                      stringify 0%nat ctx [getProfile])
    = [ {| r_method := "GET"; r_url := "http://localhost:3000/profile";
           r_params := []; r_headers := []; r_payload := None |} ]
  ∧ result nat (runQueuedTests nat server baseUrl resolveUrl acceptHeaders
                  stringify 0%nat ctx [getProfile]) = Exit0.
Proof. repeat split. Qed.

(** A token that the [Headers] constructor rejects (it holds a line
    break) stops the run with a [TypeError] before anything is sent. *)
Example token_rejected_by_headers :
  let ctx : gmap string value :=
    {["token" := VStr ("a" +:+ String (ascii_of_nat 10) "b")]} in
  runQueuedTests nat server baseUrl resolveUrl acceptHeaders stringify 0%nat ctx
    [getProfile; postSessions]
  = {| result := Uncaught TypeError; world := 0%nat; context := ctx;
       log := [Testing getProfile] |}.
Proof. reflexivity. Qed.

Lemma duplicate_check_warning_witness :
  planLines (usersDoc ["201"; "500"])
  = Ok [ProbeLine; BlankLine;
        TestLine "POST /users" "201" (Some emptyObject) NoCallback;
        WarningLine]
  ∧ uniqueRoutes (usersDoc ["201"; "500"])
  ∧ ∃ users trainees rest,
      [ProbeLine; BlankLine;
       TestLine "POST /users" "201" (Some emptyObject) NoCallback;
       WarningLine]
      = [ProbeLine; BlankLine] ++ users ++ trainees ++ rest
      ∧ routeBlock (usersDoc ["201"; "500"]) "/users" users
      ∧ routeBlock (usersDoc ["201"; "500"]) "/trainees" trainees
      ∧ warnings rest = 0%nat
      ∧ warnings users
        = (if lacksDuplicateCheck (usersDoc ["201"; "500"]) "/users"
           then 1 else 0)%nat
      ∧ warnings trainees
        = (if lacksDuplicateCheck (usersDoc ["201"; "500"]) "/trainees"
           then 1 else 0)%nat
      ∧ warnings [ProbeLine; BlankLine;
                  TestLine "POST /users" "201" (Some emptyObject) NoCallback;
                  WarningLine]
        = ((if lacksDuplicateCheck (usersDoc ["201"; "500"]) "/users"
            then 1 else 0)
           + (if lacksDuplicateCheck (usersDoc ["201"; "500"]) "/trainees"
              then 1 else 0))%nat.
Proof.
  assert (uniqueRoutes (usersDoc ["201"; "500"])) as Hunique.
  { intros kvs [= <-]. apply NoDup_singleton. }
  split; [reflexivity|]. split; [exact Hunique|].
  exact (duplicate_check_warning (usersDoc ["201"; "500"]) _ eq_refl Hunique).
Defined.

(** The scenario of section 8: 409 then 201, no warning, 500 left out;
    and the same route without a 409 response. *)
Example plan_users_with_conflict :
  planLines (usersDoc ["201"; "409"; "500"])
  = Ok [ProbeLine; BlankLine;
        TestLine "POST /users" "409" (Some emptyObject) NoCallback;
        TestLine "POST /users" "201" (Some emptyObject) NoCallback].
Proof. reflexivity. Qed.

Example plan_users_without_conflict :
  planLines (usersDoc ["201"; "500"])
  = Ok [ProbeLine; BlankLine;
        TestLine "POST /users" "201" (Some emptyObject) NoCallback;
        WarningLine]
  ∧ lacksDuplicateCheck (usersDoc ["201"; "500"]) "/users" = true
  ∧ lacksDuplicateCheck (usersDoc ["201"; "500"]) "/trainees" = false.
Proof. repeat split. Qed.

Lemma emitted_assertion_precedence_witness :
  planLines itemsDoc
  = Ok [ProbeLine; BlankLine;
        TestLine "POST /items" "400" (Some (VObj [("name", VStr "x")]))
          NoCallback]
  ∧ ∃ pathList users trainees sessions others,
      sortedPathList (or_else (get_opt itemsDoc "paths") emptyObject)
      = Ok pathList
      ∧ [ProbeLine; BlankLine;
         TestLine "POST /items" "400" (Some (VObj [("name", VStr "x")]))
           NoCallback]
        = [ProbeLine; BlankLine] ++ users ++ trainees ++ sessions
          ++ concat others
      ∧ (∃ tests, priorityLines itemsDoc pathList "/users" tests
                  ∧ (users = tests ∨ users = tests ++ [WarningLine]))
      ∧ (∃ tests, priorityLines itemsDoc pathList "/trainees" tests
                  ∧ (trainees = tests ∨ trainees = tests ++ [WarningLine]))
      ∧ priorityLines itemsDoc pathList "/sessions" sessions
      ∧ Forall2 (routeLines itemsDoc) pathList others.
Proof.
  split; [reflexivity|].
  exact (emitted_assertion_precedence itemsDoc _ eq_refl).
Defined.


(** The second scenario of section 8: a case that asks for authentication
    while no token was ever stored is sent without an [Authorization]
    header, after the first case passed. *)
Example silent_degrade :
  dispatched nat (runQueuedTests nat server baseUrl resolveUrl acceptHeaders stringify 0%nat ∅
                    [postSessions; getProfile])
  = [ {| r_method := "POST"; r_url := "http://localhost:3000/sessions";
         r_params := []; r_headers := []; r_payload := None |};
      {| r_method := "GET"; r_url := "http://localhost:3000/profile";
         r_params := []; r_headers := []; r_payload := None |} ]
  ∧ result nat (runQueuedTests nat server baseUrl resolveUrl acceptHeaders stringify 0%nat ∅
                  [postSessions; getProfile]) = Exit0.
Proof. split; reflexivity. Qed.

(** Fail-fast: after a mismatch nothing else is dispatched. *)
Example halt_on_mismatch :
  executed nat (runQueuedTests nat server baseUrl resolveUrl acceptHeaders stringify 0%nat ∅
                  [getProfile401; postSessions; getProfile])
  = [getProfile401]
  ∧ result nat (runQueuedTests nat server baseUrl resolveUrl acceptHeaders stringify 0%nat ∅
                  [getProfile401; postSessions; getProfile]) = Exit1.
Proof. split; reflexivity. Qed.

End Instances.

(** * Further properties of the code *)

(** ** Interpolation and the request helper *)

Section EngineMore.
Import JS Helpers Spec SpecExtra.

Context {World : Type}.
Context (fetch : World → Request → fetchResult * World).
Context (BASE_URL : option string).
Context (URL : string → string → option string).
Context (validHeaders : list (string * string) → bool).
Context (JSON_stringify : value → string).

Abbreviation req := (Helpers.req World fetch BASE_URL URL validHeaders JSON_stringify).
Abbreviation runQueuedTests :=
  (Helpers.runQueuedTests World fetch BASE_URL URL validHeaders JSON_stringify).

Lemma replace_noToken (f : string → string) (s : string) :
  noToken s = true → replaceTokens f None s = s.
Proof.
  induction s as [|c s IH]; [done|]. cbn [noToken].
  intros [Hc Hs]%andb_true_iff. apply negb_true_iff in Hc.
  cbn [replaceTokens]. destruct (Ascii.eqb c "$"); cbn [andb] in Hc.
  - destruct s as [|d s']; [done|]. rewrite Hc. by rewrite (IH Hs).
  - by rewrite (IH Hs).
Qed.

(** X1. A descriptor in which no dollar sign is followed by a letter is
    sent as it is, whatever the context holds. *)
Theorem interpolate_plain (ctx : gmap string value) (url : string) :
  noToken url = true → interpolate ctx url = url.
Proof. apply replace_noToken. Qed.

(** X2. A request that [req] dispatches is the only one of the call; its
    method and URL come from the descriptor and [BASE_URL], its query
    parameters from the options.  It has a payload exactly when the body
    is a non-empty string or a non-null object (a string is sent as it
    is); a request with a payload always has a content type, and headers
    that already name one, or a request without payload, are passed on
    unchanged. *)
Theorem req_request_shape (w : World) (methodPath : string) (opts : Options)
    (r : Request) :
  r ∈ (req w methodPath opts).2 →
  (req w methodPath opts).2 = [r]
  ∧ r_method r = methodOf methodPath
  ∧ (∃ baseUrl, BASE_URL = Some baseUrl
                ∧ URL (pathOf methodPath) baseUrl = Some (r_url r))
  ∧ r_params r = o_params opts
  ∧ (r_payload r = None ↔ sendsBody (o_body opts) = false)
  ∧ (∀ s, o_body opts = VStr s → s ≠ "" → r_payload r = Some s)
  ∧ (r_payload r ≠ None → hasHeader "content-type" (r_headers r) = true)
  ∧ (hasHeader "content-type" (o_headers opts) = true ∨ r_payload r = None →
     r_headers r = o_headers opts).
Proof.
  unfold Helpers.req.
  destruct (_ || _); [by intros ?%elem_of_nil|].
  destruct BASE_URL as [baseUrl|]; [|by intros ?%elem_of_nil].
  destruct (URL _ _) as [u|] eqn:Hu; [|by intros ?%elem_of_nil].
  destruct (validHeaders _); cbn [negb]; [|by intros ?%elem_of_nil].
  match goal with |- context [fetch w ?q] => set (request := q) end.
  assert (request ∈ [request] → [request] = [request]
          ∧ r_method request = methodOf methodPath
          ∧ (∃ b, Some baseUrl = Some b
                  ∧ URL (pathOf methodPath) b = Some (r_url request))
          ∧ r_params request = o_params opts
          ∧ (r_payload request = None ↔ sendsBody (o_body opts) = false)
          ∧ (∀ s, o_body opts = VStr s → s ≠ "" → r_payload request = Some s)
          ∧ (r_payload request ≠ None →
             hasHeader "content-type" (r_headers request) = true)
          ∧ (hasHeader "content-type" (o_headers opts) = true
             ∨ r_payload request = None →
             r_headers request = o_headers opts)) as Hshape.
  { intros _. subst request. cbn [r_method r_url r_params r_payload r_headers].
    split; [done|]. split; [done|]. split; [eauto|]. split; [done|].
    split; [|split; [|split]].
    - by destruct (o_body opts) as [| |[]|[]|[]|xs|kvs|c|c name].
    - intros s -> Hs. by destruct s.
    - destruct (truthy (o_body opts) && _) eqn:Hsend; cbn [andb]; [|done].
      intros _. destruct (hasHeader "content-type" (o_headers opts)) eqn:Hh;
        cbn [negb]; [done|].
      rewrite hasHeader_app. by rewrite orb_true_r.
    - intros [Hh|Hp].
      + rewrite Hh. cbn [negb]. by rewrite andb_false_r.
      + by destruct (truthy (o_body opts) && _). }
  destruct (fetch w request) as [[msg|res] w'];
    [|destruct (res_isJson res); [destruct (res_json res)|]];
    cbn [snd]; intros Hr; pose proof Hr as ->%list_elem_of_singleton;
    by apply Hshape.
Qed.

(** X3. [req] throws only before anything is sent, and for one of three
    reasons: [BASE_URL] is not defined (an [Error] with the message of
    line 131), the URL cannot be built, or the [Headers] constructor
    rejects the headers of the options (a [TypeError] in both cases).
    The world is then as it was. *)
Theorem req_throws_before_dispatch (w : World) (methodPath : string)
    (opts : Options) (e : error) :
  (req w methodPath opts).1.1 = Throw e →
  (req w methodPath opts).2 = []
  ∧ (req w methodPath opts).1.2 = w
  ∧ methodOf methodPath ≠ "" ∧ pathOf methodPath ≠ ""
  ∧ ((BASE_URL = None ∧ e = baseUrlMissing)
     ∨ (∃ baseUrl, BASE_URL = Some baseUrl
                   ∧ URL (pathOf methodPath) baseUrl = None ∧ e = TypeError)
     ∨ (∃ baseUrl u, BASE_URL = Some baseUrl
                     ∧ URL (pathOf methodPath) baseUrl = Some u
                     ∧ validHeaders (o_headers opts) = false
                     ∧ e = TypeError)).
Proof.
  unfold Helpers.req.
  destruct (String.eqb_spec (methodOf methodPath) "") as [Hm|Hm]; [done|].
  destruct (String.eqb_spec (pathOf methodPath) "") as [Hp|Hp]; [done|].
  cbn [orb].
  destruct BASE_URL as [baseUrl|].
  - destruct (URL _ _) as [u|] eqn:Hu.
    + destruct (validHeaders _) eqn:Hvalid; cbn [negb].
      * destruct (fetch w _) as [[msg|res] w'];
          [|destruct (res_isJson res); [destruct (res_json res)|]]; done.
      * intros [= <-]. split_and!; try done. right. right.
        by exists baseUrl, u.
    + intros [= <-]. split_and!; try done. right. left. by exists baseUrl.
  - intros [= <-]. split_and!; try done. by left.
Qed.

(** *** Runs of the queue *)

Lemma logged_nil (r : run World) : logged World [] r = r.
Proof. by destruct r. Qed.

Lemma logged_logged (a b : list event) (r : run World) :
  logged World a (logged World b r) = logged World (a ++ b) r.
Proof. unfold logged. cbn. by rewrite app_assoc. Qed.

(** X4. Running a queue made of two parts is running the first part and,
    when that ends with every case passed, running the second part in
    the world and the context the first part left; when the first part
    halts, the second part does not run at all. *)
Theorem run_app (w : World) (ctx : gmap string value) (q1 q2 : list QueuedTest) :
  runQueuedTests w ctx (q1 ++ q2)
  = match result World (runQueuedTests w ctx q1) with
    | Exit0 =>
        logged World (log World (runQueuedTests w ctx q1))
          (runQueuedTests (world World (runQueuedTests w ctx q1))
                          (context World (runQueuedTests w ctx q1)) q2)
    | _ => runQueuedTests w ctx q1
    end.
Proof.
  revert w ctx. induction q1 as [|c q1 IH]; intros w ctx.
  - cbn. by rewrite logged_nil.
  - rewrite <- app_comm_cons.
    destruct (Helpers.req World fetch BASE_URL URL validHeaders JSON_stringify w
                (interpolate ctx (url c)) (caseOptions c ctx))
      as [[[res|e] w'] sent] eqn:Hreq.
    + destruct (decide (status res = expStatus c)) as [He|Hne].
      * rewrite !(run_match _ _ _ _ _ _ _ _ _ _ _ _ Hreq He).
        assert (∀ ctx',
          logged World (Testing c :: map Dispatched sent ++ [Pass c])
            (runQueuedTests w' ctx' (q1 ++ q2))
          = match result World
                    (logged World (Testing c :: map Dispatched sent ++ [Pass c])
                       (runQueuedTests w' ctx' q1)) with
            | Exit0 =>
                logged World
                  (log World
                     (logged World (Testing c :: map Dispatched sent ++ [Pass c])
                        (runQueuedTests w' ctx' q1)))
                  (runQueuedTests
                     (world World
                        (logged World (Testing c :: map Dispatched sent ++ [Pass c])
                           (runQueuedTests w' ctx' q1)))
                     (context World
                        (logged World (Testing c :: map Dispatched sent ++ [Pass c])
                           (runQueuedTests w' ctx' q1))) q2)
            | _ => logged World (Testing c :: map Dispatched sent ++ [Pass c])
                     (runQueuedTests w' ctx' q1)
            end) as Hstep.
        { intros ctx'. rewrite IH. cbn [logged result world context log].
          destruct (result World (runQueuedTests w' ctx' q1));
            [|done..]. by rewrite logged_logged. }
        destruct (save c) as [f|]; [destruct (f res ctx) as [ctx'|e]|];
          [apply Hstep|done|apply Hstep].
      * by rewrite !(run_mismatch _ _ _ _ _ _ _ _ _ _ _ _ Hreq Hne).
    + by rewrite !(run_throw _ _ _ _ _ _ _ _ _ _ _ _ Hreq).
Qed.

(** X5. Only the callbacks write the shared context: a run of cases
    without callback leaves it as it was. *)
Theorem run_without_callbacks (w : World) (ctx : gmap string value)
    (queue : list QueuedTest) :
  (∀ c, c ∈ queue → save c = None) →
  context World (runQueuedTests w ctx queue) = ctx.
Proof.
  revert w. induction queue as [|c rest IH]; intros w Hsave; [done|].
  assert (save c = None) as Hc by (apply Hsave; by left).
  assert (∀ c', c' ∈ rest → save c' = None) as Hrest
    by (intros c' Hc'; apply Hsave; by right).
  cbn [Helpers.runQueuedTests]. rewrite Hc.
  destruct (Helpers.req _ _ _ _ _ _ _ _) as [[[res|e] w'] sent]; [|done].
  destruct (status res =? expStatus c)%Z; [|done].
  cbn [logged context]. by apply IH.
Qed.

Lemma req_at_most_one (w : World) (methodPath : string) (opts : Options) :
  (List.length (req w methodPath opts).2 ≤ 1)%nat.
Proof.
  unfold Helpers.req.
  destruct (_ || _); [cbn; lia|].
  destruct BASE_URL; [|cbn; lia].
  destruct (URL _ _); [|cbn; lia].
  destruct (validHeaders _); cbn [negb]; [|cbn; lia].
  destruct (fetch w _) as [[msg|res] w'];
    [|destruct (res_isJson res); [destruct (res_json res)|]]; cbn; lia.
Qed.

(** X6. A run sends at most one request per case it starts. *)
Theorem run_dispatch_bound (w : World) (ctx : gmap string value)
    (queue : list QueuedTest) :
  (List.length (dispatched World (runQueuedTests w ctx queue))
   ≤ List.length (executed World (runQueuedTests w ctx queue)))%nat.
Proof.
  revert w ctx. induction queue as [|c rest IH]; intros w ctx; [done|].
  pose proof (req_at_most_one w (interpolate ctx (url c)) (caseOptions c ctx))
    as Hone.
  destruct (Helpers.req World fetch BASE_URL URL validHeaders JSON_stringify w
              (interpolate ctx (url c)) (caseOptions c ctx))
    as [[[res|e] w'] sent] eqn:Hreq; cbn [snd] in Hone.
  - destruct (decide (status res = expStatus c)) as [He|Hne].
    + rewrite (run_match _ _ _ _ _ _ _ _ _ _ _ _ Hreq He).
      destruct (save c) as [f|]; [destruct (f res ctx) as [ctx'|e]|].
      * rewrite executed_logged, dispatched_logged, length_app. cbn.
        specialize (IH w' ctx'). lia.
      * unfold dispatched, executed. cbn [log].
        rewrite dispatched_events, executed_events, length_app. cbn. lia.
      * rewrite executed_logged, dispatched_logged, length_app. cbn.
        specialize (IH w' ctx). lia.
    + rewrite (run_mismatch _ _ _ _ _ _ _ _ _ _ _ _ Hreq Hne).
      unfold dispatched, executed. cbn [log].
      rewrite dispatched_events, executed_events, length_app. cbn. lia.
  - rewrite (run_throw _ _ _ _ _ _ _ _ _ _ _ _ Hreq).
    unfold dispatched, executed. cbn [log].
    rewrite <- (app_nil_r (map Dispatched sent)).
    rewrite dispatched_events, executed_events, length_app. cbn. lia.
Qed.

Lemma req_without_base_url (w : World) (methodPath : string) (opts : Options) :
  Helpers.req World fetch None URL validHeaders JSON_stringify w methodPath opts
  = (Ok {| status := 0; body := VStr ("Invalid methodPath: " +:+ methodPath) |},
     w, [])
  ∨ Helpers.req World fetch None URL validHeaders JSON_stringify w methodPath opts
    = (Throw baseUrlMissing, w, []).
Proof. unfold Helpers.req. destruct (_ || _); auto. Qed.

(** X7. While [BASE_URL] is not defined a run sends nothing and leaves
    the world untouched, and it can only end with every case passed if
    every case expects status 0. *)
Theorem run_without_base_url (w : World) (ctx : gmap string value)
    (queue : list QueuedTest) :
  dispatched World
    (Helpers.runQueuedTests World fetch None URL validHeaders JSON_stringify w ctx queue) = []
  ∧ world World
      (Helpers.runQueuedTests World fetch None URL validHeaders JSON_stringify w ctx queue) = w
  ∧ (result World
       (Helpers.runQueuedTests World fetch None URL validHeaders JSON_stringify w ctx queue)
     = Exit0 →
     ∀ c, c ∈ queue → expStatus c = 0%Z).
Proof.
  revert ctx. induction queue as [|c rest IH]; intros ctx.
  { split_and!; [done..|]. by intros _ c ?%elem_of_nil. }
  destruct (req_without_base_url w (interpolate ctx (url c)) (caseOptions c ctx))
    as [Hreq|Hreq].
  - destruct (decide (0%Z = expStatus c)) as [He|Hne].
    + rewrite (run_match _ _ _ _ _ _ _ _ _ _ _ _ Hreq He).
      destruct (save c) as [f|]; [destruct (f _ ctx) as [ctx'|e]|].
      * destruct (IH ctx') as (Hd & Hw & Hall).
        rewrite dispatched_logged. cbn [logged world result]. split_and!; [done..|].
        intros Hr c' [->|Hc']%elem_of_cons; [done|by apply Hall].
      * split_and!; done.
      * destruct (IH ctx) as (Hd & Hw & Hall).
        rewrite dispatched_logged. cbn [logged world result]. split_and!; [done..|].
        intros Hr c' [->|Hc']%elem_of_cons; [done|by apply Hall].
    + rewrite (run_mismatch _ _ _ _ _ _ _ _ _ _ _ _ Hreq Hne). by split_and!.
  - rewrite (run_throw _ _ _ _ _ _ _ _ _ _ _ _ Hreq). by split_and!.
Qed.

End EngineMore.

(** ** Assertions and the minimal test runner *)

Section AssertionProperties.
Import JS Assertions.

Lemma has_structure_undefined (shape : Structure) :
  has_structure VUndef shape = false.
Proof. by destruct shape. Qed.

Lemma has_structure_fields (data : value) (fields : list (string * Structure)) :
  has_structure data (Shape fields)
  = plainObject data
    && forallb (λ kv, has_structure (get_opt data kv.1) kv.2) fields.
Proof.
  cbn [has_structure]. f_equal.
  induction fields as [|[k s] rest IH]; [done|]. cbn. by rewrite IH.
Qed.

Lemma has_structure_null (shape : Structure) :
  has_structure VNull shape = false.
Proof. by destruct shape. Qed.

Lemma has_structure_function (c : class) (name : string) (shape : Structure) :
  has_structure (VFun c name) shape = false.
Proof. by destruct shape. Qed.

(** What an object inherits under a name other than [__proto__] matches
    no structure: it is a method, or nothing. *)
Lemma has_structure_inherited (k : string) (shape : Structure) :
  has_structure (match inherited CObject k with
                 | Some x => x
                 | None => VUndef
                 end) shape = false.
Proof.
  unfold inherited, proto_own.
  destruct (hasName (methods CObject) k); [apply has_structure_function|].
  destruct (String.eqb k "length"); apply has_structure_undefined.
Qed.

Lemma get_opt_object_prototype (k : string) :
  (∃ name, get_opt (VProto CObject) k = VFun CObject name)
  ∨ get_opt (VProto CObject) k = VNull
  ∨ get_opt (VProto CObject) k = VUndef.
Proof.
  unfold get_opt, lookup. cbn [own_prop proto_of]. unfold proto_own.
  destruct (hasName (methods CObject) k); [left; by eexists|].
  destruct (String.eqb k "length"), (String.eqb k "__proto__"); auto.
Qed.

(** [Object.prototype] has the structure of an object, and of the empty
    shape alone. *)
Lemma has_structure_object_prototype (shape : Structure) :
  has_structure (VProto CObject) shape = true
  ↔ shape = TObject ∨ shape = Shape [].
Proof.
  destruct shape as [| | | | |fields]; try (split; [done|by intros [|]]).
  - split; [by left|done].
  - rewrite has_structure_fields. split.
    + intros [_ Hall]%andb_true_iff. destruct fields as [|[k s] rest]; [by right|].
      cbn [forallb fst snd] in Hall. apply andb_true_iff in Hall as [Hk _].
      destruct (get_opt_object_prototype k) as [[name Hget]|[Hget|Hget]];
        rewrite Hget in Hk.
      * by rewrite has_structure_function in Hk.
      * by rewrite has_structure_null in Hk.
      * by rewrite has_structure_undefined in Hk.
    + by intros [|[= ->]].
Qed.

(** The field [k] of an object literal, against a structure. *)
Lemma has_structure_field (kvs : list (string * value)) (k : string)
    (s : Structure) :
  has_structure (get_opt (VObj kvs) k) s = true
  ↔ (∃ v, assoc k kvs = Some v ∧ has_structure v s = true)
    ∨ (assoc k kvs = None ∧ k = "__proto__" ∧ (s = TObject ∨ s = Shape [])).
Proof.
  unfold get_opt, lookup. cbn [own_prop proto_of].
  destruct (assoc k kvs) as [v|].
  - split; [intros H; left; by exists v|].
    by intros [(v' & [= <-] & H)|[? _]].
  - destruct (String.eqb_spec k "__proto__") as [->|Hk].
    + rewrite has_structure_object_prototype. split; [by right|].
      by intros [(v & ? & _)|(_ & _ & H)].
    + pose proof (has_structure_inherited k s) as Hinh.
      destruct (inherited CObject k); rewrite Hinh.
      * split; [done|]. by intros [(v' & ? & _)|(_ & ? & _)].
      * split; [done|]. by intros [(v' & ? & _)|(_ & ? & _)].
Qed.

(** X8. A value has the structure of an object shape exactly when it is
    an object other than [null] and an array, and reading each field the
    shape names gives a value with the structure given for it; what else
    the object holds is not looked at.  For an object of a document the
    field read is its own property of that name; a name it does not hold
    is read from [Object.prototype]: [__proto__] then gives that
    prototype, which has the structure [TObject] and that of the empty
    shape, and any other name gives a method or nothing, which has no
    structure. *)
Theorem has_structure_shape (data : value) (fields : list (string * Structure)) :
  (has_structure data (Shape fields) = true
   ↔ plainObject data = true
     ∧ Forall (λ kv, has_structure (get_opt data kv.1) kv.2 = true) fields)
  ∧ (∀ kvs, data = VObj kvs →
       (has_structure data (Shape fields) = true
        ↔ Forall (λ kv, (∃ v, assoc kv.1 kvs = Some v
                              ∧ has_structure v kv.2 = true)
                        ∨ (assoc kv.1 kvs = None ∧ kv.1 = "__proto__"
                           ∧ (kv.2 = TObject ∨ kv.2 = Shape []))) fields)).
Proof.
  assert (has_structure data (Shape fields) = true
          ↔ plainObject data = true
            ∧ Forall (λ kv, has_structure (get_opt data kv.1) kv.2 = true) fields)
    as Hgeneral.
  { rewrite has_structure_fields, andb_true_iff, forallb_forall, Forall_forall.
    split; intros [Hobj Hall]; (split; [done|]); intros kv Hin; apply Hall;
      by apply list_elem_of_In. }
  split; [exact Hgeneral|].
  intros kvs ->. rewrite Hgeneral. split.
  - intros [_ Hall]. eapply Forall_impl; [exact Hall|].
    intros [k s]. apply has_structure_field.
  - intros Hall. split; [done|]. eapply Forall_impl; [exact Hall|].
    intros [k s]. apply has_structure_field.
Qed.

(** X9. Adding a property to an object never breaks a structure it had,
    the property [__proto__] apart (a shape can ask for the prototype
    that an object without such a property inherits). *)
Theorem has_structure_extended (kvs : list (string * value)) (k : string)
    (v : value) (shape : Structure) :
  assoc k kvs = None → k ≠ "__proto__" →
  has_structure (VObj kvs) shape = true →
  has_structure (VObj (kvs ++ [(k, v)])) shape = true.
Proof.
  intros Hk Hproto. destruct shape as [| | | | |fields]; try done.
  rewrite !has_structure_fields. intros [_ Hall]%andb_true_iff.
  apply andb_true_iff. split; [done|].
  rewrite forallb_forall in Hall. apply forallb_forall. intros [k' s'] Hin.
  specialize (Hall _ Hin). cbn [fst snd] in Hall |- *.
  apply has_structure_field in Hall. apply has_structure_field.
  rewrite (assoc_snoc _ _ _ _ Hk).
  destruct Hall as [(x & Hx & Hs)|(Hnone & -> & Hs)].
  - left. exists x.
    destruct (String.eqb_spec k' k) as [->|_]; [congruence|done].
  - right. destruct (String.eqb_spec "__proto__" k) as [<-|_]; [done|].
    by rewrite Hnone.
Qed.

(** X10. [expect_field] with a list of names checks them in order, each
    with the [in] operator, and throws at the first one that is not a
    property of the object, naming that field; it returns when there is
    none, in particular for an empty list, whatever the object is.  A
    single name behaves as the list of that name.  The properties of an
    object of a document are its own ones and those it inherits from
    [Object.prototype]: [__proto__] and the methods. *)
Theorem expect_field_first_missing (JSON_stringify : value → string)
    (obj : value) (fields : list string) :
  expect_field JSON_stringify obj (inr fields)
  = match List.find (λ f, negb (fieldIn obj f)) fields with
    | None => Ok tt
    | Some f => Throw (Error ("FAIL: " +:+ fieldMessage JSON_stringify obj f))
    end
  ∧ (expect_field JSON_stringify obj (inr fields) = Ok tt
     ↔ ∀ f, f ∈ fields → fieldIn obj f = true)
  ∧ (∀ f, expect_field JSON_stringify obj (inl f)
          = expect_field JSON_stringify obj (inr [f]))
  ∧ (∀ kvs f, obj = VObj kvs →
       (fieldIn obj f = true
        ↔ assoc f kvs ≠ None ∨ f = "__proto__" ∨ f ∈ methods CObject)).
Proof.
  assert (expect_field JSON_stringify obj (inr fields)
          = match List.find (λ f, negb (fieldIn obj f)) fields with
            | None => Ok tt
            | Some f => Throw (Error ("FAIL: " +:+ fieldMessage JSON_stringify obj f))
            end) as Hfind.
  { unfold expect_field. induction fields as [|f fields IH]; [done|].
    cbn [traverse List.find]. unfold expect at 1.
    destruct (fieldIn obj f); cbn [negb]; [|done].
    cbn [mbind M_bind]. cbn [mbind M_bind] in IH.
    destruct (traverse _ fields); cbn [mbind M_bind] in IH |- *.
    - by destruct (List.find _ fields).
    - by destruct (List.find _ fields). }
  split; [exact Hfind|]. split_and!.
  - rewrite Hfind. split.
    + intros Hok f Hf%list_elem_of_In.
      destruct (List.find _ fields) as [g|] eqn:Hg; [done|].
      pose proof (find_none _ _ Hg _ Hf) as Hn. by apply negb_false_iff in Hn.
    + intros Hall. destruct (List.find _ fields) as [g|] eqn:Hg; [|done].
      apply find_some in Hg as [Hin%list_elem_of_In Hn].
      rewrite (Hall _ Hin) in Hn. done.
  - intros f. unfold expect_field. cbn [traverse]. unfold expect.
    by destruct (fieldIn obj f).
  - intros kvs f ->. unfold fieldIn, has_property, lookup.
    cbn [truthy typeof_object andb own_prop proto_of].
    destruct (assoc f kvs) as [v|]; [split; [by left|done]|].
    destruct (String.eqb_spec f "__proto__") as [->|Hf].
    { split; [by right; left|done]. }
    unfold inherited, proto_own.
    destruct (hasName (methods CObject) f) eqn:Hm.
    + split; [|done]. intros _. right. right. by apply hasName_elem_of.
    + destruct (String.eqb f "length");
        (split; [done|]); intros [?|[?|Hin]]; try done;
        apply hasName_elem_of in Hin; congruence.
Qed.

(** X11. [runTests] runs the tests in registration order and stops after
    the first failure: the tests run are a prefix of the registered ones,
    every test run adds one to exactly one counter, at most one failure
    is counted, and without a failure every test was run. *)
Theorem runTests_counters {World : Type} (results : Counters) (w : World)
    (tests : list (Test World)) :
  (runTests World results w tests).2 `prefix_of` tests
  ∧ total (runTests World results w tests).1.1
    = (total results + List.length (runTests World results w tests).2)%nat
  ∧ (failed (runTests World results w tests).1.1 ≤ S (failed results))%nat
  ∧ (failed (runTests World results w tests).1.1 = failed results →
     (runTests World results w tests).2 = tests)
  ∧ (passed results ≤ passed (runTests World results w tests).1.1)%nat
  ∧ (skipped results ≤ skipped (runTests World results w tests).1.1)%nat.
Proof.
  revert results w. induction tests as [|t rest IH]; intros results w.
  { cbn. split_and!; try done; lia. }
  cbn [runTests]. unfold runSingle.
  destruct (fn World t w) as [[[msg|msg]|] w'].
  - specialize (IH {| passed := passed results; failed := failed results;
                      skipped := S (skipped results) |} w').
    destruct (runTests World _ w' rest) as [[results' w''] ran].
    cbn [fst snd] in *. unfold total in *. cbn [passed failed skipped] in *.
    destruct IH as (Hp & Ht & Hf & Hall & Hpa & Hsk).
    split_and!; [by apply prefix_cons|cbn; lia|lia| |lia|lia].
    intros Heq. by rewrite (Hall Heq).
  - cbn [fst snd]. unfold total. cbn [passed failed skipped].
    split_and!; [apply prefix_cons, prefix_nil|cbn; lia|lia|lia|lia|lia].
  - specialize (IH {| passed := S (passed results); failed := failed results;
                      skipped := skipped results |} w').
    destruct (runTests World _ w' rest) as [[results' w''] ran].
    cbn [fst snd] in *. unfold total in *. cbn [passed failed skipped] in *.
    destruct IH as (Hp & Ht & Hf & Hall & Hpa & Hsk).
    split_and!; [by apply prefix_cons|cbn; lia|lia| |lia|lia].
    intros Heq. by rewrite (Hall Heq).
Qed.

End AssertionProperties.

(** ** The reference resolver, the route order and the status codes *)

Section GeneratorMore.
Import JS Generator Spec SpecExtra.

(** X12. A reference can be resolved in two steps: resolving [#/a/b] in a
    document is resolving [#/b] in what [#/a] resolves to. *)
Theorem resolveRef_two_steps (doc : value) (a b : string) :
  resolveRef doc ("#/" +:+ a +:+ "/" +:+ b)
  = resolveRef doc ("#/" +:+ a) ≫= λ mid, resolveRef mid ("#/" +:+ b).
Proof.
  rewrite (resolveRef_hash doc (a +:+ "/" +:+ b)), (resolveRef_hash doc a).
  change ("/" +:+ b) with (String "/" b).
  rewrite split_app, walk_app.
  destruct (walk doc (split "/" a)) as [mid|e]; [|done]. cbn [mbind M_bind].
  by rewrite resolveRef_hash.
Qed.

(** *** Route order *)

Lemma priorityOr3_routeClass (item : string * value) :
  priorityOr3 item = routeClass item.
Proof.
  unfold priorityOr3, priorityFor, routeClass.
  destruct (keys item.2) as [methods|e]; cbn [mbind M_bind].
  - destruct ((_ || _) && _); [done|]. by destruct (_ && _).
  - by rewrite !andb_false_r.
Qed.

Lemma insert_by_key_filter {A} (key : A → Z) (p : Z) (x : A) (l : list A) :
  filter (λ y, key y = p) (insert_sorted (λ a b, Some (key a - key b)%Z) x l)
  = filter (λ y, key y = p) (x :: l).
Proof.
  induction l as [|y l IH]; [done|]. cbn [insert_sorted cmp_le].
  destruct (Z.leb_spec (key x - key y) 0) as [Hle|Hgt]; [done|].
  rewrite filter_cons, IH, !filter_cons.
  destruct (decide (key y = p)), (decide (key x = p)); try done. lia.
Qed.

Lemma sort_by_key_filter {A} (key : A → Z) (p : Z) (l : list A) :
  filter (λ y, key y = p) (sort (λ a b, Some (key a - key b)%Z) l)
  = filter (λ y, key y = p) l.
Proof.
  induction l as [|x l IH]; [done|]. cbn [sort].
  by rewrite insert_by_key_filter, !filter_cons, IH.
Qed.

Lemma insert_by_key_sorted {A} (key : A → Z) (x : A) (l : list A) :
  StronglySorted (λ a b, (key a ≤ key b)%Z) l →
  StronglySorted (λ a b, (key a ≤ key b)%Z)
    (insert_sorted (λ a b, Some (key a - key b)%Z) x l).
Proof.
  induction l as [|y l IH]; intros Hs; cbn [insert_sorted cmp_le].
  - by repeat constructor.
  - apply StronglySorted_cons in Hs as [Hy Hs].
    destruct (Z.leb_spec (key x - key y) 0) as [Hle|Hgt].
    + apply StronglySorted_cons. split; [|by apply StronglySorted_cons].
      constructor; [lia|]. eapply Forall_impl; [exact Hy|]. cbn. intros; lia.
    + apply StronglySorted_cons. split; [|by apply IH].
      rewrite insert_sorted_perm. constructor; [lia|done].
Qed.

Lemma sort_by_key_sorted {A} (key : A → Z) (l : list A) :
  StronglySorted (λ a b, (key a ≤ key b)%Z)
    (sort (λ a b, Some (key a - key b)%Z) l).
Proof.
  induction l as [|x l IH]; [constructor|]. by apply insert_by_key_sorted.
Qed.

Lemma routeClass_range (item : string * value) :
  routeClass item = 1%Z ∨ routeClass item = 2%Z ∨ routeClass item = 3%Z.
Proof. unfold routeClass. repeat case_match; auto. Qed.

Lemma sorted_by_class (l : list (string * value)) :
  StronglySorted (λ a b, (routeClass a ≤ routeClass b)%Z) l →
  l = inClass 1 l ++ inClass 2 l ++ inClass 3 l.
Proof.
  unfold inClass. induction l as [|x l IH]; [done|].
  intros [Hx Hs]%StronglySorted_cons. specialize (IH Hs).
  assert (∀ p, (p < routeClass x)%Z →
               filter (λ item, routeClass item = p) l = []) as Hnone.
  { intros p Hp. clear IH Hs. induction Hx as [|y l Hy _ IHl]; [done|].
    rewrite filter_cons_False by lia. apply IHl. }
  destruct (routeClass_range x) as [H1|[H2|H3]].
  - rewrite (filter_cons_True (λ item, routeClass item = 1%Z)) by done.
    rewrite !filter_cons_False by (cbn; lia).
    cbn [app]. by f_equal.
  - rewrite (filter_cons_True (λ item, routeClass item = 2%Z)) by done.
    rewrite !filter_cons_False by (cbn; lia).
    rewrite (Hnone 1%Z) by lia. rewrite (Hnone 1%Z) in IH by lia.
    cbn [app] in *. by f_equal.
  - rewrite (filter_cons_True (λ item, routeClass item = 3%Z)) by done.
    rewrite !filter_cons_False by (cbn; lia).
    rewrite (Hnone 1%Z), (Hnone 2%Z) by lia.
    rewrite (Hnone 1%Z), (Hnone 2%Z) in IH by lia.
    cbn [app] in *. by f_equal.
Qed.

Lemma sort_ext {A} (cmp1 cmp2 : A → A → option Z) (l : list A) :
  (∀ a b, cmp1 a b = cmp2 a b) → sort cmp1 l = sort cmp2 l.
Proof.
  intros Hext. induction l as [|x l IH]; [done|]. cbn [sort]. rewrite IH.
  generalize (sort cmp2 l). intros l'.
  induction l' as [|y l' IH']; [done|]. cbn [insert_sorted].
  by rewrite Hext, IH'.
Qed.

(** X13. The routes are planned class by class: first the routes of
    class 1, then those of class 2, then all the others, and within a
    class in the order of the document. *)
Theorem sortedPathList_by_class (paths : value) (sorted : list (string * value)) :
  sortedPathList paths = Ok sorted →
  ∃ pathList,
    entries paths = Ok pathList
    ∧ sorted = inClass 1 pathList ++ inClass 2 pathList ++ inClass 3 pathList.
Proof.
  unfold sortedPathList. intros H.
  apply bind_Ok in H as (pathList & Hentries & H).
  apply bind_Ok in H as (_ & _ & [= <-]).
  exists pathList. split; [done|].
  set (sorted := sort _ pathList).
  assert (sorted = sort (λ a b, Some (routeClass a - routeClass b)%Z) pathList)
    as Hsorted.
  { subst sorted. apply sort_ext. intros a b.
    by rewrite !priorityOr3_routeClass. }
  assert (∀ p, inClass p sorted = inClass p pathList) as Hstable.
  { intros p. unfold inClass. rewrite Hsorted. apply sort_by_key_filter. }
  rewrite <- !Hstable. apply sorted_by_class.
  rewrite Hsorted. apply sort_by_key_sorted.
Qed.

Lemma emitted_codes_order_numeric (statusCodes : list string) :
  Forall numeric statusCodes →
  Forall numeric (emittedCodes statusCodes)
  ∧ StronglySorted precedes (emittedCodes statusCodes).
Proof.
  intros Hnum. unfold emittedCodes. split.
  - apply Forall_forall. intros code [_ Hin]%list_elem_of_filter.
    unfold sortStatusCodes in Hin. rewrite sort_perm in Hin.
    by eapply Forall_forall in Hnum.
  - apply filter_strongly_sorted, sortStatusCodes_sorted. by left.
Qed.

(** *** extractResponseExamples *)

(** X14. [extractResponseExamples] reports an example only when it is
    truthy: the result is [undefined] or a truthy value (an example that
    is [0], [false], the empty string or [null] is reported as none), and
    it is [undefined] for anything that is not a non-null object. *)
Theorem extractResponseExamples_truthy (respObj : value) :
  (extractResponseExamples respObj = VUndef
   ∨ truthy (extractResponseExamples respObj) = true)
  ∧ (truthy respObj && typeof_object respObj = false →
     extractResponseExamples respObj = VUndef).
Proof.
  unfold extractResponseExamples. split.
  - destruct (negb (truthy respObj) || negb (typeof_object respObj)); [by left|].
    set (media := get_opt (get_opt respObj "content") "application/json").
    destruct (truthy (get_opt media "examples")).
    + destruct (keys (get_opt media "examples")) as [[|k ks]|e].
      * destruct (truthy (get_opt media "example")) eqn:He; auto.
      * destruct (truthy (VStr k) && truthy _) eqn:Hv.
        -- right. by apply andb_true_iff in Hv as [_ Hv].
        -- destruct (truthy (get_opt media "example")) eqn:He; auto.
      * destruct (truthy (get_opt media "example")) eqn:He; auto.
    + destruct (truthy (get_opt media "example")) eqn:He; auto.
  - intros H. apply andb_false_iff in H as [-> | ->]; [done|].
    by rewrite orb_true_r.
Qed.

(** *** Status codes *)

Lemma compareCodes_le_conv (a b : string) :
  numeric a → numeric b →
  precedes a b → cmp_le (compareCodes a b) = true.
Proof.
  intros Ha Hb Hab.
  assert (inErrorRange a = inErrorRange b → (codeValue a ≤ codeValue b)%Z
          ∨ (inErrorRange a = true ∧ inErrorRange b = false)) as Hle.
  { intros _. destruct Hab as [?|[_ H]]; [by right|left; by apply H]. }
  assert (inErrorRange a = false → inErrorRange b = true → False) as Hno.
  { intros Ea Eb. destruct Hab as [[? _]|[? _]]; congruence. }
  destruct Ha as [x Hx], Hb as [y Hy]. revert Hle Hno.
  unfold compareCodes. rewrite !isNeg_inErrorRange.
  unfold codeValue. rewrite Hx, Hy. cbn.
  destruct (inErrorRange a), (inErrorRange b); cbn; try done.
  - intros Hle _. destruct (Hle eq_refl) as [?|[_ ?]]; [|done].
    apply Z.leb_le. lia.
  - intros _ Hno. by destruct Hno.
  - intros Hle _. destruct (Hle eq_refl) as [?|[? _]]; [|done].
    apply Z.leb_le. lia.
Qed.

Lemma sort_sorted_id (l : list string) :
  Forall numeric l → StronglySorted precedes l → sort compareCodes l = l.
Proof.
  induction l as [|x l IH]; [done|].
  intros [Hx Hl]%Forall_cons [Hxl Hs]%StronglySorted_cons.
  cbn [sort]. rewrite (IH Hl Hs).
  destruct l as [|y l]; [done|]. cbn [insert_sorted].
  apply Forall_cons in Hl as [Hy _]. apply Forall_cons in Hxl as [Hxy _].
  by rewrite (compareCodes_le_conv _ _ Hx Hy Hxy).
Qed.

(** X15. Ordering is idempotent on numeric codes: the emitted codes of a
    group, ordered and filtered again, are the same list. *)
Theorem emittedCodes_idempotent (statusCodes : list string) :
  Forall numeric statusCodes →
  emittedCodes (emittedCodes statusCodes) = emittedCodes statusCodes.
Proof.
  intros Hnum.
  destruct (emitted_codes_order_numeric statusCodes Hnum) as [Hn Hs].
  unfold emittedCodes at 1. unfold sortStatusCodes.
  rewrite (sort_sorted_id _ Hn Hs). unfold emittedCodes.
  apply list_filter_filter_l. done.
Qed.

(** *** The plan *)

Ltac unbind H :=
  let x := fresh "x" in
  let Hx := fresh "Hx" in
  apply bind_Ok in H; destruct H as (x & Hx & H).

Lemma never_500 (statusCodes : list string) :
  "500" ∈ emittedCodes statusCodes → False.
Proof. by destruct (emitted_codes_without_500 statusCodes) as [Hno _]. Qed.

Lemma elem_of_concat {A} (x : A) (ls : list (list A)) :
  x ∈ concat ls → ∃ l, x ∈ l ∧ l ∈ ls.
Proof.
  induction ls as [|l ls IH]; cbn [concat]; [by intros ?%elem_of_nil|].
  intros [Hx|Hx]%elem_of_app.
  - exists l. split; [done|by left].
  - destruct (IH Hx) as (l' & Hl' & Hin). exists l'. split; [done|by right].
Qed.

Lemma codes_without_500 (lines : list line) (statusCodes : list string) :
  omap lineCode lines = emittedCodes statusCodes →
  ∀ l, l ∈ lines → lineCode l ≠ Some "500".
Proof.
  intros Hcodes l Hl Hc.
  assert ("500" ∈ omap lineCode lines) as Hin.
  { apply list_elem_of_omap. by exists l. }
  rewrite Hcodes in Hin. by apply never_500 in Hin.
Qed.

Lemma emitPrioritized_without_500 (doc : value)
    (pathList : list (string * value)) (route : string) (lines : list line) :
  emitPrioritized doc pathList route = Ok lines →
  ∀ l, l ∈ lines → lineCode l ≠ Some "500".
Proof.
  unfold emitPrioritized.
  destruct (find_route route pathList) as [item|];
    [|by intros [= <-] l ?%elem_of_nil].
  intros H. unbind H.
  destruct (truthy x); [|injection H as <-; by intros l ?%elem_of_nil].
  do 2 unbind H. injection H as <-.
  intros l [Hl|Hl]%elem_of_app.
  - apply list_elem_of_fmap in Hl as (code & -> & Hcode). cbn.
    intros [= ->]. by apply never_500 in Hcode.
  - destruct (existsb _ _); [by apply elem_of_nil in Hl|].
    by apply list_elem_of_singleton in Hl as ->.
Qed.

Lemma emitSessions_without_500 (doc : value)
    (pathList : list (string * value)) (lines : list line) :
  emitSessions doc pathList = Ok lines →
  ∀ l, l ∈ lines → lineCode l ≠ Some "500".
Proof.
  unfold emitSessions.
  destruct (find_route _ pathList) as [item|];
    [|by intros [= <-] l ?%elem_of_nil].
  intros H. unbind H.
  destruct (truthy x); [|injection H as <-; by intros l ?%elem_of_nil].
  do 2 unbind H. injection H as <-.
  intros l (code & -> & Hcode)%list_elem_of_fmap. cbn.
  intros [= ->]. by apply never_500 in Hcode.
Qed.

Lemma emitRoute_without_500 (doc : value) (item : string * value)
    (lines : list line) :
  emitRoute doc item = Ok lines →
  ∀ l, l ∈ lines → lineCode l ≠ Some "500".
Proof.
  unfold emitRoute. intros H. do 2 unbind H. injection H as <-.
  apply traverse_Ok in Hx0. clear Hx.
  intros l (g & Hl & Hg)%elem_of_concat.
  induction Hx0 as [|[method detail] g' ops groups Hg' _ IH];
    [by apply elem_of_nil in Hg|].
  apply elem_of_cons in Hg as [->|Hg]; [|by apply IH].
  apply emitOperation_codes in Hg' as [_ [->|(codes & _ & Hcodes)]].
  - by apply elem_of_nil in Hl.
  - by eapply codes_without_500.
Qed.

(** X16. No test line of a generated plan carries the status code 500,
    whatever the document declares. *)
Theorem plan_without_500 (doc : value) (lines : list line) :
  planLines doc = Ok lines →
  ∀ l, l ∈ lines → lineCode l ≠ Some "500".
Proof.
  unfold planLines. intros H. do 5 unbind H. injection H as <-.
  apply traverse_Ok in Hx1, Hx3.
  intros l Hl.
  apply elem_of_cons in Hl as [->|Hl]; [done|].
  apply elem_of_cons in Hl as [->|Hl]; [done|].
  apply elem_of_app in Hl as [Hl|Hl].
  { apply elem_of_concat in Hl as (g & Hl & Hg).
    clear Hx3. induction Hx1 as [|route g' routes groups Hg' _ IH];
      [by apply elem_of_nil in Hg|].
    apply elem_of_cons in Hg as [->|Hg]; [|by apply IH].
    by eapply emitPrioritized_without_500. }
  apply elem_of_app in Hl as [Hl|Hl].
  { by eapply emitSessions_without_500. }
  apply elem_of_concat in Hl as (g & Hl & Hg).
  clear Hx0 Hx1 Hx2. induction Hx3 as [|item g' items groups Hg' _ IH];
    [by apply elem_of_nil in Hg|].
  apply elem_of_cons in Hg as [->|Hg]; [|by apply IH].
  by eapply emitRoute_without_500.
Qed.

Lemma traverse_total {A B} (f : A → M B) (g : A → B) (l : list A) :
  (∀ x, f x = Ok (g x)) → traverse f l = Ok (map g l).
Proof.
  intros Hf. induction l as [|x l IH]; [done|].
  cbn [traverse map]. rewrite Hf. cbn [mbind M_bind]. by rewrite IH.
Qed.

(** X17. The cases of a GET or DELETE operation (whatever the case of the
    method name) carry neither a body nor a callback, one per emitted
    status code; request bodies and response examples of the operation
    are not even read, so a malformed one cannot make the group fail. *)
Theorem emitOperation_get_delete (doc : value) (route method : string)
    (detail : value) (statusCodes : list string) :
  toLowerCase method = "get" ∨ toLowerCase method = "delete" →
  statusCodesOf detail = Ok statusCodes →
  emitOperation doc route (method, detail)
  = Ok (map (λ code, TestLine (toUpperCase method +:+ " " +:+ route) code
                              None NoCallback)
            (emittedCodes statusCodes)).
Proof.
  intros Hmethod Hcodes. unfold emitOperation. cbn [fst snd].
  assert (String.eqb (toLowerCase method) "post" = false) as ->
    by (by destruct Hmethod as [-> | ->]).
  rewrite andb_false_r, Hcodes. cbn [mbind M_bind].
  apply traverse_total. intros code. unfold emitCase.
  rewrite bool_decide_eq_true_2; [done|].
  destruct Hmethod as [-> | ->]; [by left|by right; left].
Qed.

End GeneratorMore.

(** ** The base URL and the recovery of the document *)

Section AcquirerProperties.
Import JS Acquirer BaseUrl Spec SpecExtra.

Lemma stripSlash_spec (u : string) :
  (endsWithSlash u = true → stripSlash u +:+ "/" = u)
  ∧ (endsWithSlash u = false → stripSlash u = u).
Proof.
  induction u as [|c u [IH1 IH2]]; [done|].
  destruct u as [|d u].
  - cbn. destruct (Ascii.eqb_spec c "/") as [->|Hc]; by split.
  - change (endsWithSlash (String c (String d u)))
      with (endsWithSlash (String d u)).
    change (stripSlash (String c (String d u)))
      with (String c (stripSlash (String d u))).
    split; intros H.
    + by rewrite append_cons, (IH1 H).
    + by rewrite (IH2 H).
Qed.

(** X18. The base URL baked into the test file: an absolute URL of the
    first server is used with one trailing slash removed, whatever the
    documentation link is; with no server entry, no link and no operator
    to ask, the base URL is left empty and generation goes on.
    Generation is given up with a message only when the link is needed
    and cannot be parsed, or when the operator gives no answer; and an
    exception leaves the generator, a [TypeError], exactly when the list
    of servers starts with an entry that is [null] or [undefined]. *)
Theorem bakedBaseUrl_rules (origin : string → option string) (prompted : value)
    (swaggerDoc : value) (swaggerUiLink : option string) (interactive : bool) :
  (∀ first rest u,
     get_opt swaggerDoc "servers" = VArr (first :: rest) →
     get_opt first "url" = VStr u → startsWith u "http" = true →
     bakedBaseUrl origin prompted swaggerDoc swaggerUiLink interactive
     = Baked (stripSlash u)
     ∧ (endsWithSlash u = true → stripSlash u +:+ "/" = u)
     ∧ (endsWithSlash u = false → stripSlash u = u))
  ∧ ((∀ first rest, get_opt swaggerDoc "servers" ≠ VArr (first :: rest)) →
     swaggerUiLink = None ∨ swaggerUiLink = Some "" →
     bakedBaseUrl origin prompted swaggerDoc swaggerUiLink false = Baked "")
  ∧ (∀ message,
       bakedBaseUrl origin prompted swaggerDoc swaggerUiLink interactive
       = Aborted message →
       (message = cannotParse
        ∧ origin (default (ToString VUndef) swaggerUiLink) = None)
       ∨ (message = baseUrlRequired ∧ interactive = true
          ∧ truthy prompted = false))
  ∧ (∀ e,
       bakedBaseUrl origin prompted swaggerDoc swaggerUiLink interactive
       = Raised e
       ↔ e = TypeError
         ∧ ∃ first rest, get_opt swaggerDoc "servers" = VArr (first :: rest)
                         ∧ nullish first = true).
Proof.
  assert (∀ message, fromLink origin swaggerUiLink = Aborted message →
            message = cannotParse
            ∧ origin (default (ToString VUndef) swaggerUiLink) = None) as Hlink.
  { unfold fromLink. intros message.
    destruct swaggerUiLink as [link|]; cbn [default];
      destruct (origin _); [done|by intros [= <-]|done|by intros [= <-]]. }
  split_and!.
  - intros first rest u Hservers Hurl Hhttp. split; [|apply stripSlash_spec].
    unfold bakedBaseUrl. rewrite Hservers. cbn [truthy isArray andb].
    change (get_opt (VArr (first :: rest)) "0") with first.
    assert (nullish first = false) as Hnn by (by destruct first).
    rewrite (get_present _ _ Hnn), Hurl. by rewrite Hhttp.
  - intros Hnone Hlk. unfold bakedBaseUrl.
    assert ((truthy (get_opt swaggerDoc "servers")
             && isArray (get_opt swaggerDoc "servers")
             && match get_opt swaggerDoc "servers" with
                | VArr (_ :: _) => true
                | _ => false
                end) = false) as ->.
    { destruct (get_opt swaggerDoc "servers")
        as [| |[]|[]|[]|[|first rest]| |[]|] eqn:Hs;
        try done. by destruct (Hnone first rest). }
    by destruct Hlk as [-> | ->].
  - intros message. unfold bakedBaseUrl.
    destruct (truthy _ && _ && _).
    + destruct (get _ "url") as [[| | | |u| | | |]|e]; try done;
        try (intros H; left; by apply Hlink).
      destruct (startsWith u "http"); [done|]. left. by apply Hlink.
    + destruct (match swaggerUiLink with Some _ => _ | None => _ end).
      * left. by apply Hlink.
      * destruct interactive; [|done].
        destruct (truthy prompted) eqn:Hp; [done|].
        intros [= <-]. by right.
  - assert (∀ e, fromLink origin swaggerUiLink ≠ Raised e) as Hnever.
    { intros e. unfold fromLink. by destruct (origin _). }
    intros e. unfold bakedBaseUrl.
    destruct (get_opt swaggerDoc "servers")
      as [| |b|n|s|[|first rest]|kvs|c|c name] eqn:Hs;
      cbn [truthy isArray andb];
      try (split; [|by intros (_ & ? & ? & ? & _)];
           rewrite ?andb_false_r;
           destruct (match swaggerUiLink with Some _ => _ | None => _ end);
             [by intros ?%Hnever|];
           destruct interactive; [by destruct (truthy prompted)|done]).
    change (get_opt (VArr (first :: rest)) "0") with first.
    unfold get. destruct (nullish first) eqn:Hnn.
    + split; [intros [= <-]; split; [done|by exists first, rest]|].
      by intros [-> _].
    + split; [|intros (_ & ? & ? & [= <- _] & ?); congruence].
      destruct (match lookup first "url" with Some x => x | None => VUndef end)
        as [| | | |u| | | |]; try by intros ?%Hnever.
      destruct (startsWith u "http"); [done|]. by intros ?%Hnever.
Qed.

(** *** astToObject *)

Lemma node_induction (P : node → Prop) :
  (∀ ps, Forall (λ p, match p with Some (_, v) => P v | None => True end) ps →
         P (ObjectExpression ps)) →
  (∀ es, Forall (λ e, match e with Some n => P n | None => True end) es →
         P (ArrayExpression es)) →
  (∀ v, P (Literal v)) →
  (∀ name, P (Identifier name)) →
  P OtherNode →
  ∀ n, P n.
Proof.
  intros Hobj Harr Hlit Hid Hother. fix IH 1. intros [ps|es|v|name|].
  - apply Hobj. induction ps as [|[[k v]|] ps IHps].
    + constructor.
    + constructor; [apply IH|exact IHps].
    + constructor; [exact I|exact IHps].
  - apply Harr. induction es as [|[n|] es IHes].
    + constructor.
    + constructor; [apply IH|exact IHes].
    + constructor; [exact I|exact IHes].
  - apply Hlit.
  - apply Hid.
  - apply Hother.
Qed.

Lemma astToObject_object (ps : list (option (key * node))) :
  astToObject (ObjectExpression ps) = evalProps [] ps.
Proof.
  cbn [astToObject]. generalize ([] : list (string * value)).
  induction ps as [|[[k v]|] ps IH]; intros obj; cbn [evalProps]; [done| |done].
  destruct (astToObject v); cbn [mbind M_bind]; [apply IH|done].
Qed.

Lemma astToObject_array (es : list (option node)) :
  astToObject (ArrayExpression es) = xs ← evalElems es; Ok (VArr xs).
Proof.
  reflexivity.
Qed.

(** X19. [astToObject] throws exactly when an object literal of the tree
    has a spread element; [evalSwaggerDoc] then gives the empty object in
    place of the whole document, and the evaluated tree otherwise. *)
Theorem astToObject_spread (n : node) :
  (hasSpread n = true →
   astToObject n = Throw TypeError ∧ evalSwaggerDoc n = VObj [])
  ∧ (hasSpread n = false →
     ∃ v, astToObject n = Ok v ∧ evalSwaggerDoc n = v).
Proof.
  assert ((hasSpread n = true → astToObject n = Throw TypeError)
          ∧ (hasSpread n = false → ∃ v, astToObject n = Ok v)) as [Ht Hf].
  { induction n as [ps Hps|es Hes|v|name|] using node_induction;
      try (split; [done|]; intros _; by eexists).
    - rewrite astToObject_object. cbn [hasSpread].
      generalize ([] : list (string * value)).
      induction Hps as [|[[k v]|] ps Hv _ IH]; intros obj; cbn [evalProps].
      + split; [done|]. intros _. by eexists.
      + destruct Hv as [Hvt Hvf]. destruct (hasSpread v); cbn [orb].
        * split; [|done]. intros _. by rewrite (Hvt eq_refl).
        * destruct (Hvf eq_refl) as (x & ->). cbn [mbind M_bind]. apply IH.
      + by split.
    - rewrite astToObject_array. cbn [hasSpread].
      assert ((((fix elems (es0 : list (option node)) : bool :=
                   match es0 with
                   | [] => false
                   | Some n' :: rest => hasSpread n' || elems rest
                   | None :: rest => elems rest
                   end) es = true → evalElems es = Throw TypeError))
              ∧ ((fix elems (es0 : list (option node)) : bool :=
                    match es0 with
                    | [] => false
                    | Some n' :: rest => hasSpread n' || elems rest
                    | None :: rest => elems rest
                    end) es = false → ∃ xs, evalElems es = Ok xs)) as [Het Hef].
      { induction Hes as [|[v|] es Hv _ [IHt IHf]]; cbn [evalElems].
        - split; [done|]. intros _. by eexists.
        - destruct Hv as [Hvt Hvf]. destruct (hasSpread v); cbn [orb].
          + split; [|done]. intros _. by rewrite (Hvt eq_refl).
          + destruct (Hvf eq_refl) as (x & ->). cbn [mbind M_bind]. split.
            * intros H. by rewrite (IHt H).
            * intros H. destruct (IHf H) as (xs & ->). by eexists.
        - cbn [mbind M_bind]. split.
          + intros H. by rewrite (IHt H).
          + intros H. destruct (IHf H) as (xs & ->). by eexists. }
      split.
      + intros H. by rewrite (Het H).
      + intros H. destruct (Hef H) as (xs & ->). by eexists. }
  unfold evalSwaggerDoc. split.
  - intros H. by rewrite (Ht H).
  - intros H. destruct (Hf H) as (v & ->). by exists v.
Qed.

Lemma value_induction (P : value → Prop) :
  P VUndef → P VNull → (∀ b, P (VBool b)) → (∀ n, P (VNum n)) →
  (∀ s, P (VStr s)) →
  (∀ xs, Forall P xs → P (VArr xs)) →
  (∀ kvs, Forall (λ kv, P kv.2) kvs → P (VObj kvs)) →
  (∀ c, P (VProto c)) → (∀ c name, P (VFun c name)) →
  ∀ v, P v.
Proof.
  intros Hu Hn Hb Hz Hs Harr Hobj Hproto Hfun. fix IH 1.
  intros [| |b|n|s|xs|kvs|c|c name].
  - apply Hu.
  - apply Hn.
  - apply Hb.
  - apply Hz.
  - apply Hs.
  - apply Harr. induction xs as [|x xs IHxs].
    + constructor.
    + constructor; [apply IH|exact IHxs].
  - apply Hobj. induction kvs as [|[k x] kvs IHkvs].
    + constructor.
    + constructor; [apply IH|exact IHkvs].
  - apply Hproto.
  - apply Hfun.
Qed.

(** X20. A document written as a literal is recovered as it is:
    evaluating the syntax tree of the literal of a canonical value (no
    [undefined], natural numbers within the safe integers, objects
    without a [__proto__] key) gives that value back.  A negative number
    is lost: its syntax tree is no literal, and evaluates to
    [undefined]. *)
Theorem astToObject_quote (v : value) :
  (canonical v → astToObject (quote v) = Ok v)
  ∧ (∀ n, v = VNum n → (n < 0)%Z → astToObject (quote v) = Ok VUndef).
Proof.
  split.
  - induction v as [| |b|n|s|xs Hxs|kvs Hkvs|c|c name] using value_induction;
      try done.
    + cbn [canonical quote]. intros [Hn _].
      by destruct (Z.ltb_spec n 0); [lia|].
    + cbn [canonical quote]. intros Hall. rewrite astToObject_array.
      assert (evalElems (map (λ x, Some (quote x)) xs) = Ok xs) as ->; [|done].
      induction Hxs as [|x xs Hx _ IH]; [done|].
      destruct Hall as [Hcx Hrest]. cbn [map evalElems].
      rewrite (Hx Hcx). cbn [mbind M_bind]. by rewrite (IH Hrest).
    + cbn [canonical quote]. intros [Hreplay Hall]. rewrite astToObject_object.
      rewrite <- Hreplay at 2. unfold replay.
      generalize ([] : list (string * value)).
      clear Hreplay. induction Hkvs as [|[k x] kvs Hx _ IH]; intros obj; [done|].
      destruct Hall as [Hcx Hrest]. cbn [map evalProps fold_left].
      cbn [snd] in Hx. rewrite (Hx Hcx). cbn [mbind M_bind]. by apply IH.
  - intros n -> Hn. cbn [quote].
    by destruct (Z.ltb_spec n 0); [|lia].
Qed.

(** A key [__proto__] is not recovered: assigning it adds no property. *)
Example astToObject_proto_key :
  astToObject (quote (VObj [("a", VNum 1); ("__proto__", VObj [])]))
  = Ok (VObj [("a", VNum 1)]).
Proof. reflexivity. Qed.

End AcquirerProperties.

(** ** The further properties at concrete inputs *)

Section MoreInstances.
Import JS Generator Helpers Assertions Acquirer BaseUrl Spec SpecExtra
       Examples Fixtures.

Lemma interpolate_plain_witness :
  noToken "GET /items/{id}?max=$5" = true
  ∧ interpolate {["id" := VStr "42"]} "GET /items/{id}?max=$5"
    = "GET /items/{id}?max=$5".
Proof.
  split; [reflexivity|].
  exact (interpolate_plain {["id" := VStr "42"]} "GET /items/{id}?max=$5" eq_refl).
Defined.

Lemma req_request_shape_witness :
  createSessionRequest
  ∈ (req nat server baseUrl resolveUrl acceptHeaders stringify 0%nat "POST /sessions"
         createSession).2
  ∧ (req nat server baseUrl resolveUrl acceptHeaders stringify 0%nat "POST /sessions"
         createSession).2 = [createSessionRequest]
  ∧ r_method createSessionRequest = methodOf "POST /sessions".
Proof.
  assert (createSessionRequest
          ∈ (req nat server baseUrl resolveUrl acceptHeaders stringify 0%nat "POST /sessions"
                 createSession).2) as Hr.
  { apply list_elem_of_singleton. reflexivity. }
  split; [exact Hr|].
  destruct (req_request_shape server baseUrl resolveUrl acceptHeaders stringify 0%nat
              "POST /sessions" createSession createSessionRequest Hr)
    as (Hsent & Hmethod & _).
  split; [exact Hsent|exact Hmethod].
Defined.

Lemma req_throws_before_dispatch_witness :
  (req nat server None resolveUrl acceptHeaders stringify 0%nat "GET /profile"
       (caseOptions getProfile ∅)).1.1 = Throw baseUrlMissing
  ∧ (req nat server None resolveUrl acceptHeaders stringify 0%nat "GET /profile"
         (caseOptions getProfile ∅)).2 = []
  ∧ (req nat server None resolveUrl acceptHeaders stringify 0%nat "GET /profile"
         (caseOptions getProfile ∅)).1.2 = 0%nat.
Proof.
  split; [reflexivity|].
  destruct (req_throws_before_dispatch server None resolveUrl acceptHeaders stringify 0%nat
              "GET /profile" (caseOptions getProfile ∅) baseUrlMissing eq_refl)
    as (Hsent & Hworld & _).
  split; [exact Hsent|exact Hworld].
Defined.

Lemma run_without_callbacks_witness :
  (∀ c, c ∈ [postSessions; getProfile] → save c = None)
  ∧ context nat (runQueuedTests nat server baseUrl resolveUrl acceptHeaders stringify 0%nat
                   {["token" := VStr "t"]} [postSessions; getProfile])
    = {["token" := VStr "t"]}.
Proof.
  assert (∀ c, c ∈ [postSessions; getProfile] → save c = None) as H.
  { intros c Hc. apply elem_of_cons in Hc as [->|Hc]; [reflexivity|].
    apply list_elem_of_singleton in Hc as ->. reflexivity. }
  split; [exact H|].
  exact (run_without_callbacks server baseUrl resolveUrl acceptHeaders stringify 0%nat
           {["token" := VStr "t"]} [postSessions; getProfile] H).
Defined.

Lemma has_structure_extended_witness :
  assoc "extra" [("id", VNum 1)] = None
  ∧ "extra" ≠ "__proto__"
  ∧ has_structure (VObj [("id", VNum 1)]) (Shape [("id", TNumber)]) = true
  ∧ has_structure (VObj ([("id", VNum 1)] ++ [("extra", VNull)]))
      (Shape [("id", TNumber)]) = true.
Proof.
  assert ("extra" ≠ "__proto__") as Hname by discriminate.
  split; [reflexivity|]. split; [exact Hname|]. split; [reflexivity|].
  exact (has_structure_extended [("id", VNum 1)] "extra" VNull
           (Shape [("id", TNumber)]) eq_refl Hname eq_refl).
Defined.

(** A shape can ask for the prototype: an object without a property
    [__proto__] has the structure, and loses it when it gets one. *)
Example has_structure_prototype :
  has_structure (VObj []) (Shape [("__proto__", TObject)]) = true
  ∧ has_structure (VObj [("__proto__", VStr "x")])
      (Shape [("__proto__", TObject)]) = false
  ∧ has_structure (VObj []) (Shape [("toString", TObject)]) = false.
Proof. repeat split. Qed.

(** The [in] operator finds what an object inherits. *)
Example expect_field_inherited :
  expect_field stringify (VObj []) (inr ["toString"; "__proto__"]) = Ok tt
  ∧ expect_field stringify (VObj []) (inl "id")
    = Throw (Error "FAIL: Expected field 'id' in object, got: [object Object]").
Proof. repeat split. Qed.

(** Headers that the constructor rejects: [req] throws, nothing is sent. *)
Example req_rejects_headers_example :
  req nat server baseUrl resolveUrl acceptHeaders stringify 0%nat "GET /profile"
      {| o_body := VNull; o_headers := [("", "x")]; o_params := [] |}
  = (Throw TypeError, 0%nat, []).
Proof. reflexivity. Qed.

(** A list of servers that starts with [null]: the generator raises. *)
Example bakedBaseUrl_null_server :
  bakedBaseUrl (λ _, None) VUndef (VObj [("servers", VArr [VNull])]) None false
  = Raised TypeError.
Proof. reflexivity. Qed.

Lemma sortedPathList_by_class_witness :
  sortedPathList threeRoutes
  = Ok [("/users", VObj [("post", VObj [])]);
        ("/sessions", VObj [("post", VObj [])]);
        ("/items", VObj [("get", VObj [])])]
  ∧ ∃ pathList,
      entries threeRoutes = Ok pathList
      ∧ [("/users", VObj [("post", VObj [])]);
         ("/sessions", VObj [("post", VObj [])]);
         ("/items", VObj [("get", VObj [])])]
        = inClass 1 pathList ++ inClass 2 pathList ++ inClass 3 pathList.
Proof.
  split; [reflexivity|].
  exact (sortedPathList_by_class threeRoutes _ eq_refl).
Defined.

Lemma emittedCodes_idempotent_witness :
  Forall numeric ["201"; "404"; "500"; "400"]
  ∧ emittedCodes (emittedCodes ["201"; "404"; "500"; "400"])
    = emittedCodes ["201"; "404"; "500"; "400"].
Proof.
  assert (Forall numeric ["201"; "404"; "500"; "400"]) as H.
  { repeat constructor; by eexists. }
  split; [exact H|].
  exact (emittedCodes_idempotent ["201"; "404"; "500"; "400"] H).
Defined.

Lemma plan_without_500_witness :
  planLines (usersDoc ["201"; "409"; "500"])
  = Ok [ProbeLine; BlankLine;
        TestLine "POST /users" "409" (Some emptyObject) NoCallback;
        TestLine "POST /users" "201" (Some emptyObject) NoCallback]
  ∧ ∀ l, l ∈ [ProbeLine; BlankLine;
              TestLine "POST /users" "409" (Some emptyObject) NoCallback;
              TestLine "POST /users" "201" (Some emptyObject) NoCallback] →
         lineCode l ≠ Some "500".
Proof.
  split; [reflexivity|].
  exact (plan_without_500 (usersDoc ["201"; "409"; "500"]) _ eq_refl).
Defined.

Lemma emitOperation_get_delete_witness :
  (toLowerCase "Get" = "get" ∨ toLowerCase "Get" = "delete")
  ∧ statusCodesOf listItems = Ok ["200"; "404"; "500"]
  ∧ emitOperation (VObj []) "/items" ("Get", listItems)
    = Ok (map (λ code, TestLine (toUpperCase "Get" +:+ " " +:+ "/items") code
                                None NoCallback)
              (emittedCodes ["200"; "404"; "500"])).
Proof.
  split; [by left|]. split; [reflexivity|].
  exact (emitOperation_get_delete (VObj []) "/items" "Get" listItems
           ["200"; "404"; "500"] (or_introl eq_refl) eq_refl).
Defined.

Lemma astToObject_quote_witness :
  canonical smallDocument
  ∧ astToObject (quote smallDocument) = Ok smallDocument.
Proof.
  assert (canonical smallDocument) as H.
  { cbn. repeat split. }
  split; [exact H|]. exact (proj1 (astToObject_quote smallDocument) H).
Defined.

End MoreInstances.
